(** * SONIA swap pricing: curves, schedules, pricing and risk

    A shallow embedding of the pricing core of the repository
    ([src/curves.py], [src/daycount.py], [src/schedule.py],
    [src/swap_pricing.py], [src/pricing_engine.py]) and the properties
    its specification states about it.

    Number model.  Python [float] values are modelled as real numbers
    ([R]): every arithmetic operation is the exact one, [np.exp] and
    [np.log] are [exp] and [ln].  Python [int] values and calendar
    fields are [Z].  Python exceptions are values of [exn] carried by
    the [result] monad.  Where numpy would produce [nan] or [inf]
    (logarithm of a non-positive number, division by zero) the real
    functions return a conventional value; the statements below that
    depend on it carry the positivity they need. *)

From Stdlib Require Import Reals Lra Lia ZArith List Sorted String Ascii Bool.
Import ListNotations.

Local Open Scope R_scope.

(** ** Exceptions and the error monad *)

Inductive exn : Type :=
| ValueError (msg : string)
| IndexError
| KeyError
| ZeroDivisionError.

Inductive result (A : Type) : Type :=
| Ok (a : A)
| Err (e : exn).

Arguments Ok {A} a.
Arguments Err {A} e.

Definition bind {A B : Type} (c : result A) (k : A -> result B) : result B :=
  match c with
  | Ok a => k a
  | Err e => Err e
  end.

Notation "x <- c ;; k" := (bind c (fun x => k))
  (at level 61, c at next level, right associativity).

Definition is_ok {A : Type} (c : result A) : bool :=
  match c with Ok _ => true | Err _ => false end.

(** ** Numeric helpers *)

(** [round(x)] of Python and [np.round(x)]: the nearest integer, ties
    going to the even one. *)
Definition round_half_even (x : R) : Z :=
  let n := Int_part x in
  let d := x - IZR n in
  if Rlt_dec d (1 / 2) then n
  else if Rlt_dec (1 / 2) d then (n + 1)%Z
  else if Z.even n then n else (n + 1)%Z.

(** [np.sum] of a list. *)
Definition np_sum (l : list R) : R := fold_right Rplus 0 l.

(** Element-wise product of two arrays, [a * b]. *)
Fixpoint np_mul (a b : list R) : list R :=
  match a, b with
  | x :: a', y :: b' => x * y :: np_mul a' b'
  | _, _ => []
  end.

(** [sorted(l, key=key)]: a stable sort, here by insertion. *)
Fixpoint insert_by {A : Type} (key : A -> R) (x : A) (l : list A) : list A :=
  match l with
  | [] => [x]
  | y :: l' =>
      if Rlt_dec (key y) (key x) then y :: insert_by key x l'
      else x :: y :: l'
  end.

Definition sorted_by {A : Type} (key : A -> R) (l : list A) : list A :=
  fold_right (insert_by key) [] l.

(** [np.interp(x, xp, fp)] for increasing sample points [xp]: the value
    [fp[0]] to the left of the samples, [fp[-1]] to their right, and on
    the interval [xp[j] <= x < xp[j+1]] the chord through the two
    samples.  [interp_from x x0 y0 xp fp] continues the search with
    [(x0, y0)] the last sample known to be at or left of [x]. *)
Fixpoint interp_from (x x0 y0 : R) (xp fp : list R) : R :=
  match xp, fp with
  | x1 :: xp', y1 :: fp' =>
      if Rle_dec x1 x then interp_from x x1 y1 xp' fp'
      else (y1 - y0) / (x1 - x0) * (x - x0) + y0
  | _, _ => y0
  end.

Definition np_interp (x : R) (xp fp : list R) : R :=
  match xp, fp with
  | x0 :: xp', y0 :: fp' =>
      if Rlt_dec x x0 then y0 else interp_from x x0 y0 xp' fp'
  | _, _ => 0
  end.

(** ** [curves.py] *)

Record CurvePoint : Type := mkCurvePoint {
  tenor : R;
  rate : R
}.

(** Curve names.  The program derives the name of a transformed curve
    with an f-string that prints a float ([f"{curve.name} +{bump_bp:.0f}bp"]
    and the like); a name is kept here as the term that records which
    format was applied to which values.  No computation reads a name. *)
Inductive label : Type :=
| Named (s : string)
| BumpedName (base : label) (bump_bp : R)
| NonParallelName (base : label)
| KeyRateName (base : label) (key_tenor : R).

(** The state of a [ZeroCurve] object.  [__init__] is the only way the
    program builds one, so the arrays are non-empty and of one length;
    the accessors below index them with a default that is never used on
    such an object. *)
Record ZeroCurve : Type := mkZeroCurve {
  _tenors : list R;
  _rates : list R;
  name : label;
  _discount_factors : option (list R)
}.

Definition ZeroCurve_init (points : list CurvePoint) (nm : label)
    (discount_factors : option (list R)) : result ZeroCurve :=
  let pts := sorted_by tenor points in
  match pts with
  | [] => Err IndexError
  | p0 :: _ =>
      if Rle_dec (tenor p0) 0 then Err (ValueError "Tenors must be positive")
      else
        let ts := map tenor pts in
        let rs := map rate pts in
        match discount_factors with
        | Some dfs =>
            if Nat.eqb (List.length dfs) (List.length ts)
            then Ok (mkZeroCurve ts rs nm (Some dfs))
            else Err (ValueError "Discount factors must align with tenor points")
        | None => Ok (mkZeroCurve ts rs nm None)
        end
  end.

Definition tenors (c : ZeroCurve) : list R := _tenors c.
Definition zero_rates (c : ZeroCurve) : list R := _rates c.

Definition zero_rate (c : ZeroCurve) (t : R) : R :=
  if Rle_dec t 0 then hd 0 (_rates c)
  else if Rle_dec (last (_tenors c) 0) t then last (_rates c) 0
  else np_interp t (_tenors c) (_rates c).

(** The interior branch takes [np.log] of the cached discount factors,
    which is a number only where they are positive; the properties
    that give a value or a sign to that branch assume a positive
    cache. *)
Definition discount_factor (c : ZeroCurve) (t : R) : R :=
  if Rle_dec t 0 then 1
  else
    match _discount_factors c with
    | Some dfs =>
        if Rle_dec t (hd 0 (_tenors c)) then exp (- hd 0 (_rates c) * t)
        else if Rle_dec (last (_tenors c) 0) t then
          let last_df := last dfs 0 in
          let last_tenor := last (_tenors c) 0 in
          let r := last (_rates c) 0 in
          let extension := t - last_tenor in
          last_df * exp (- r * extension)
        else
          let log_dfs := map ln dfs in
          exp (np_interp t (_tenors c) log_dfs)
    | None => exp (- zero_rate c t * t)
    end.

(** [df_start / df_end] divides two Python floats, which raises
    [ZeroDivisionError] when the divisor is zero. *)
Definition forward_rate (c : ZeroCurve) (start end_ : R) : result R :=
  if Rle_dec end_ start
  then Err (ValueError "End tenor must be greater than start tenor")
  else
    let df_start := discount_factor c start in
    let df_end := discount_factor c end_ in
    if Req_dec_T df_end 0 then Err ZeroDivisionError
    else Ok (ln (df_start / df_end) / (end_ - start)).

(** A quote table: the rows of the dataframe, each with its
    [tenor_years] and [rate] columns (the latter is [quote_rate] here,
    [rate] being the field of [CurvePoint]). *)
Record Quote : Type := mkQuote {
  tenor_years : R;
  quote_rate : R
}.

(** [np.arange(1, steps + 1, dtype=float) / payment_frequency]. *)
Definition grid_tenors (steps payment_frequency : Z) : list R :=
  map (fun i => IZR (Z.of_nat i) / IZR payment_frequency)
      (seq 1 (Z.to_nat steps)).

(** [np.diff(np.concatenate(([prev], l)))]. *)
Fixpoint np_diff_from (prev : R) (l : list R) : list R :=
  match l with
  | [] => []
  | x :: l' => (x - prev) :: np_diff_from x l'
  end.

(** The loop of [from_par_swap_dataframe] from iteration [idx] on:
    [todo] holds the (tenor, accrual) pairs still to visit and [dfs] the
    entries [discount_factors[:idx]] written so far.  A denominator
    [1 + par_rate * accrual] of zero gives [inf] in numpy and every
    later entry [nan]; the properties that give a value to an entry
    assume that no denominator up to it is zero. *)
Fixpoint bootstrap_loop (par_tenors par_rates accruals : list R)
    (todo : list (R * R)) (idx : nat) (dfs : list R) : list R :=
  match todo with
  | [] => dfs
  | (t, accrual) :: todo' =>
      let par_rate := np_interp t par_tenors par_rates in
      let df :=
        if Nat.eqb idx 0 then 1 / (1 + par_rate * accrual)
        else
          let pv_previous_coupons :=
            par_rate * np_sum (np_mul (firstn idx accruals) (firstn idx dfs)) in
          let numerator := 1 - pv_previous_coupons in
          let denominator := 1 + par_rate * accrual in
          numerator / denominator in
      bootstrap_loop par_tenors par_rates accruals todo' (S idx) (dfs ++ [df])
  end.

(** [-np.log(dfs) / tenors], element-wise. *)
Fixpoint implied_rates (dfs ts : list R) : list R :=
  match dfs, ts with
  | d :: dfs', t :: ts' => - ln d / t :: implied_rates dfs' ts'
  | _, _ => []
  end.

(** [[CurvePoint(t, r) for t, r in zip(tenors, rates)]]. *)
Fixpoint zip_points (ts rs : list R) : list CurvePoint :=
  match ts, rs with
  | t :: ts', r :: rs' => mkCurvePoint t r :: zip_points ts' rs'
  | _, _ => []
  end.

Definition from_par_swap_dataframe (df : list Quote) (nm : label)
    (payment_frequency : Z) : result ZeroCurve :=
  if (payment_frequency <=? 0)%Z
  then Err (ValueError "Payment frequency must be positive")
  else
    let sorted_df := sorted_by tenor_years df in
    let par_tenors := map tenor_years sorted_df in
    let par_rates := map quote_rate sorted_df in
    match par_tenors with
    | [] => Err IndexError
    | _ :: _ =>
        let max_tenor := last par_tenors 0 in
        let steps := round_half_even (max_tenor * IZR payment_frequency) in
        if (steps <=? 0)%Z
        then Err (ValueError "Insufficient tenor coverage for bootstrapping")
        else
          let ts := grid_tenors steps payment_frequency in
          let accruals := np_diff_from 0 ts in
          let discount_factors :=
            bootstrap_loop par_tenors par_rates accruals
                           (combine ts accruals) 0 [] in
          let zero_rates := implied_rates discount_factors ts in
          let points := zip_points ts zero_rates in
          ZeroCurve_init points nm (Some discount_factors)
    end.

(** ** [pricing_engine.py]: curve transforms *)

(** [a * np.exp(-x * tenors)], element-wise. *)
Fixpoint decay (x : R) (a ts : list R) : list R :=
  match a, ts with
  | d :: a', t :: ts' => d * exp (- x * t) :: decay x a' ts'
  | _, _ => []
  end.

Definition bump_curve (curve : ZeroCurve) (bump_bp : R) : result ZeroCurve :=
  let bump := bump_bp / 10000 in
  let ts := tenors curve in
  let base_dfs := map (discount_factor curve) ts in
  let bumped_dfs := decay bump base_dfs ts in
  let bumped_rates := implied_rates bumped_dfs ts in
  let points := zip_points ts bumped_rates in
  ZeroCurve_init points (BumpedName (name curve) bump_bp) (Some bumped_dfs).

(** A Python [dict] with float keys, as the list of its items in
    insertion order (keys pairwise different). *)
Definition dict : Type := list (R * R).

Fixpoint dict_mem (k : R) (d : dict) : bool :=
  match d with
  | [] => false
  | (k', _) :: d' => if Req_dec_T k k' then true else dict_mem k d'
  end.

Fixpoint dict_get (d : dict) (k : R) : result R :=
  match d with
  | [] => Err KeyError
  | (k', v) :: d' => if Req_dec_T k k' then Ok v else dict_get d' k
  end.

Fixpoint dict_set (d : dict) (k v : R) : dict :=
  match d with
  | [] => [(k, v)]
  | (k', v') :: d' =>
      if Req_dec_T k k' then (k', v) :: d' else (k', v') :: dict_set d' k v
  end.

Definition dict_keys (d : dict) : list R := map fst d.

(** The inner [for j in range(len(sorted_tenors) - 1)] loop of
    [apply_non_parallel_shift], over the consecutive pairs of
    [sorted_tenors]; [None] when no pair brackets the tenor, in which
    case the entry of [shifts] keeps its initial zero. *)
Fixpoint bracket_shift (tenor_shifts : dict) (t : R) (sorted_tenors : list R)
    : result (option R) :=
  match sorted_tenors with
  | t1 :: ((t2 :: _) as rest) =>
      if Rle_dec t1 t then
        if Rle_dec t t2 then
          v1 <- dict_get tenor_shifts t1 ;;
          v2 <- dict_get tenor_shifts t2 ;;
          let shift1 := v1 / 10000 in
          let shift2 := v2 / 10000 in
          let alpha := if Req_dec_T t2 t1 then 0 else (t - t1) / (t2 - t1) in
          Ok (Some (shift1 + alpha * (shift2 - shift1)))
        else bracket_shift tenor_shifts t rest
      else bracket_shift tenor_shifts t rest
  | _ => Ok None
  end.

(** One iteration of the outer loop: the value written to [shifts[i]]. *)
Definition node_shift (tenor_shifts : dict) (t : R) : result R :=
  if dict_mem t tenor_shifts then
    v <- dict_get tenor_shifts t ;; Ok (v / 10000)
  else
    let sorted_tenors := sorted_by (fun k => k) (dict_keys tenor_shifts) in
    match sorted_tenors with
    | [] => Err IndexError
    | first :: _ =>
        if Rlt_dec t first then
          v <- dict_get tenor_shifts first ;; Ok (v / 10000)
        else if Rlt_dec (last sorted_tenors 0) t then
          v <- dict_get tenor_shifts (last sorted_tenors 0) ;; Ok (v / 10000)
        else
          o <- bracket_shift tenor_shifts t sorted_tenors ;;
          Ok (match o with Some s => s | None => 0 end)
    end.

(** The outer loop: one shift per node, stopping at the first failure. *)
Fixpoint node_shifts (tenor_shifts : dict) (ts : list R) : result (list R) :=
  match ts with
  | [] => Ok []
  | t :: ts' =>
      s <- node_shift tenor_shifts t ;;
      rest <- node_shifts tenor_shifts ts' ;;
      Ok (s :: rest)
  end.

(** [a + b], element-wise. *)
Fixpoint np_add (a b : list R) : list R :=
  match a, b with
  | x :: a', y :: b' => x + y :: np_add a' b'
  | _, _ => []
  end.

(** [np.exp(-rates * tenors)], element-wise. *)
Fixpoint dfs_of_rates (rs ts : list R) : list R :=
  match rs, ts with
  | r :: rs', t :: ts' => exp (- r * t) :: dfs_of_rates rs' ts'
  | _, _ => []
  end.

Definition apply_non_parallel_shift (curve : ZeroCurve) (tenor_shifts : dict)
    : result ZeroCurve :=
  let ts := tenors curve in
  let base_rates := zero_rates curve in
  shifts <- node_shifts tenor_shifts ts ;;
  let bumped_rates := np_add base_rates shifts in
  let bumped_dfs := dfs_of_rates bumped_rates ts in
  let points := zip_points ts bumped_rates in
  ZeroCurve_init points (NonParallelName (name curve)) (Some bumped_dfs).

(** The default of [width] in [apply_key_rate_shift]. *)
Definition default_width (key_tenor : R) : R :=
  if Rlt_dec key_tenor 1 then 1
  else if Rle_dec key_tenor 5 then 2
  else 3.

(** The value written to [shifts[i]] by the loop of
    [apply_key_rate_shift]. *)
Definition tent_shift (shift_decimal key_tenor width t : R) : R :=
  let distance := Rabs (t - key_tenor) in
  if Rle_dec distance width then
    let shift_factor := 1 - distance / width in
    shift_decimal * shift_factor
  else 0.

Definition apply_key_rate_shift (curve : ZeroCurve) (key_tenor shift_bp : R)
    (width : option R) : result ZeroCurve :=
  let ts := tenors curve in
  let base_rates := zero_rates curve in
  let shift_decimal := shift_bp / 10000 in
  let width := match width with
               | None => default_width key_tenor
               | Some w => w
               end in
  let shifts := map (tent_shift shift_decimal key_tenor width) ts in
  let bumped_rates := np_add base_rates shifts in
  let bumped_dfs := dfs_of_rates bumped_rates ts in
  let points := zip_points ts bumped_rates in
  ZeroCurve_init points (KeyRateName (name curve) key_tenor) (Some bumped_dfs).

(** ** Calendar dates ([datetime.date], [pandas.DateOffset]) *)

Record date : Type := mkDate {
  year : Z;
  month : Z;
  day : Z
}.

Local Open Scope Z_scope.

Definition is_leap (y : Z) : bool :=
  (y mod 4 =? 0) && (negb (y mod 100 =? 0) || (y mod 400 =? 0)).

Definition days_in_month (y m : Z) : Z :=
  if m =? 2 then (if is_leap y then 29 else 28)
  else if (m =? 4) || (m =? 6) || (m =? 9) || (m =? 11) then 30
  else 31.

(** Days of the year before the first of month [m]. *)
Definition days_before_month (y m : Z) : Z :=
  let leap := if is_leap y then 1 else 0 in
  if m <=? 1 then 0
  else if m =? 2 then 31
  else if m =? 3 then 59 + leap
  else if m =? 4 then 90 + leap
  else if m =? 5 then 120 + leap
  else if m =? 6 then 151 + leap
  else if m =? 7 then 181 + leap
  else if m =? 8 then 212 + leap
  else if m =? 9 then 243 + leap
  else if m =? 10 then 273 + leap
  else if m =? 11 then 304 + leap
  else 334 + leap.

Definition days_before_year (y : Z) : Z :=
  let p := y - 1 in
  p * 365 + p / 4 - p / 100 + p / 400.

(** [date.toordinal()]: 0001-01-01 is day 1. *)
Definition toordinal (d : date) : Z :=
  days_before_year (year d) + days_before_month (year d) (month d) + day d.

(** [(b - a).days]. *)
Definition days_between (a b : date) : Z := toordinal b - toordinal a.

(** [d + pd.DateOffset(months=k)]: the month moves by [k] and the day is
    kept, capped at the length of the month reached. *)
Definition add_months (d : date) (k : Z) : date :=
  let idx := year d * 12 + (month d - 1) + k in
  let y := idx / 12 in
  let m := idx mod 12 + 1 in
  mkDate y m (Z.min (day d) (days_in_month y m)).

Local Close Scope Z_scope.

(** ** [daycount.py] *)

Definition actual_365 (start end_ : date) : R :=
  IZR (days_between start end_) / 365.

Definition thirty_360 (start end_ : date) : R :=
  let d1 := Z.min (day start) 30 in
  let d2 := Z.min (day end_) (if (day start =? 30)%Z then 30%Z else day end_) in
  IZR ((year end_ - year start) * 360 + (month end_ - month start) * 30
       + (d2 - d1)) / 360.

(** [str.upper()] on ASCII text. *)
Definition upper_ascii (c : ascii) : ascii :=
  let n := nat_of_ascii c in
  if (Nat.leb 97 n && Nat.leb n 122)%bool then ascii_of_nat (n - 32) else c.

Fixpoint upper (s : string) : string :=
  match s with
  | EmptyString => EmptyString
  | String c s' => String (upper_ascii c) (upper s')
  end.

(** [DAYCOUNT_FUNCTIONS[key]]: [None] is the [KeyError]. *)
Definition DAYCOUNT_FUNCTIONS (key : string) : option (date -> date -> R) :=
  if String.eqb key "ACT/365" then Some actual_365
  else if String.eqb key "30/360" then Some thirty_360
  else None.

Definition year_fraction (start end_ : date) (convention : string) : result R :=
  match DAYCOUNT_FUNCTIONS (upper convention) with
  | Some func => Ok (func start end_)
  | None =>
      Err (ValueError ("Unsupported day count convention: " ++ convention))
  end.

(** ** [schedule.py] *)

Record CashflowPeriod : Type := mkCashflowPeriod {
  start : date;
  end_ : date;
  accrual_factor : R
}.

(** The body of [for _ in range(total_periods)], [n] iterations from
    [period_start] on. *)
Fixpoint schedule_loop (n : nat) (period_start : date) (step_months : Z)
    (day_count : string) : result (list CashflowPeriod) :=
  match n with
  | O => Ok []
  | S n' =>
      let period_end := add_months period_start step_months in
      accrual <- year_fraction period_start period_end day_count ;;
      rest <- schedule_loop n' period_end step_months day_count ;;
      Ok (mkCashflowPeriod period_start period_end accrual :: rest)
  end.

Definition generate_schedule (start : date) (tenor_years : R)
    (payments_per_year : Z) (day_count : string)
    : result (list CashflowPeriod) :=
  if (payments_per_year <=? 0)%Z
  then Err (ValueError "Payments per year must be positive")
  else
    let total_periods := round_half_even (tenor_years * IZR payments_per_year) in
    if (total_periods =? 0)%Z
    then Err (ValueError "Tenor coupled with frequency yields zero periods")
    else
      let step_months := round_half_even (12 / IZR payments_per_year) in
      schedule_loop (Z.to_nat total_periods) start step_months day_count.

(** ** [swap_pricing.py] *)

Record SwapDefinition : Type := mkSwapDefinition {
  valuation_date : date;
  effective_date : date;
  maturity_years : R;
  notional : R;
  fixed_rate : R;
  payer : string;
  fixed_leg_frequency : Z;
  floating_leg_frequency : Z;
  fixed_leg_daycount : string;
  floating_leg_daycount : string;
  spread : R
}.

(** One row of the cashflow table.  The columns carry the prefix [cf_];
    [cf_forward_rate] is [None] where the table holds [nan]; the fixed
    rows also carry a [projection_rate] equal to their coupon rate. *)
Record CashflowRow : Type := mkCashflowRow {
  cf_period_start : date;
  cf_period_end : date;
  cf_accrual_factor : R;
  cf_coupon_rate : R;
  cf_forward_rate : option R;
  cf_cashflow : R;
  cf_discount_factor : R;
  cf_present_value : R;
  cf_time_to_payment : R;
  cf_leg : string;
  cf_projection_rate : R
}.

Record SwapPricer : Type := mkSwapPricer {
  discount_curve : ZeroCurve;
  forward_curve : ZeroCurve
}.

(** The body of the loop of [_build_fixed_cashflows]. *)
Definition fixed_row (self : SwapPricer) (swap : SwapDefinition)
    (period : CashflowPeriod) : result CashflowRow :=
  t_pay <- year_fraction (valuation_date swap) (end_ period) "ACT/365" ;;
  let discount := discount_factor (discount_curve self) t_pay in
  let cashflow := notional swap * fixed_rate swap * accrual_factor period in
  let direction := if String.eqb (payer swap) "fixed" then -1 else 1 in
  Ok (mkCashflowRow (start period) (end_ period) (accrual_factor period)
        (fixed_rate swap) None (direction * cashflow) discount
        (direction * cashflow * discount) t_pay "fixed" (fixed_rate swap)).

(** The body of the loop of [_build_floating_cashflows]. *)
Definition floating_row (self : SwapPricer) (swap : SwapDefinition)
    (period : CashflowPeriod) : result CashflowRow :=
  t_start <- year_fraction (valuation_date swap) (start period) "ACT/365" ;;
  t_end <- year_fraction (valuation_date swap) (end_ period) "ACT/365" ;;
  forward <- forward_rate (forward_curve self) t_start t_end ;;
  let effective_rate := forward + spread swap in
  let cashflow := notional swap * effective_rate * accrual_factor period in
  let discount := discount_factor (discount_curve self) t_end in
  let direction := if String.eqb (payer swap) "fixed" then 1 else -1 in
  Ok (mkCashflowRow (start period) (end_ period) (accrual_factor period)
        effective_rate (Some forward) (direction * cashflow) discount
        (direction * cashflow * discount) t_end "floating" forward).

(** [for period in schedule: rows.append(...)]. *)
Fixpoint build_rows (row : CashflowPeriod -> result CashflowRow)
    (schedule : list CashflowPeriod) : result (list CashflowRow) :=
  match schedule with
  | [] => Ok []
  | period :: schedule' =>
      r <- row period ;;
      rest <- build_rows row schedule' ;;
      Ok (r :: rest)
  end.

Definition _build_fixed_cashflows (self : SwapPricer) (swap : SwapDefinition)
    : result (list CashflowRow) :=
  schedule <- generate_schedule (effective_date swap) (maturity_years swap)
                (fixed_leg_frequency swap) (fixed_leg_daycount swap) ;;
  build_rows (fixed_row self swap) schedule.

Definition _build_floating_cashflows (self : SwapPricer)
    (swap : SwapDefinition) : result (list CashflowRow) :=
  schedule <- generate_schedule (effective_date swap) (maturity_years swap)
                (floating_leg_frequency swap) (floating_leg_daycount swap) ;;
  build_rows (floating_row self swap) schedule.

Definition build_cashflows (self : SwapPricer) (swap : SwapDefinition)
    : result (list CashflowRow) :=
  fixed_leg <- _build_fixed_cashflows self swap ;;
  float_leg <- _build_floating_cashflows self swap ;;
  Ok (fixed_leg ++ float_leg).

(** [cashflows.loc[cashflows["leg"] == leg, "present_value"].sum()]. *)
Definition leg_pv (leg : string) (cashflows : list CashflowRow) : R :=
  np_sum (map cf_present_value
              (filter (fun r => String.eqb (cf_leg r) leg) cashflows)).

Record PricingResult : Type := mkPricingResult {
  pr_cashflows : list CashflowRow;
  fixed_leg_pv : R;
  floating_leg_pv : R;
  npv : R
}.

(** [price]: a table without rows has no columns either, and selecting
    its [leg] column is a [KeyError].  The table is returned sorted by
    [period_end]; rows with the same end keep their order here. *)
Definition price (self : SwapPricer) (swap : SwapDefinition)
    : result PricingResult :=
  cashflows <- build_cashflows self swap ;;
  match cashflows with
  | [] => Err KeyError
  | _ :: _ =>
      let fixed_pv := leg_pv "fixed" cashflows in
      let float_pv := leg_pv "floating" cashflows in
      let npv := fixed_pv + float_pv in
      Ok (mkPricingResult
            (sorted_by (fun r => IZR (toordinal (cf_period_end r))) cashflows)
            fixed_pv float_pv npv)
  end.

(** ** [pricing_engine.py]: risk measures *)

Definition BUMP_SIZE_BP : R := 1.

Record RiskResult : Type := mkRiskResult {
  rr_pricing : PricingResult;
  rr_npv : R;
  pv01 : R;
  dv01 : R;
  rr_cashflows : list CashflowRow
}.

Definition price_with_risk (swap : SwapDefinition)
    (discount_curve forward_curve : ZeroCurve) (bump_bp : R)
    : result RiskResult :=
  let pricer := mkSwapPricer discount_curve forward_curve in
  pricing <- price pricer swap ;;
  let npv0 := npv pricing in
  bumped_discount <- bump_curve discount_curve bump_bp ;;
  bumped_forward <- bump_curve forward_curve bump_bp ;;
  bumped_pricing <- price (mkSwapPricer bumped_discount bumped_forward) swap ;;
  let pv01 := npv bumped_pricing - npv0 in
  let dv01 := pv01 in
  Ok (mkRiskResult pricing npv0 pv01 dv01 (pr_cashflows pricing)).

(** The loop of [calculate_key_rate_dv01], with the dictionary built so
    far. *)
Fixpoint key_rate_loop (swap : SwapDefinition)
    (discount_curve forward_curve : ZeroCurve) (base_npv bump_bp : R)
    (key_tenors : list R) (key_rate_dv01 : dict) : result dict :=
  match key_tenors with
  | [] => Ok key_rate_dv01
  | key_tenor :: key_tenors' =>
      shifted_discount <-
        apply_key_rate_shift discount_curve key_tenor bump_bp None ;;
      shifted_forward <-
        apply_key_rate_shift forward_curve key_tenor bump_bp None ;;
      let shifted_pricer := mkSwapPricer shifted_discount shifted_forward in
      shifted_pricing <- price shifted_pricer swap ;;
      let shifted_npv := npv shifted_pricing in
      key_rate_loop swap discount_curve forward_curve base_npv bump_bp
        key_tenors' (dict_set key_rate_dv01 key_tenor (shifted_npv - base_npv))
  end.

Definition calculate_key_rate_dv01 (swap : SwapDefinition)
    (discount_curve forward_curve : ZeroCurve) (key_tenors : list R)
    (bump_bp : R) : result dict :=
  let base_pricer := mkSwapPricer discount_curve forward_curve in
  base_pricing <- price base_pricer swap ;;
  let base_npv := npv base_pricing in
  key_rate_loop swap discount_curve forward_curve base_npv bump_bp
    key_tenors [].

(** ** The rest of [curves.py] and [pricing_engine.py] *)

(** [ZeroCurve.from_dataframe]: the points are the rows, and the cached
    discount factors are [exp(-rate * tenor_years)] of the rows in the
    order of the frame. *)
Definition from_dataframe (df : list Quote) (nm : label) : result ZeroCurve :=
  let points :=
    map (fun row => mkCurvePoint (tenor_years row) (quote_rate row)) df in
  let discount_factors :=
    map (fun row => exp (- quote_rate row * tenor_years row)) df in
  ZeroCurve_init points nm (Some discount_factors).

(** One row of the frame of [as_dataframe]. *)
Record CurveRow : Type := mkCurveRow {
  row_tenor_years : R;
  row_zero_rate : R;
  row_discount_factor : R
}.

Fixpoint curve_rows (ts rs ds : list R) : list CurveRow :=
  match ts, rs, ds with
  | t :: ts', r :: rs', d :: ds' => mkCurveRow t r d :: curve_rows ts' rs' ds'
  | _, _, _ => []
  end.

Definition as_dataframe (c : ZeroCurve) : list CurveRow :=
  let discounts := map (discount_factor c) (_tenors c) in
  curve_rows (_tenors c) (_rates c) discounts.

Definition stress_curves (discount_curve forward_curve : ZeroCurve)
    (shift_bp : R) : result (ZeroCurve * ZeroCurve) :=
  stressed_discount <- bump_curve discount_curve shift_bp ;;
  stressed_forward <- bump_curve forward_curve shift_bp ;;
  Ok (stressed_discount, stressed_forward).

(** The dictionary returned by [price_with_non_parallel_shift]. *)
Record ShiftResult : Type := mkShiftResult {
  sr_npv : R;
  sr_npv_change : R;
  sr_pv01 : R;
  sr_dv01 : R;
  sr_cashflows : list CashflowRow
}.

Definition price_with_non_parallel_shift (swap : SwapDefinition)
    (discount_curve forward_curve : ZeroCurve)
    (discount_shifts forward_shifts : dict) : result ShiftResult :=
  let base_pricer := mkSwapPricer discount_curve forward_curve in
  base_pricing <- price base_pricer swap ;;
  let base_npv := npv base_pricing in
  shifted_discount <- apply_non_parallel_shift discount_curve discount_shifts ;;
  shifted_forward <- apply_non_parallel_shift forward_curve forward_shifts ;;
  let shifted_pricer := mkSwapPricer shifted_discount shifted_forward in
  shifted_pricing <- price shifted_pricer swap ;;
  let shifted_npv := npv shifted_pricing in
  bumped_discount <- bump_curve shifted_discount 1 ;;
  bumped_forward <- bump_curve shifted_forward 1 ;;
  let bumped_pricer := mkSwapPricer bumped_discount bumped_forward in
  bumped_pricing <- price bumped_pricer swap ;;
  let shifted_pv01 := npv bumped_pricing - shifted_npv in
  let shifted_dv01 := shifted_pv01 in
  Ok (mkShiftResult shifted_npv (shifted_npv - base_npv) shifted_pv01
        shifted_dv01 (pr_cashflows shifted_pricing)).

(** Tenors in strictly increasing order. *)
Definition strictly_ascending (l : list R) : Prop :=
  StronglySorted Rlt l.

(** The items of a dictionary sorted by key: the sample points of the
    shift curve. *)
Definition sorted_items (d : dict) : list (R * R) := sorted_by fst d.

(** A curve whose cache and rates agree: [rate = -ln(DF) / tenor] at
    every node, with positive cached discount factors, as the bootstrap
    and [bump_curve] build them. *)
Definition cache_consistent (c : ZeroCurve) (dfs : list R) : Prop :=
  _discount_factors c = Some dfs /\
  Forall (fun d => 0 < d) dfs /\
  _rates c = implied_rates dfs (_tenors c).

(** The sign of the fixed leg for the holder: [direction] in
    [_build_fixed_cashflows]; the floating leg carries the opposite
    one. *)
Definition payer_sign (swap : SwapDefinition) : R :=
  if String.eqb (payer swap) "fixed" then -1 else 1.

(** Two swaps that differ at most in the notional and the payer. *)
Definition same_terms (s s' : SwapDefinition) : Prop :=
  valuation_date s' = valuation_date s /\
  effective_date s' = effective_date s /\
  maturity_years s' = maturity_years s /\
  fixed_rate s' = fixed_rate s /\
  fixed_leg_frequency s' = fixed_leg_frequency s /\
  floating_leg_frequency s' = floating_leg_frequency s /\
  fixed_leg_daycount s' = fixed_leg_daycount s /\
  floating_leg_daycount s' = floating_leg_daycount s /\
  spread s' = spread s.

(** A row with its cashflow and present value multiplied by [k]. *)
Definition scale_row (k : R) (r : CashflowRow) : CashflowRow :=
  mkCashflowRow (cf_period_start r) (cf_period_end r) (cf_accrual_factor r)
    (cf_coupon_rate r) (cf_forward_rate r) (k * cf_cashflow r)
    (cf_discount_factor r) (k * cf_present_value r) (cf_time_to_payment r)
    (cf_leg r) (cf_projection_rate r).

(** A cache, if the curve has one, of positive discount factors only:
    the curves on which [np.log] of the cache is a number. *)
Definition positive_cache (c : ZeroCurve) : Prop :=
  forall dfs, _discount_factors c = Some dfs -> Forall (fun d => 0 < d) dfs.

(** ** Predicates used by the statements *)

(** A list in ascending order of [key] (ties allowed). *)
Definition ascending {A : Type} (key : A -> R) (l : list A) : Prop :=
  StronglySorted (fun a b => key a <= key b) l.

(** A list of reals in descending order (ties allowed). *)
Definition descending (l : list R) : Prop :=
  StronglySorted (fun a b => b <= a) l.

(** The invariant of a [ZeroCurve] object: at least one node, one rate
    per tenor, tenors positive and in ascending order, and a discount
    factor per tenor when the curve caches them. *)
Definition wf_curve (c : ZeroCurve) : Prop :=
  _tenors c <> [] /\
  List.length (_rates c) = List.length (_tenors c) /\
  ascending (fun t => t) (_tenors c) /\
  Forall (fun t => 0 < t) (_tenors c) /\
  (forall dfs, _discount_factors c = Some dfs ->
               List.length dfs = List.length (_tenors c)).

(** The messages of the errors the statements name. *)
Definition tenors_positive_msg : string := "Tenors must be positive".
Definition dfs_align_msg : string :=
  "Discount factors must align with tenor points".
Definition forward_range_msg : string :=
  "End tenor must be greater than start tenor".

Definition payments_msg : string := "Payments per year must be positive".
Definition zero_periods_msg : string :=
  "Tenor coupled with frequency yields zero periods".

(** [a < b] on dates, as [datetime.date] compares them. *)
Definition date_ltb (a b : date) : bool :=
  ((year a <? year b) ||
   ((year a =? year b) &&
    ((month a <? month b) ||
     ((month a =? month b) && (day a <? day b)))))%Z.

(** Periods that follow one another from [from] on: the first starts at
    [from] and each one starts where the one before it ends. *)
Fixpoint contiguous (from : date) (ps : list CashflowPeriod) : Prop :=
  match ps with
  | [] => True
  | p :: ps' => start p = from /\ contiguous (end_ p) ps'
  end.

(** The end of the last period ([from] for an empty schedule). *)
Definition schedule_end (from : date) (ps : list CashflowPeriod) : date :=
  last (map end_ ps) from.

(** End dates in strictly increasing order. *)
Fixpoint increasing_dates (ds : list date) : bool :=
  match ds with
  | a :: ((b :: _) as rest) => date_ltb a b && increasing_dates rest
  | _ => true
  end.

(** [n] times [step] months after [d], one step at a time. *)
Fixpoint iter_add_months (n : nat) (d : date) (step : Z) : date :=
  match n with
  | O => d
  | S n' => iter_add_months n' (add_months d step) step
  end.

(** The start and end dates of the periods of a schedule of [n] periods
    from [s] on. *)
Fixpoint period_dates (n : nat) (s : date) (step : Z) : list (date * date) :=
  match n with
  | O => []
  | S n' =>
      let e := add_months s step in
      (s, e) :: period_dates n' e step
  end.

(** The period over a pair of dates under a day-count function. *)
Definition period_of (func : date -> date -> R) (se : date * date)
    : CashflowPeriod :=
  mkCashflowPeriod (fst se) (snd se) (func (fst se) (snd se)).

(** The number of days covered by a list of periods. *)
Definition total_days (ds : list (date * date)) : Z :=
  fold_right Z.add 0%Z (map (fun se => days_between (fst se) (snd se)) ds).

(** A month between 1 and 12 and a day that exists in it. *)
Definition valid_month_day (d : date) : bool :=
  ((1 <=? month d) && (month d <=? 12) &&
   (1 <=? day d) && (day d <=? days_in_month (year d) (month d)))%Z.

(** The months since year 0 of the month of [d]. *)
Definition month_index (d : date) : Z := (year d * 12 + (month d - 1))%Z.

(** The sign of a leg for the holder of the swap, in the words of the
    specification: the holder pays the fixed leg when [payer] is
    ["fixed"] and the floating leg otherwise; a paid leg has sign -1, a
    received leg +1. *)
Definition pays_leg (swap : SwapDefinition) (leg : string) : bool :=
  if String.eqb leg "fixed" then String.eqb (payer swap) "fixed"
  else negb (String.eqb (payer swap) "fixed").

Definition leg_sign (swap : SwapDefinition) (leg : string) : R :=
  if pays_leg swap leg then -1 else 1.

(** [c'] is [c] bumped in parallel by [bump_bp]: the same tenors, at
    each node the discount factor of [c] at that tenor times
    [exp(-bump_decimal * t)], and the rate implied by the new discount
    factor. *)
Definition parallel_bumped (c c' : ZeroCurve) (bump_bp : R) : Prop :=
  tenors c' = tenors c /\
  name c' = BumpedName (name c) bump_bp /\
  exists dfs',
    _discount_factors c' = Some dfs' /\
    List.length dfs' = List.length (tenors c) /\
    List.length (zero_rates c') = List.length (tenors c) /\
    forall k, (k < List.length (tenors c))%nat ->
      let t := nth k (tenors c) 0 in
      nth k dfs' 0 = discount_factor c t * exp (- (bump_bp / 10000) * t) /\
      nth k (zero_rates c') 0 = - ln (nth k dfs' 0) / t.

(** The tent of the specification, in basis points over 10000:
    [shift_bp * (1 - |t - key_tenor| / width) / 10000] within [width]
    of the key tenor and 0 outside. *)
Definition tent (shift_bp key_tenor width t : R) : R :=
  if Rle_dec (Rabs (t - key_tenor)) width
  then shift_bp * (1 - Rabs (t - key_tenor) / width) / 10000
  else 0.

(** [c'] is [c] with the tent of [shift_bp] around [key_tenor] added to
    the zero rate of every node, and the discount factors recomputed
    from the new rates. *)
Definition key_shifted (c c' : ZeroCurve) (key_tenor shift_bp width : R)
    : Prop :=
  tenors c' = tenors c /\
  name c' = KeyRateName (name c) key_tenor /\
  List.length (zero_rates c') = List.length (tenors c) /\
  exists dfs',
    _discount_factors c' = Some dfs' /\
    List.length dfs' = List.length (tenors c) /\
    forall k, (k < List.length (tenors c))%nat ->
      let t := nth k (tenors c) 0 in
      nth k (zero_rates c') 0
      = nth k (zero_rates c) 0 + tent shift_bp key_tenor width t /\
      nth k dfs' 0 = exp (- nth k (zero_rates c') 0 * t).

(** One pass of the loop of [calculate_key_rate_dv01]: the value
    recorded for [key_tenor]. *)
Definition key_rate_value (swap : SwapDefinition)
    (discount_curve forward_curve : ZeroCurve) (base_npv bump_bp : R)
    (key_tenor : R) : result R :=
  shifted_discount <-
    apply_key_rate_shift discount_curve key_tenor bump_bp None ;;
  shifted_forward <-
    apply_key_rate_shift forward_curve key_tenor bump_bp None ;;
  shifted_pricing <-
    price (mkSwapPricer shifted_discount shifted_forward) swap ;;
  Ok (npv shifted_pricing - base_npv).

Definition frequency_msg : string := "Payment frequency must be positive".
Definition coverage_msg : string :=
  "Insufficient tenor coverage for bootstrapping".

(** The grid of the bootstrap in the words of the specification: the
    node tenor [t_i = i / f] and the accrual [t_i - t_(i-1)] of node [i]
    (nodes are counted from 1, and [t_0 = 0]). *)
Definition node_tenor (f : Z) (i : nat) : R := IZR (Z.of_nat i) / IZR f.

Definition node_accrual (f : Z) (i : nat) : R :=
  node_tenor f i - node_tenor f (i - 1).

(** The sum of [g j] for [j] from 1 to [n]. *)
Definition sum_to (n : nat) (g : nat -> R) : R := np_sum (map g (seq 1 n)).

(** ** Sample data for the concrete instances *)

(** A flat curve at 5% with nodes at one and two years, without
    cached discount factors. *)
Definition flat_points : list CurvePoint :=
  [mkCurvePoint 1 (5 / 100); mkCurvePoint 2 (5 / 100)].

Definition flat_curve : ZeroCurve :=
  mkZeroCurve [1; 2] [5 / 100; 5 / 100] (Named "flat") None.

(** The same curve with the discount factors [exp(-r t)] cached, as
    [from_dataframe] builds it. *)
Definition flat_cached_curve : ZeroCurve :=
  mkZeroCurve [1; 2] [5 / 100; 5 / 100] (Named "flat")
    (Some [exp (- (5 / 100) * 1); exp (- (5 / 100) * 2)]).

(** A curve that falls from 10% at one year to 1% at two years. *)
Definition steep_points : list CurvePoint :=
  [mkCurvePoint 1 (10 / 100); mkCurvePoint 2 (1 / 100)].

Definition steep_curve : ZeroCurve :=
  mkZeroCurve [1; 2] [10 / 100; 1 / 100] (Named "steep") None.

(** A curve with one node whose cached discount factor is zero. *)
Definition zero_cache_curve : ZeroCurve :=
  mkZeroCurve [1] [5 / 100] (Named "zero") (Some [0]).

(** Schedule starts: the effective date of the end-to-end scenario and
    a first of January. *)
Definition sample_effective : date := mkDate 2025 11 17.
Definition jan_first : date := mkDate 2025 1 1.

(** A one-year swap with annual payments on both legs, both under
    ACT/365, valued and effective on 2025-01-01, on a notional of 100,
    in which the holder pays the fixed rate [k]. *)
Definition annual_swap (k : R) : SwapDefinition :=
  mkSwapDefinition jan_first jan_first 1 100 k "fixed" 1 1
                   "ACT/365" "ACT/365" 0.

(** The swap of [annual_swap] seen from the receiver of the fixed
    rate. *)
Definition annual_receiver (k : R) : SwapDefinition :=
  mkSwapDefinition jan_first jan_first 1 100 k "float" 1 1
                   "ACT/365" "ACT/365" 0.

(** Its only period, 2025-01-01 to 2026-01-01. *)
Definition annual_period : CashflowPeriod :=
  period_of actual_365 (jan_first, mkDate 2026 1 1).

(** Two par quotes, at six months and at one year. *)
Definition sample_quotes : list Quote :=
  [mkQuote (1 / 2) (3 / 100); mkQuote 1 (4 / 100)].

(** A flat par quote of 5% at three months and at one year. *)
Definition flat_quotes : list Quote :=
  [mkQuote (1 / 4) (5 / 100); mkQuote 1 (5 / 100)].

(** * Properties *)

(** ** The error monad *)

Lemma bind_Ok {A B : Type} (c : result A) (k : A -> result B) (b : B) :
  bind c k = Ok b -> exists a, c = Ok a /\ k a = Ok b.
Proof.
  destruct c as [a|e]; simpl; intros H; [exists a; auto | discriminate].
Qed.

Lemma bind_Err {A B : Type} (c : result A) (k : A -> result B) (e : exn) :
  bind c k = Err e -> c = Err e \/ exists a, c = Ok a /\ k a = Err e.
Proof.
  destruct c as [a|e']; simpl; intros H.
  - right; exists a; auto.
  - left; congruence.
Qed.

(** ** Sorting *)

Section Sorting.
Context {A : Type} (key : A -> R).

Lemma insert_by_In (x y : A) (l : list A) :
  In y (insert_by key x l) <-> y = x \/ In y l.
Proof.
  induction l as [|z l IH]; simpl.
  - intuition.
  - destruct (Rlt_dec (key z) (key x)); simpl; rewrite ?IH; intuition.
Qed.

Lemma insert_by_length (x : A) (l : list A) :
  List.length (insert_by key x l) = S (List.length l).
Proof.
  induction l as [|z l IH]; simpl; auto.
  destruct (Rlt_dec (key z) (key x)); simpl; auto.
Qed.

Lemma insert_by_ascending (x : A) (l : list A) :
  ascending key l -> ascending key (insert_by key x l).
Proof.
  unfold ascending.
  induction l as [|z l IH]; simpl; intros H.
  - constructor; constructor.
  - inversion H as [|? ? Hs Hall]; subst.
    destruct (Rlt_dec (key z) (key x)) as [Hlt|Hge].
    + constructor; auto.
      rewrite Forall_forall in *. intros y Hy.
      apply insert_by_In in Hy. destruct Hy as [->|Hy]; [lra | auto].
    + constructor; auto.
      constructor; [lra|].
      rewrite Forall_forall in *. intros y Hy.
      specialize (Hall y Hy). lra.
Qed.

Lemma sorted_by_In (y : A) (l : list A) :
  In y (sorted_by key l) <-> In y l.
Proof.
  induction l as [|x l IH]; simpl; [tauto|].
  rewrite insert_by_In, IH. intuition.
Qed.

Lemma sorted_by_length (l : list A) :
  List.length (sorted_by key l) = List.length l.
Proof.
  induction l as [|x l IH]; simpl; auto.
  rewrite insert_by_length, IH; reflexivity.
Qed.

Lemma sorted_by_ascending (l : list A) : ascending key (sorted_by key l).
Proof.
  induction l as [|x l IH]; simpl.
  - constructor.
  - apply insert_by_ascending, IH.
Qed.

Lemma sorted_by_nil_iff (l : list A) : sorted_by key l = [] <-> l = [].
Proof.
  split; intros H.
  - apply (f_equal (@List.length A)) in H.
    rewrite sorted_by_length in H. destruct l; [auto|discriminate].
  - subst; reflexivity.
Qed.

(** A list that is already in strictly increasing or equal order is
    left as it is. *)
Lemma insert_by_head (x : A) (l : list A) :
  Forall (fun b => key x <= key b) l -> insert_by key x l = x :: l.
Proof.
  destruct l as [|z l]; simpl; auto.
  intros H. inversion H; subst.
  destruct (Rlt_dec (key z) (key x)); [lra | reflexivity].
Qed.

Lemma sorted_by_ascending_id (l : list A) :
  ascending key l -> sorted_by key l = l.
Proof.
  unfold ascending. induction 1 as [|x l Hs IH Hall]; simpl; auto.
  rewrite IH. apply insert_by_head, Hall.
Qed.

(** The first element of the sorted list carries the smallest key. *)
Lemma sorted_by_head_min (l : list A) (p : A) (rest : list A) :
  sorted_by key l = p :: rest ->
  In p l /\ forall q, In q l -> key p <= key q.
Proof.
  intros H. split.
  - apply sorted_by_In. rewrite H. left; reflexivity.
  - intros q Hq. apply sorted_by_In in Hq. rewrite H in Hq.
    pose proof (sorted_by_ascending l) as Hs. rewrite H in Hs.
    inversion Hs as [|? ? _ Hall]; subst.
    destruct Hq as [->|Hq]; [lra|].
    rewrite Forall_forall in Hall. auto.
Qed.
End Sorting.

Lemma ascending_map {A : Type} (key : A -> R) (l : list A) :
  ascending key l -> ascending (fun t => t) (map key l).
Proof.
  unfold ascending. induction 1 as [|x l Hs IH Hall]; simpl; constructor; auto.
  rewrite Forall_forall in *. intros y Hy.
  apply in_map_iff in Hy. destruct Hy as [z [<- Hz]]. auto.
Qed.

(** ** [ZeroCurve.__init__] *)

Lemma ZeroCurve_init_empty (nm : label) (dfs : option (list R)) :
  ZeroCurve_init [] nm dfs = Err IndexError.
Proof. reflexivity. Qed.

Lemma ZeroCurve_init_nonpositive (pts : list CurvePoint) (nm : label)
    (dfs : option (list R)) :
  (exists p, In p pts /\ tenor p <= 0) ->
  ZeroCurve_init pts nm dfs = Err (ValueError tenors_positive_msg).
Proof.
  intros [p [Hin Hp]]. unfold ZeroCurve_init.
  destruct (sorted_by tenor pts) as [|p0 rest] eqn:E.
  - apply sorted_by_nil_iff in E. subst. contradiction.
  - destruct (sorted_by_head_min tenor pts p0 rest E) as [_ Hmin].
    specialize (Hmin p Hin).
    destruct (Rle_dec (tenor p0) 0); [reflexivity | lra].
Qed.

Lemma ZeroCurve_init_positive (pts : list CurvePoint) (nm : label)
    (dfs : option (list R)) :
  pts <> [] -> (forall p, In p pts -> 0 < tenor p) ->
  ZeroCurve_init pts nm dfs =
    match dfs with
    | Some l =>
        if Nat.eqb (List.length l) (List.length pts)
        then Ok (mkZeroCurve (map tenor (sorted_by tenor pts))
                             (map rate (sorted_by tenor pts)) nm (Some l))
        else Err (ValueError dfs_align_msg)
    | None => Ok (mkZeroCurve (map tenor (sorted_by tenor pts))
                              (map rate (sorted_by tenor pts)) nm None)
    end.
Proof.
  intros Hne Hpos. unfold ZeroCurve_init.
  destruct (sorted_by tenor pts) as [|p0 rest] eqn:E.
  - apply sorted_by_nil_iff in E. contradiction.
  - destruct (sorted_by_head_min tenor pts p0 rest E) as [Hin _].
    specialize (Hpos p0 Hin).
    destruct (Rle_dec (tenor p0) 0); [lra|].
    rewrite <- E. rewrite length_map, sorted_by_length. reflexivity.
Qed.

Lemma ZeroCurve_init_wf (pts : list CurvePoint) (nm : label)
    (dfs : option (list R)) (c : ZeroCurve) :
  ZeroCurve_init pts nm dfs = Ok c -> wf_curve c.
Proof.
  unfold ZeroCurve_init.
  destruct (sorted_by tenor pts) as [|p0 rest] eqn:E; [discriminate|].
  destruct (Rle_dec (tenor p0) 0) as [|Hpos]; [discriminate|].
  assert (Hwf : forall o,
    (forall l, o = Some l ->
       List.length l = List.length (map tenor (p0 :: rest))) ->
    wf_curve (mkZeroCurve (map tenor (p0 :: rest)) (map rate (p0 :: rest))
                          nm o)).
  { intros o Ho. unfold wf_curve; simpl.
    pose proof (sorted_by_ascending tenor pts) as Hs. rewrite E in Hs.
    repeat split.
    - discriminate.
    - rewrite !length_map; reflexivity.
    - apply (ascending_map tenor (p0 :: rest)), Hs.
    - constructor; [lra|].
      inversion Hs as [|? ? _ Hall]; subst.
      rewrite Forall_forall in *. intros t Ht.
      apply in_map_iff in Ht. destruct Ht as [q [<- Hq]].
      specialize (Hall q Hq). simpl in Hall. lra.
    - exact Ho. }
  destruct dfs as [l|].
  - destruct (Nat.eqb (List.length l) (List.length (map tenor (p0 :: rest))))
      eqn:El; [|discriminate].
    intros H; inversion H; subst. apply Hwf.
    intros l' Hl'. inversion Hl'; subst. apply Nat.eqb_eq; exact El.
  - intros H; inversion H; subst. apply Hwf. discriminate.
Qed.

(** C8 (as amended).  Construction of a [ZeroCurve] fails in exactly
    three cases, and only two of them raise the validation error: an
    empty point list fails with [IndexError] (the access to [pts[0]]),
    a non-positive smallest tenor with [ValueError], and a
    discount-factor array of another length than the points with
    [ValueError]; in every other case the curve is returned and it is
    well formed: the nodes sorted by tenor, the name and the discount
    factors as given. *)
Theorem ZeroCurve_init_cases (pts : list CurvePoint) (nm : label)
    (dfs : option (list R)) :
  (pts = [] -> ZeroCurve_init pts nm dfs = Err IndexError) /\
  (pts <> [] -> (exists p, In p pts /\ tenor p <= 0) ->
   ZeroCurve_init pts nm dfs = Err (ValueError tenors_positive_msg)) /\
  (pts <> [] -> (forall p, In p pts -> 0 < tenor p) ->
   forall l, dfs = Some l -> List.length l <> List.length pts ->
   ZeroCurve_init pts nm dfs = Err (ValueError dfs_align_msg)) /\
  (pts <> [] -> (forall p, In p pts -> 0 < tenor p) ->
   (forall l, dfs = Some l -> List.length l = List.length pts) ->
   exists c, ZeroCurve_init pts nm dfs = Ok c /\ wf_curve c /\
     _tenors c = map tenor (sorted_by tenor pts) /\
     _rates c = map rate (sorted_by tenor pts) /\
     name c = nm /\ _discount_factors c = dfs).
Proof.
  repeat split.
  - intros ->. apply ZeroCurve_init_empty.
  - intros _ H. apply ZeroCurve_init_nonpositive, H.
  - intros Hne Hpos l -> Hlen.
    rewrite (ZeroCurve_init_positive pts nm (Some l) Hne Hpos).
    apply Nat.eqb_neq in Hlen. rewrite Hlen. reflexivity.
  - intros Hne Hpos Hlen.
    pose proof (ZeroCurve_init_positive pts nm dfs Hne Hpos) as E.
    destruct dfs as [l|].
    + rewrite (proj2 (Nat.eqb_eq _ _) (Hlen l eq_refl)) in E.
      eexists; split; [exact E|].
      split; [apply (ZeroCurve_init_wf _ _ _ _ E)|]. simpl; auto.
    + eexists; split; [exact E|].
      split; [apply (ZeroCurve_init_wf _ _ _ _ E)|]. simpl; auto.
Qed.

Lemma ZeroCurve_init_cases_witness :
  exists c, ZeroCurve_init flat_points (Named "flat") None = Ok c /\
    wf_curve c /\
    _tenors c = map tenor (sorted_by tenor flat_points) /\
    _rates c = map rate (sorted_by tenor flat_points) /\
    name c = Named "flat" /\ _discount_factors c = None.
Proof.
  apply (proj2 (proj2 (proj2
           (ZeroCurve_init_cases flat_points (Named "flat") None)))).
  - discriminate.
  - intros p [<-|[<-|[]]]; simpl; lra.
  - discriminate.
Defined.

(** C8 as stated fails: on the empty point list the constructor does
    not raise the validation error ([ValueError]) but [IndexError]. *)
Lemma ZeroCurve_init_empty_not_ValueError :
  ZeroCurve_init [] (Named "c") None = Err IndexError /\
  forall msg, ZeroCurve_init [] (Named "c") None <> Err (ValueError msg).
Proof. split; [reflexivity | intros msg; discriminate]. Qed.

(** ** [ZeroCurve.forward_rate] *)

Lemma last_In {A : Type} (l : list A) (d : A) : l <> [] -> In (last l d) l.
Proof.
  induction l as [|x l IH]; intros H; [contradiction|].
  destruct l as [|y l]; [left; reflexivity|].
  right. apply IH. discriminate.
Qed.

Lemma discount_factor_pos (c : ZeroCurve) (t : R) :
  (forall dfs, _discount_factors c = Some dfs -> 0 < last dfs 0) ->
  0 < discount_factor c t.
Proof.
  intros Hl. unfold discount_factor.
  destruct (Rle_dec t 0); [lra|].
  destruct (_discount_factors c) as [dfs|]; [|apply exp_pos].
  destruct (Rle_dec t (hd 0 (_tenors c))); [apply exp_pos|].
  destruct (Rle_dec (last (_tenors c) 0) t); [|apply exp_pos].
  apply Rmult_lt_0_compat; [apply Hl; reflexivity | apply exp_pos].
Qed.

(** On a curve object a positive cache ends in a positive discount
    factor. *)
Lemma positive_cache_last (c : ZeroCurve) :
  wf_curve c -> positive_cache c ->
  forall dfs, _discount_factors c = Some dfs -> 0 < last dfs 0.
Proof.
  intros [Hne [_ [_ [_ Hcache]]]] Hpos dfs Hd.
  specialize (Hcache dfs Hd). specialize (Hpos dfs Hd).
  rewrite Forall_forall in Hpos. apply Hpos, last_In.
  intros E. rewrite E in Hcache. destruct (_tenors c); [auto | discriminate].
Qed.

Lemma discount_factor_positive (c : ZeroCurve) (t : R) :
  wf_curve c -> positive_cache c -> 0 < discount_factor c t.
Proof.
  intros Hwf Hpos. apply discount_factor_pos, positive_cache_last; assumption.
Qed.

Lemma forward_rate_Ok (c : ZeroCurve) (s e : R) :
  s < e -> discount_factor c e <> 0 ->
  forward_rate c s e
  = Ok (ln (discount_factor c s / discount_factor c e) / (e - s)).
Proof.
  intros Hse Hd. unfold forward_rate.
  destruct (Rle_dec e s); [lra|].
  destruct (Req_dec_T (discount_factor c e) 0); [contradiction | reflexivity].
Qed.

Lemma forward_rate_ValueError (c : ZeroCurve) (s e : R) :
  forward_rate c s e = Err (ValueError forward_range_msg) <-> e <= s.
Proof.
  unfold forward_rate. split.
  - destruct (Rle_dec e s); [auto|].
    destruct (Req_dec_T (discount_factor c e) 0); discriminate.
  - intros H. destruct (Rle_dec e s); [reflexivity | contradiction].
Qed.

(** C5 (as amended).  [forward_rate(start, end)] raises the range error
    exactly when [end <= start], so for the pairs (2, 2) and (3, 1).
    When [start < end] it returns
    [ln(DF(start) / DF(end)) / (end - start)] provided [DF(end)] is not
    zero, and raises [ZeroDivisionError] when [DF(end)] is zero.  On a
    curve object without cached discount factors, or with positive
    ones, both discount factors are positive, so the rate is returned
    for every [start < end] and the call fails exactly when
    [end <= start]. *)
Theorem forward_rate_range (c : ZeroCurve) (s e : R) :
  (forward_rate c s e = Err (ValueError forward_range_msg) <-> e <= s) /\
  (s < e -> discount_factor c e <> 0 ->
   forward_rate c s e =
     Ok (ln (discount_factor c s / discount_factor c e) / (e - s))) /\
  (s < e -> discount_factor c e = 0 ->
   forward_rate c s e = Err ZeroDivisionError) /\
  (wf_curve c -> positive_cache c ->
   (s < e ->
    0 < discount_factor c s /\ 0 < discount_factor c e /\
    forward_rate c s e =
      Ok (ln (discount_factor c s / discount_factor c e) / (e - s))) /\
   (is_ok (forward_rate c s e) = false <-> e <= s)) /\
  forward_rate c 2 2 = Err (ValueError forward_range_msg) /\
  forward_rate c 3 1 = Err (ValueError forward_range_msg).
Proof.
  split; [apply forward_rate_ValueError|].
  split; [apply forward_rate_Ok|].
  split.
  { intros Hse Hd. unfold forward_rate.
    destruct (Rle_dec e s); [lra|].
    destruct (Req_dec_T (discount_factor c e) 0); [reflexivity | contradiction]. }
  split.
  { intros Hwf Hpos.
    pose proof (discount_factor_positive c s Hwf Hpos) as Hs.
    pose proof (discount_factor_positive c e Hwf Hpos) as He.
    split.
    - intros Hse. split; [exact Hs|]. split; [exact He|].
      apply forward_rate_Ok; lra.
    - split.
      + intros H. destruct (Rle_dec e s) as [|Hn]; [assumption|].
        rewrite forward_rate_Ok in H by lra. discriminate.
      + intros H. rewrite (proj2 (forward_rate_ValueError c s e) H).
        reflexivity. }
  split; apply forward_rate_ValueError; lra.
Qed.

Lemma forward_rate_range_witness :
  forward_rate flat_curve 1 2 =
    Ok (ln (discount_factor flat_curve 1 / discount_factor flat_curve 2)
        / (2 - 1)).
Proof.
  apply (proj1 (proj2 (forward_rate_range flat_curve 1 2))); [lra|].
  unfold discount_factor. destruct (Rle_dec 2 0); [lra|].
  cbn [flat_curve _discount_factors].
  pose proof (exp_pos (- zero_rate flat_curve 2 * 2)). lra.
Defined.

(** C5 as stated fails: on the curve with the single node (1y, 5%) and
    the cached discount factor 0, which the constructor accepts,
    [DF(2) = 0] and [forward_rate(1, 2)], with [end > start], raises
    [ZeroDivisionError] instead of returning a rate. *)
Lemma forward_rate_zero_discount_factor :
  ZeroCurve_init [mkCurvePoint 1 (5 / 100)] (Named "zero") (Some [0])
  = Ok zero_cache_curve /\
  1 < 2 /\
  discount_factor zero_cache_curve 2 = 0 /\
  forward_rate zero_cache_curve 1 2 = Err ZeroDivisionError /\
  forward_rate zero_cache_curve 1 2
  <> Ok (ln (discount_factor zero_cache_curve 1
             / discount_factor zero_cache_curve 2) / (2 - 1)).
Proof.
  assert (D2 : discount_factor zero_cache_curve 2 = 0).
  { unfold discount_factor, zero_cache_curve.
    cbn [_discount_factors _tenors _rates hd last].
    destruct (Rle_dec 2 0); [lra|].
    destruct (Rle_dec 2 1); [lra|].
    destruct (Rle_dec 1 2); [|lra]. ring. }
  assert (E : forward_rate zero_cache_curve 1 2 = Err ZeroDivisionError).
  { unfold forward_rate. destruct (Rle_dec 2 1); [lra|].
    destruct (Req_dec_T (discount_factor zero_cache_curve 2) 0);
      [reflexivity | contradiction]. }
  split.
  { unfold ZeroCurve_init. cbn [sorted_by fold_right insert_by tenor].
    destruct (Rle_dec 1 0); [lra | reflexivity]. }
  split; [lra|]. split; [exact D2|]. split; [exact E|].
  rewrite E. discriminate.
Qed.

(** ** [apply_non_parallel_shift] with an empty shift map *)

Lemma node_shifts_empty_dict (ts : list R) :
  ts <> [] -> node_shifts [] ts = Err IndexError.
Proof. destruct ts as [|t ts]; [contradiction | reflexivity]. Qed.

(** C10.  With an empty [tenor_shifts] no curve is returned: at the
    first node (every node is absent from the empty map) the function
    reads [sorted_tenors[0]] of an empty list and fails with
    [IndexError].  A curve object always has a node; were the node loop
    not to run at all, the constructor would fail the same way on the
    empty point list. *)
Theorem apply_non_parallel_shift_empty_map (curve : ZeroCurve) :
  (forall t, dict_mem t [] = false /\ node_shift [] t = Err IndexError) /\
  (forall t ts, tenors curve = t :: ts ->
     node_shifts [] (tenors curve) = Err IndexError) /\
  apply_non_parallel_shift curve [] = Err IndexError /\
  forall c', apply_non_parallel_shift curve [] <> Ok c'.
Proof.
  assert (H : apply_non_parallel_shift curve [] = Err IndexError).
  { unfold apply_non_parallel_shift.
    destruct (tenors curve) as [|t ts]; reflexivity. }
  repeat split.
  - intros t ts ->. reflexivity.
  - exact H.
  - intros c'. rewrite H. discriminate.
Qed.

Lemma apply_non_parallel_shift_empty_map_witness :
  node_shifts [] (tenors flat_curve) = Err IndexError.
Proof.
  apply (proj1 (proj2 (apply_non_parallel_shift_empty_map flat_curve))
           1 [2]).
  reflexivity.
Defined.

(** ** Rounding *)

Lemma round_half_even_near (x : R) (n : Z) :
  IZR n - 1 / 2 < x < IZR n + 1 / 2 -> round_half_even x = n.
Proof.
  intros [Hlo Hhi]. unfold round_half_even.
  destruct (Rle_dec (IZR n) x) as [Hle|Hgt].
  - assert (E : n = Int_part x) by (apply Int_part_spec; lra).
    rewrite <- E.
    destruct (Rlt_dec (x - IZR n) (1 / 2)); [reflexivity | lra].
  - assert (E : (n - 1)%Z = Int_part x).
    { apply Int_part_spec. rewrite minus_IZR. lra. }
    rewrite <- E. rewrite minus_IZR.
    destruct (Rlt_dec (x - (IZR n - 1)) (1 / 2)); [lra|].
    destruct (Rlt_dec (1 / 2) (x - (IZR n - 1))); [f_equal; lia | lra].
Qed.

Lemma round_half_even_IZR (n : Z) : round_half_even (IZR n) = n.
Proof. apply round_half_even_near. lra. Qed.

(** ** Arrays *)

Lemma np_sum_app (a b : list R) : np_sum (a ++ b) = np_sum a + np_sum b.
Proof.
  unfold np_sum. induction a as [|x a IH]; simpl; [lra | rewrite IH; lra].
Qed.

Lemma np_mul_app (a b c d : list R) :
  List.length a = List.length c ->
  np_mul (a ++ b) (c ++ d) = np_mul a c ++ np_mul b d.
Proof.
  revert c. induction a as [|x a IH]; intros [|y c] H; simpl in *;
    try discriminate; auto.
  rewrite IH; auto.
Qed.

Lemma firstn_succ_nth {A : Type} (l : list A) (k : nat) (d : A) :
  (k < List.length l)%nat -> firstn (S k) l = firstn k l ++ [nth k l d].
Proof.
  revert k. induction l as [|x l IH]; intros k H; simpl in H; [lia|].
  destruct k as [|k]; [reflexivity|].
  rewrite (firstn_cons (S k)), (IH k) by lia. reflexivity.
Qed.

(** The coupon sum of the bootstrap, entry by entry. *)
Lemma np_sum_mul_firstn (k : nat) (a b : list R) :
  (k <= List.length a)%nat -> (k <= List.length b)%nat ->
  np_sum (np_mul (firstn k a) (firstn k b)) =
  np_sum (map (fun j => nth j a 0 * nth j b 0) (seq 0 k)).
Proof.
  induction k as [|k IH]; intros Ha Hb; [reflexivity|].
  rewrite (firstn_succ_nth a k 0), (firstn_succ_nth b k 0) by lia.
  rewrite np_mul_app by (rewrite !length_firstn; lia).
  rewrite np_sum_app, IH by lia.
  rewrite seq_S, map_app, np_sum_app. reflexivity.
Qed.

Lemma np_diff_from_length (p : R) (l : list R) :
  List.length (np_diff_from p l) = List.length l.
Proof. revert p; induction l as [|x l IH]; intros p; simpl; auto. Qed.

Lemma np_diff_from_nth (p : R) (l : list R) (k : nat) :
  (k < List.length l)%nat ->
  nth k (np_diff_from p l) 0 =
  nth k l 0 - match k with O => p | S k' => nth k' l 0 end.
Proof.
  revert p k. induction l as [|x l IH]; intros p k H; simpl in *; [lia|].
  destruct k as [|k]; [reflexivity|].
  rewrite IH by lia. destruct k; reflexivity.
Qed.

Lemma implied_rates_length (dfs ts : list R) :
  List.length dfs = List.length ts ->
  List.length (implied_rates dfs ts) = List.length ts.
Proof.
  revert ts; induction dfs as [|d dfs IH]; intros [|t ts] H; simpl in *;
    try discriminate; auto.
Qed.

Lemma implied_rates_nth (dfs ts : list R) (k : nat) :
  List.length dfs = List.length ts -> (k < List.length ts)%nat ->
  nth k (implied_rates dfs ts) 0 = - ln (nth k dfs 0) / nth k ts 0.
Proof.
  revert ts k; induction dfs as [|d dfs IH]; intros [|t ts] k H Hk;
    simpl in *; try discriminate; try lia.
  destruct k; [reflexivity | apply IH; lia].
Qed.

Lemma zip_points_tenor (ts rs : list R) :
  List.length rs = List.length ts -> map tenor (zip_points ts rs) = ts.
Proof.
  revert rs; induction ts as [|t ts IH]; intros [|r rs] H; simpl in *;
    try discriminate; auto.
  rewrite IH; auto.
Qed.

Lemma zip_points_rate (ts rs : list R) :
  List.length rs = List.length ts -> map rate (zip_points ts rs) = rs.
Proof.
  revert rs; induction ts as [|t ts IH]; intros [|r rs] H; simpl in *;
    try discriminate; auto.
  rewrite IH; auto.
Qed.

Lemma ascending_of_map {A : Type} (key : A -> R) (l : list A) :
  ascending (fun t => t) (map key l) -> ascending key l.
Proof.
  unfold ascending. induction l as [|x l IH]; simpl; intros H;
    [constructor|].
  inversion H as [|? ? Hs Hall]; subst. constructor; auto.
  rewrite Forall_forall in *. intros y Hy. apply Hall, in_map, Hy.
Qed.

(** Points zipped from ascending tenors are left in place by the sort
    of the constructor. *)
Lemma sorted_zip_points (ts rs : list R) :
  List.length rs = List.length ts -> ascending (fun t => t) ts ->
  sorted_by tenor (zip_points ts rs) = zip_points ts rs.
Proof.
  intros Hlen Hs. apply sorted_by_ascending_id, ascending_of_map.
  rewrite zip_points_tenor; auto.
Qed.

(** The constructor applied to points zipped from ascending positive
    tenors, with one discount factor per tenor. *)
Lemma ZeroCurve_init_zip (ts rs dfs : list R) (nm : label) :
  ts <> [] -> List.length rs = List.length ts ->
  List.length dfs = List.length ts ->
  ascending (fun t => t) ts -> Forall (fun t => 0 < t) ts ->
  ZeroCurve_init (zip_points ts rs) nm (Some dfs) =
    Ok (mkZeroCurve ts rs nm (Some dfs)).
Proof.
  intros Hne Hrs Hdfs Hasc Hpos.
  rewrite ZeroCurve_init_positive.
  - rewrite sorted_zip_points, zip_points_tenor, zip_points_rate; auto.
    replace (List.length (zip_points ts rs)) with (List.length ts).
    + rewrite (proj2 (Nat.eqb_eq _ _) Hdfs). reflexivity.
    + rewrite <- (zip_points_tenor ts rs Hrs) at 1. apply length_map.
  - intros E. apply (f_equal (map tenor)) in E.
    rewrite zip_points_tenor in E; auto.
  - intros p Hp. apply (in_map tenor) in Hp.
    rewrite zip_points_tenor in Hp; auto.
    rewrite Forall_forall in Hpos. auto.
Qed.

(** ** [np.interp] *)

Lemma np_interp_left (x x0 y0 : R) (xp fp : list R) :
  x < x0 -> np_interp x (x0 :: xp) (y0 :: fp) = y0.
Proof.
  intros H. simpl. destruct (Rlt_dec x x0); [reflexivity | contradiction].
Qed.

Lemma interp_from_right (x : R) (xp fp : list R) (x0 y0 : R) :
  List.length xp = List.length fp -> Forall (fun x1 => x1 <= x) xp ->
  interp_from x x0 y0 xp fp = last (y0 :: fp) 0.
Proof.
  revert fp x0 y0. induction xp as [|x1 xp IH]; intros [|y1 fp] x0 y0 Hlen Hall;
    simpl in Hlen; try discriminate; [reflexivity|].
  inversion Hall; subst. simpl interp_from.
  destruct (Rle_dec x1 x); [|contradiction].
  rewrite IH by (auto; lia). reflexivity.
Qed.

Lemma ascending_le_last (l : list R) (y : R) :
  ascending (fun t => t) l -> In y l -> y <= last l 0.
Proof.
  unfold ascending. intros Hasc. revert y.
  induction Hasc as [|x l Hs IH Hall]; intros y Hy; [contradiction|].
  destruct l as [|z l].
  - destruct Hy as [->|[]]. simpl. lra.
  - change (last (x :: z :: l) 0) with (last (z :: l) 0).
    destruct Hy as [<-|Hy]; [|auto].
    rewrite Forall_forall in Hall.
    pose proof (Hall z (or_introl eq_refl)).
    pose proof (IH z (or_introl eq_refl)). lra.
Qed.

(** To the right of the samples the last value is returned. *)
Lemma np_interp_right (x : R) (xp fp : list R) :
  xp <> [] -> List.length xp = List.length fp ->
  ascending (fun t => t) xp -> last xp 0 <= x ->
  np_interp x xp fp = last fp 0.
Proof.
  intros Hne Hlen Hasc Hx.
  destruct xp as [|x0 xp]; [contradiction|].
  destruct fp as [|y0 fp]; [discriminate|].
  assert (Hall : Forall (fun x1 => x1 <= x) (x0 :: xp)).
  { rewrite Forall_forall. intros y Hy.
    pose proof (ascending_le_last _ y Hasc Hy). lra. }
  inversion Hall; subst. simpl np_interp.
  destruct (Rlt_dec x x0); [lra|].
  apply interp_from_right; [simpl in Hlen; lia | assumption].
Qed.

Lemma interp_from_const (x r : R) (xp fp : list R) (x0 : R) :
  Forall (fun y => y = r) fp -> interp_from x x0 r xp fp = r.
Proof.
  revert fp x0. induction xp as [|x1 xp IH]; intros [|y1 fp] x0 Hall;
    simpl; auto.
  inversion Hall; subst.
  destruct (Rle_dec x1 x); [apply IH; assumption|].
  unfold Rdiv. ring.
Qed.

(** Interpolating a constant column gives the constant. *)
Lemma np_interp_const (x r : R) (xp fp : list R) :
  xp <> [] -> List.length xp = List.length fp ->
  Forall (fun y => y = r) fp -> np_interp x xp fp = r.
Proof.
  intros Hne Hlen Hall.
  destruct xp as [|x0 xp]; [contradiction|].
  destruct fp as [|y0 fp]; [discriminate|].
  inversion Hall; subst. simpl.
  destruct (Rlt_dec x x0); [reflexivity|].
  apply interp_from_const; assumption.
Qed.

Lemma ascending_head_le_nth (x0 : R) (l : list R) (j : nat) :
  ascending (fun t => t) (x0 :: l) -> (j < List.length (x0 :: l))%nat ->
  x0 <= nth j (x0 :: l) 0.
Proof.
  intros Hasc Hj. inversion Hasc as [|? ? _ Hall]; subst.
  destruct j as [|j]; simpl; [lra|].
  rewrite Forall_forall in Hall. apply Hall, nth_In. simpl in Hj. lia.
Qed.

(** Between two consecutive samples the chord through them is
    returned. *)
Lemma interp_from_chord (x : R) (xp fp : list R) (x0 y0 : R) (j : nat) :
  List.length xp = List.length fp ->
  ascending (fun t => t) (x0 :: xp) ->
  (S j < List.length (x0 :: xp))%nat ->
  nth j (x0 :: xp) 0 <= x < nth (S j) (x0 :: xp) 0 ->
  interp_from x x0 y0 xp fp =
    (nth (S j) (y0 :: fp) 0 - nth j (y0 :: fp) 0)
    / (nth (S j) (x0 :: xp) 0 - nth j (x0 :: xp) 0)
    * (x - nth j (x0 :: xp) 0) + nth j (y0 :: fp) 0.
Proof.
  revert fp x0 y0 j.
  induction xp as [|x1 xp IH]; intros [|y1 fp] x0 y0 j Hlen Hasc Hj Hx;
    simpl in Hlen; try discriminate; [simpl in Hj; lia|].
  destruct j as [|j].
  - simpl in Hx. simpl interp_from.
    destruct (Rle_dec x1 x); [lra | reflexivity].
  - assert (Hasc' : ascending (fun t => t) (x1 :: xp))
      by (inversion Hasc; assumption).
    assert (Hj' : (j < List.length (x1 :: xp))%nat) by (simpl in *; lia).
    pose proof (ascending_head_le_nth x1 xp j Hasc' Hj') as Hle.
    change (nth (S j) (x0 :: x1 :: xp) 0) with (nth j (x1 :: xp) 0) in Hx.
    simpl interp_from.
    destruct (Rle_dec x1 x); [|lra].
    rewrite (IH fp x1 y1 j); [reflexivity | lia | assumption | | ].
    + simpl in *; lia.
    + exact Hx.
Qed.

Lemma np_interp_chord (x : R) (xp fp : list R) (j : nat) :
  List.length xp = List.length fp -> ascending (fun t => t) xp ->
  (S j < List.length xp)%nat -> nth j xp 0 <= x < nth (S j) xp 0 ->
  np_interp x xp fp =
    (nth (S j) fp 0 - nth j fp 0) / (nth (S j) xp 0 - nth j xp 0)
    * (x - nth j xp 0) + nth j fp 0.
Proof.
  intros Hlen Hasc Hj Hx.
  destruct xp as [|x0 xp]; [simpl in Hj; lia|].
  destruct fp as [|y0 fp]; [discriminate|].
  pose proof (ascending_head_le_nth x0 xp j Hasc ltac:(lia)) as Hle.
  simpl np_interp. destruct (Rlt_dec x x0); [lra|].
  apply interp_from_chord; auto.
Qed.

(** ** The bootstrap *)

(** What the loop does: it extends [dfs] by one entry per remaining
    node, never touching the entries already written, and every new
    entry is computed from the entries before it. *)
Lemma bootstrap_loop_spec (pt pr acc : list R) (todo : list (R * R))
    (idx : nat) (dfs : list R) :
  List.length dfs = idx ->
  let D := bootstrap_loop pt pr acc todo idx dfs in
  List.length D = (idx + List.length todo)%nat /\
  firstn idx D = dfs /\
  forall j, (j < List.length todo)%nat ->
    nth (idx + j) D 0 =
      let r := np_interp (fst (nth j todo (0, 0))) pt pr in
      let a := snd (nth j todo (0, 0)) in
      if Nat.eqb (idx + j) 0 then 1 / (1 + r * a)
      else (1 - r * np_sum (np_mul (firstn (idx + j) acc)
                                   (firstn (idx + j) D)))
           / (1 + r * a).
Proof.
  revert idx dfs. induction todo as [|[t a] todo IH]; intros idx dfs Hlen.
  - simpl. repeat split; [lia | subst; apply firstn_all | intros j Hj; lia].
  - cbn [bootstrap_loop].
    set (df := if Nat.eqb idx 0 then _ else _).
    assert (Hlen' : List.length (dfs ++ [df]) = S idx)
      by (rewrite last_length; lia).
    destruct (IH (S idx) (dfs ++ [df]) Hlen') as [HL [HF HN]].
    set (D := bootstrap_loop pt pr acc todo (S idx) (dfs ++ [df])) in *.
    assert (HF0 : firstn idx D = dfs).
    { replace idx with (Nat.min idx (S idx)) at 1 by lia.
      rewrite <- firstn_firstn, HF, firstn_app, Hlen, Nat.sub_diag.
      rewrite <- Hlen at 1. rewrite firstn_all. simpl. apply app_nil_r. }
    repeat split.
    + simpl. lia.
    + exact HF0.
    + intros [|j] Hj.
      * rewrite Nat.add_0_r. cbn [nth fst snd].
        assert (E : nth idx D 0 = df).
        { assert (E' : nth idx (firstn (S idx) D) 0 = nth idx D 0).
          { rewrite nth_firstn.
            destruct (Nat.ltb_spec idx (S idx)); [reflexivity | lia]. }
          rewrite <- E', HF, app_nth2, Hlen, Nat.sub_diag by lia.
          reflexivity. }
        assert (Hall : firstn idx dfs = dfs)
          by (rewrite <- Hlen; apply firstn_all).
        rewrite E, HF0. unfold df. rewrite Hall. reflexivity.
      * replace (idx + S j)%nat with (S idx + j)%nat by lia.
        cbn [nth]. apply HN. simpl in Hj. lia.
Qed.

Lemma grid_tenors_length (N f : Z) :
  List.length (grid_tenors N f) = Z.to_nat N.
Proof. unfold grid_tenors. rewrite length_map, length_seq. reflexivity. Qed.

Lemma grid_tenors_nth (N f : Z) (k : nat) :
  (k < Z.to_nat N)%nat -> nth k (grid_tenors N f) 0 = node_tenor f (S k).
Proof.
  intros Hk. unfold grid_tenors.
  rewrite (nth_indep _ 0 (node_tenor f 0))
    by (rewrite length_map, length_seq; exact Hk).
  change (fun i : nat => IZR (Z.of_nat i) / IZR f) with (node_tenor f).
  rewrite map_nth, seq_nth by exact Hk. reflexivity.
Qed.

Lemma node_tenor_0 (f : Z) : node_tenor f 0 = 0.
Proof. unfold node_tenor. simpl. unfold Rdiv. ring. Qed.

Lemma node_tenor_le (f : Z) (i j : nat) :
  (0 < f)%Z -> (i <= j)%nat -> node_tenor f i <= node_tenor f j.
Proof.
  intros Hf Hij. unfold node_tenor, Rdiv.
  apply Rmult_le_compat_r.
  - left. apply Rinv_0_lt_compat, (IZR_lt 0), Hf.
  - apply IZR_le. lia.
Qed.

Lemma node_tenor_pos (f : Z) (i : nat) :
  (0 < f)%Z -> (0 < i)%nat -> 0 < node_tenor f i.
Proof.
  intros Hf Hi. unfold node_tenor, Rdiv.
  apply Rmult_lt_0_compat.
  - apply (IZR_lt 0). lia.
  - apply Rinv_0_lt_compat, (IZR_lt 0), Hf.
Qed.

Lemma map_seq_ascending (g : nat -> R) (s n : nat) :
  (forall i j, (i <= j)%nat -> g i <= g j) ->
  ascending (fun t => t) (map g (seq s n)).
Proof.
  intros Hg. unfold ascending. revert s.
  induction n as [|n IH]; intros s; simpl; constructor; auto.
  rewrite Forall_forall. intros y Hy.
  apply in_map_iff in Hy. destruct Hy as [j [<- Hj]].
  apply in_seq in Hj. apply Hg. lia.
Qed.

Lemma grid_tenors_ascending (N f : Z) :
  (0 < f)%Z -> ascending (fun t => t) (grid_tenors N f).
Proof.
  intros Hf. unfold grid_tenors.
  apply (map_seq_ascending (node_tenor f)).
  intros i j. apply node_tenor_le, Hf.
Qed.

Lemma grid_tenors_positive (N f : Z) :
  (0 < f)%Z -> Forall (fun t => 0 < t) (grid_tenors N f).
Proof.
  intros Hf. unfold grid_tenors. rewrite Forall_forall. intros y Hy.
  apply in_map_iff in Hy. destruct Hy as [j [<- Hj]].
  apply in_seq in Hj. apply (node_tenor_pos f j Hf). lia.
Qed.

Lemma accruals_nth (N f : Z) (k : nat) :
  (k < Z.to_nat N)%nat ->
  nth k (np_diff_from 0 (grid_tenors N f)) 0 = node_accrual f (S k).
Proof.
  intros Hk. rewrite np_diff_from_nth by (rewrite grid_tenors_length; lia).
  unfold node_accrual. rewrite grid_tenors_nth by lia.
  replace (S k - 1)%nat with k by lia.
  destruct k as [|k].
  - rewrite node_tenor_0. reflexivity.
  - rewrite grid_tenors_nth by lia. reflexivity.
Qed.

(** The coupon sum of iteration [k] is the sum over the nodes 1 to [k]
    of accrual times discount factor. *)
Lemma coupon_sum_sum_to (N f : Z) (D : list R) (k : nat) :
  (k <= Z.to_nat N)%nat ->
  np_sum (map (fun j => nth j (np_diff_from 0 (grid_tenors N f)) 0
                        * nth j D 0) (seq 0 k)) =
  sum_to k (fun j => node_accrual f j * nth (j - 1) D 0).
Proof.
  intros Hk. unfold sum_to. rewrite <- seq_shift, map_map.
  f_equal. apply map_ext_in. intros j Hj. apply in_seq in Hj.
  rewrite accruals_nth by lia.
  replace (S j - 1)%nat with j by lia. reflexivity.
Qed.

Lemma match_nonempty {A B : Type} (l : list A) (a b : B) :
  l <> [] -> match l with [] => a | _ :: _ => b end = b.
Proof. destruct l; [contradiction | reflexivity]. Qed.

Lemma from_par_swap_dataframe_Ok (df : list Quote) (nm : label) (f : Z) :
  let par_tenors := map tenor_years (sorted_by tenor_years df) in
  let par_rates := map quote_rate (sorted_by tenor_years df) in
  let N := round_half_even (last par_tenors 0 * IZR f) in
  let ts := grid_tenors N f in
  let accruals := np_diff_from 0 ts in
  let D := bootstrap_loop par_tenors par_rates accruals
             (combine ts accruals) 0 [] in
  df <> [] -> (0 < f)%Z -> (1 <= N)%Z ->
  List.length D = Z.to_nat N /\
  from_par_swap_dataframe df nm f =
    Ok (mkZeroCurve ts (implied_rates D ts) nm (Some D)).
Proof.
  intros par_tenors par_rates N ts accruals D Hdf Hf HN.
  assert (HlenD : List.length D = Z.to_nat N).
  { destruct (bootstrap_loop_spec par_tenors par_rates accruals
                (combine ts accruals) 0 [] eq_refl) as [HL _].
    fold D in HL. rewrite HL, length_combine. unfold accruals.
    rewrite np_diff_from_length. unfold ts. rewrite grid_tenors_length. lia. }
  split; [exact HlenD|].
  assert (Hne : par_tenors <> []).
  { intros E. apply Hdf.
    apply (sorted_by_nil_iff tenor_years), (map_eq_nil tenor_years), E. }
  unfold from_par_swap_dataframe.
  destruct (Z.leb_spec f 0) as [|_]; [lia|].
  fold par_tenors par_rates.
  rewrite (match_nonempty par_tenors) by exact Hne.
  cbv zeta. fold N.
  destruct (Z.leb_spec N 0) as [|_]; [lia|].
  fold ts. fold accruals. fold D.
  apply ZeroCurve_init_zip.
  - intros E. apply (f_equal (@List.length R)) in E.
    unfold ts in E. rewrite grid_tenors_length in E. simpl in E. lia.
  - apply implied_rates_length. unfold ts.
    rewrite grid_tenors_length. exact HlenD.
  - unfold ts. rewrite grid_tenors_length. exact HlenD.
  - apply grid_tenors_ascending, Hf.
  - apply grid_tenors_positive, Hf.
Qed.

(** The nodes of a bootstrapped curve: the grid, the par rates, the
    recurrence of the discount factors and the zero rates. *)
Lemma bootstrap_nodes (df : list Quote) (nm : label) (f : Z) :
  let par_tenors := map tenor_years (sorted_by tenor_years df) in
  let par_rates := map quote_rate (sorted_by tenor_years df) in
  let N := round_half_even (last par_tenors 0 * IZR f) in
  let t := node_tenor f in
  let a := node_accrual f in
  let r := fun i => np_interp (t i) par_tenors par_rates in
  df <> [] -> (0 < f)%Z -> (1 <= N)%Z ->
  exists c D,
    from_par_swap_dataframe df nm f = Ok c /\
    _discount_factors c = Some D /\ name c = nm /\
    List.length (_tenors c) = Z.to_nat N /\
    List.length (_rates c) = Z.to_nat N /\
    List.length D = Z.to_nat N /\
    let DF := fun i => nth (i - 1) D 0 in
    DF 1%nat = 1 / (1 + r 1%nat * a 1%nat) /\
    forall i, (1 <= i <= Z.to_nat N)%nat ->
      nth (i - 1) (_tenors c) 0 = t i /\
      (t i < hd 0 par_tenors -> r i = hd 0 par_rates) /\
      (last par_tenors 0 <= t i -> r i = last par_rates 0) /\
      ((1 < i)%nat ->
       DF i = (1 - r i * sum_to (i - 1) (fun j => a j * DF j))
              / (1 + r i * a i)) /\
      nth (i - 1) (_rates c) 0 = - ln (DF i) / t i.
Proof.
  intros par_tenors par_rates N t a r.
  assert (Hasc : ascending (fun x => x) par_tenors)
    by apply ascending_map, sorted_by_ascending.
  assert (Hlen : List.length par_tenors = List.length par_rates)
    by (unfold par_tenors, par_rates; rewrite !length_map; reflexivity).
  intros Hdf Hf HN.
  assert (Hne : par_tenors <> []).
  { intros E. apply Hdf.
    apply (sorted_by_nil_iff tenor_years), (map_eq_nil tenor_years), E. }
  destruct (from_par_swap_dataframe_Ok df nm f Hdf Hf HN) as [HlenD HOk].
  fold par_tenors par_rates N in HlenD, HOk.
  set (ts := grid_tenors N f) in *.
  set (accruals := np_diff_from 0 ts) in *.
  set (D := bootstrap_loop par_tenors par_rates accruals
              (combine ts accruals) 0 []) in *.
  assert (Hts : List.length ts = Z.to_nat N) by apply grid_tenors_length.
  assert (Hacc : List.length accruals = Z.to_nat N)
    by (unfold accruals; rewrite np_diff_from_length; exact Hts).
  destruct (bootstrap_loop_spec par_tenors par_rates accruals
              (combine ts accruals) 0 [] eq_refl) as [_ [_ Hstep]].
  fold D in Hstep. rewrite length_combine, Hts, Hacc, Nat.min_id in Hstep.
  assert (Hnode : forall k, (k < Z.to_nat N)%nat ->
            nth k (combine ts accruals) (0, 0) =
              (t (S k), a (S k))).
  { intros k Hk. rewrite combine_nth by lia.
    unfold accruals, ts. rewrite grid_tenors_nth, accruals_nth by lia.
    reflexivity. }
  eexists; exists D. split; [exact HOk|].
  cbn [_discount_factors name _tenors _rates].
  repeat split; try reflexivity; try assumption.
  - rewrite implied_rates_length; lia.
  - specialize (Hstep 0%nat ltac:(lia)). rewrite Hnode in Hstep by lia.
    exact Hstep.
  - unfold ts. rewrite grid_tenors_nth by lia.
    unfold t. f_equal. lia.
  - intros Hi. unfold r. destruct par_tenors as [|x0 xp]; [contradiction|].
    destruct par_rates as [|y0 fp]; [discriminate|].
    apply np_interp_left. exact Hi.
  - intros Hi. unfold r. apply np_interp_right; assumption.
  - intros Hi. destruct i as [|[|k]]; try lia.
    replace (S (S k) - 1)%nat with (S k) by lia.
    specialize (Hstep (S k) ltac:(lia)). rewrite Hnode in Hstep by lia.
    cbn [fst snd Nat.add Nat.eqb] in Hstep.
    rewrite np_sum_mul_firstn in Hstep by lia.
    unfold accruals, ts in Hstep.
    rewrite coupon_sum_sum_to in Hstep by lia. exact Hstep.
  - rewrite implied_rates_nth by lia.
    unfold ts. rewrite grid_tenors_nth by lia.
    replace (S (i - 1)) with i by lia. reflexivity.
Qed.

Lemma from_par_swap_dataframe_frequency (df : list Quote) (nm : label)
    (f : Z) :
  (f <= 0)%Z ->
  from_par_swap_dataframe df nm f = Err (ValueError frequency_msg).
Proof.
  intros Hf. unfold from_par_swap_dataframe.
  destruct (Z.leb_spec f 0); [reflexivity | lia].
Qed.

Lemma from_par_swap_dataframe_coverage (df : list Quote) (nm : label)
    (f : Z) :
  df <> [] -> (0 < f)%Z ->
  (round_half_even
     (last (map tenor_years (sorted_by tenor_years df)) 0%R * IZR f) <= 0)%Z ->
  from_par_swap_dataframe df nm f = Err (ValueError coverage_msg).
Proof.
  intros Hdf Hf HN.
  unfold from_par_swap_dataframe.
  destruct (Z.leb_spec f 0) as [|_]; [lia|].
  rewrite (match_nonempty (map tenor_years (sorted_by tenor_years df))).
  - cbv zeta. match goal with |- context [Z.leb ?n 0] =>
      destruct (Z.leb_spec n 0); [reflexivity | lia] end.
  - intros E. apply Hdf.
    apply (sorted_by_nil_iff tenor_years), (map_eq_nil tenor_years), E.
Qed.

(** Between two neighbouring quote tenors the interpolated par rate
    lies on the chord through the two quotes. *)
Lemma par_rate_chord (df : list Quote) (x : R) (k : nat) :
  let par_tenors := map tenor_years (sorted_by tenor_years df) in
  let par_rates := map quote_rate (sorted_by tenor_years df) in
  (S k < List.length par_tenors)%nat ->
  nth k par_tenors 0 <= x < nth (S k) par_tenors 0 ->
  np_interp x par_tenors par_rates
  = nth k par_rates 0
    + (nth (S k) par_rates 0 - nth k par_rates 0)
      / (nth (S k) par_tenors 0 - nth k par_tenors 0)
      * (x - nth k par_tenors 0).
Proof.
  intros par_tenors par_rates Hk Hx.
  rewrite (np_interp_chord x par_tenors par_rates k);
    [ring | | | exact Hk | exact Hx].
  - unfold par_tenors, par_rates. rewrite !length_map. reflexivity.
  - apply ascending_map, sorted_by_ascending.
Qed.

(** C1.  For a quote table with largest tenor [t_max] and a frequency
    [f > 0] with [N = round(t_max * f) >= 1], the bootstrap returns a
    curve over the grid [t_i = i / f], [i = 1..N]; the par rate [r_i] is
    the linear interpolation of the sorted quotes at [t_i]: the first
    quoted rate to the left of the first quote tenor, the last one from
    the last quote tenor on, and between two neighbouring quote tenors
    [x_k <= t_i < x_(k+1)] the value at [t_i] of the chord through the
    two quotes (for quote tenors that are pairwise different, so that
    the sorted order of the quotes is determined).  The discount
    factors satisfy [DF_1 = 1 / (1 + r_1 a_1)] and, for [i > 1],
    [DF_i = (1 - r_i * sum_(j<i) a_j DF_j) / (1 + r_i a_i)], and the zero
    rate of node [i] is [- ln(DF_i) / t_i].  It fails when [f <= 0] and
    when [N <= 0]. *)
Theorem from_par_swap_dataframe_bootstrap (df : list Quote) (nm : label)
    (f : Z) :
  let par_tenors := map tenor_years (sorted_by tenor_years df) in
  let par_rates := map quote_rate (sorted_by tenor_years df) in
  let N := round_half_even (last par_tenors 0 * IZR f) in
  let t := node_tenor f in
  let a := node_accrual f in
  let r := fun i => np_interp (t i) par_tenors par_rates in
  (df <> [] -> (0 < f)%Z -> (1 <= N)%Z ->
   exists c D,
     from_par_swap_dataframe df nm f = Ok c /\
     _discount_factors c = Some D /\ name c = nm /\
     List.length (_tenors c) = Z.to_nat N /\
     List.length (_rates c) = Z.to_nat N /\
     List.length D = Z.to_nat N /\
     let DF := fun i => nth (i - 1) D 0 in
     DF 1%nat = 1 / (1 + r 1%nat * a 1%nat) /\
     forall i, (1 <= i <= Z.to_nat N)%nat ->
       nth (i - 1) (_tenors c) 0 = t i /\
       (t i < hd 0 par_tenors -> r i = hd 0 par_rates) /\
       (last par_tenors 0 <= t i -> r i = last par_rates 0) /\
       (NoDup (map tenor_years df) ->
        forall k, (S k < List.length par_tenors)%nat ->
          nth k par_tenors 0 <= t i < nth (S k) par_tenors 0 ->
          r i = nth k par_rates 0
                + (nth (S k) par_rates 0 - nth k par_rates 0)
                  / (nth (S k) par_tenors 0 - nth k par_tenors 0)
                  * (t i - nth k par_tenors 0)) /\
       ((1 < i)%nat ->
        DF i = (1 - r i * sum_to (i - 1) (fun j => a j * DF j))
               / (1 + r i * a i)) /\
       nth (i - 1) (_rates c) 0 = - ln (DF i) / t i) /\
  ((f <= 0)%Z ->
   from_par_swap_dataframe df nm f = Err (ValueError frequency_msg)) /\
  (df <> [] -> (0 < f)%Z -> (N <= 0)%Z ->
   from_par_swap_dataframe df nm f = Err (ValueError coverage_msg)).
Proof.
  intros par_tenors par_rates N t a r.
  split; [|split].
  - intros Hdf Hf HN.
    destruct (bootstrap_nodes df nm f Hdf Hf HN)
      as [c [D [E [HD [Hnm [Hlt [Hlr [HlD H]]]]]]]].
    cbv zeta in H. destruct H as [H1 Hi].
    exists c, D.
    split; [exact E|]. split; [exact HD|]. split; [exact Hnm|].
    split; [exact Hlt|]. split; [exact Hlr|]. split; [exact HlD|].
    cbv zeta. split; [exact H1|].
    intros i Hrange.
    destruct (Hi i Hrange) as [Ht [Hleft [Hright [Hrec Hrate]]]].
    split; [exact Ht|]. split; [exact Hleft|]. split; [exact Hright|].
    split; [|split; [exact Hrec | exact Hrate]].
    intros _ k Hk Hx. apply (par_rate_chord df (t i) k Hk Hx).
  - apply from_par_swap_dataframe_frequency.
  - apply from_par_swap_dataframe_coverage.
Qed.

Lemma sample_quotes_sorted :
  sorted_by tenor_years sample_quotes = sample_quotes.
Proof.
  apply sorted_by_ascending_id. unfold ascending, sample_quotes.
  repeat constructor; simpl; lra.
Qed.

Lemma sample_quotes_steps :
  round_half_even
    (last (map tenor_years (sorted_by tenor_years sample_quotes)) 0 * IZR 2)
  = 2%Z.
Proof.
  rewrite sample_quotes_sorted. simpl.
  replace (1 * 2) with (IZR 2) by lra. apply round_half_even_IZR.
Qed.

Lemma sample_quotes_steps_quarterly :
  round_half_even
    (last (map tenor_years (sorted_by tenor_years sample_quotes)) 0 * IZR 4)
  = 4%Z.
Proof.
  rewrite sample_quotes_sorted. simpl.
  replace (1 * 4) with (IZR 4) by lra. apply round_half_even_IZR.
Qed.

Lemma from_par_swap_dataframe_bootstrap_witness :
  exists c D,
    from_par_swap_dataframe sample_quotes (Named "par") 4 = Ok c /\
    _discount_factors c = Some D /\ List.length D = 4%nat /\
    nth 0 D 0 =
      1 / (1 + np_interp (node_tenor 4 1)
                 (map tenor_years (sorted_by tenor_years sample_quotes))
                 (map quote_rate (sorted_by tenor_years sample_quotes))
               * node_accrual 4 1) /\
    np_interp (node_tenor 4 3)
      (map tenor_years (sorted_by tenor_years sample_quotes))
      (map quote_rate (sorted_by tenor_years sample_quotes))
    = 35 / 1000.
Proof.
  destruct (proj1 (from_par_swap_dataframe_bootstrap
                     sample_quotes (Named "par") 4))
    as [c [D [H1 [H2 [_ [_ [_ [H3 H4]]]]]]]].
  - discriminate.
  - lia.
  - rewrite sample_quotes_steps_quarterly. lia.
  - cbv zeta in H4. destruct H4 as [H4 Hi].
    rewrite sample_quotes_steps_quarterly in H3, Hi.
    exists c, D.
    split; [exact H1|]. split; [exact H2|]. split; [exact H3|].
    split; [exact H4|].
    destruct (Hi 3%nat ltac:(simpl; lia)) as [_ [_ [_ [Hchord _]]]].
    rewrite (Hchord
               ltac:(simpl; constructor;
                     [intros [H|[]]; lra
                     | constructor; [intros [] | constructor]])
               0%nat).
    + rewrite sample_quotes_sorted. unfold node_tenor. simpl. field.
    + rewrite sample_quotes_sorted. simpl. lia.
    + rewrite sample_quotes_sorted. unfold node_tenor. simpl. lra.
Defined.

(** ** Bootstrapping a flat par rate *)

Lemma sum_to_S (k : nat) (g : nat -> R) :
  sum_to (S k) g = sum_to k g + g (S k).
Proof.
  unfold sum_to. rewrite seq_S, map_app, np_sum_app. simpl. lra.
Qed.

Lemma sum_to_ext (k : nat) (g h : nat -> R) :
  (forall j, (1 <= j <= k)%nat -> g j = h j) -> sum_to k g = sum_to k h.
Proof.
  intros H. unfold sum_to. f_equal. apply map_ext_in.
  intros j Hj. apply in_seq in Hj. apply H. lia.
Qed.

(** What is left of the unit notional after [k] coupons [x] discounted
    at [1 / (1 + x)] per period. *)
Lemma geometric_residual (x : R) (k : nat) :
  1 + x <> 0 ->
  1 - x * sum_to k (fun j => (/ (1 + x)) ^ j) = (/ (1 + x)) ^ k.
Proof.
  intros Hx. set (q := / (1 + x)).
  assert (Hq : 1 - x * q = q) by (unfold q; field; exact Hx).
  induction k as [|k IH].
  - unfold sum_to. simpl. lra.
  - rewrite sum_to_S. simpl pow.
    replace (1 - x * (sum_to k (fun j => q ^ j) + q * q ^ k))
      with ((1 - x * sum_to k (fun j => q ^ j)) - x * q * q ^ k) by ring.
    rewrite IH.
    replace (q ^ k - x * q * q ^ k) with (q ^ k * (1 - x * q)) by ring.
    rewrite Hq. ring.
Qed.

Lemma node_accrual_uniform (f : Z) (i : nat) :
  (0 < f)%Z -> (1 <= i)%nat -> node_accrual f i = 1 / IZR f.
Proof.
  intros Hf Hi. unfold node_accrual, node_tenor.
  replace (Z.of_nat i) with (Z.of_nat (i - 1) + 1)%Z by lia.
  rewrite plus_IZR. field. apply not_0_IZR. lia.
Qed.

Lemma ln_le_of_le_exp (a y : R) : 0 < a -> a <= exp y -> ln a <= y.
Proof.
  intros Ha [Hlt|Heq].
  - left. rewrite <- (ln_exp y). apply ln_increasing; assumption.
  - right. rewrite Heq. apply ln_exp.
Qed.

Lemma ln_lt_of_lt_exp (a y : R) : 0 < a -> a < exp y -> ln a < y.
Proof.
  intros Ha Hlt. rewrite <- (ln_exp y). apply ln_increasing; assumption.
Qed.

(** The continuously compounded equivalent of a rate [r] paid [f] times
    a year lies below [r]. *)
Lemma compounding_gap (f r : R) :
  0 < f -> 0 < 1 + r / f ->
  f * ln (1 + r / f) <= r /\ (r <> 0 -> f * ln (1 + r / f) < r).
Proof.
  intros Hf Hpos.
  assert (Hr : r = f * (r / f)) by (field; lra).
  split.
  - assert (H : ln (1 + r / f) <= r / f)
      by (apply ln_le_of_le_exp; [assumption | apply exp_ineq1_le]).
    rewrite Hr at 2. apply Rmult_le_compat_l; lra.
  - intros Hne.
    assert (Hx : r / f <> 0).
    { intros E. apply Hne. rewrite Hr, E. ring. }
    assert (H : ln (1 + r / f) < r / f)
      by (apply ln_lt_of_lt_exp; [assumption | apply exp_ineq1, Hx]).
    rewrite Hr at 2. apply Rmult_lt_compat_l; lra.
Qed.

(** With one par rate [r] at every quote the discount factor of node
    [i] is [(1 + r/f)^(-i)] and every node carries the zero rate
    [f * ln(1 + r/f)]. *)
Lemma flat_bootstrap (df : list Quote) (nm : label) (f : Z) (r : R) :
  let N := round_half_even
             (last (map tenor_years (sorted_by tenor_years df)) 0 * IZR f) in
  df <> [] -> Forall (fun q => quote_rate q = r) df ->
  (0 < f)%Z -> (1 <= N)%Z -> 0 < 1 + r / IZR f ->
  exists c D,
    from_par_swap_dataframe df nm f = Ok c /\
    _discount_factors c = Some D /\
    List.length (_tenors c) = Z.to_nat N /\
    List.length (_rates c) = Z.to_nat N /\
    List.length D = Z.to_nat N /\
    forall i, (1 <= i <= Z.to_nat N)%nat ->
      nth (i - 1) (_tenors c) 0 = node_tenor f i /\
      nth (i - 1) D 0 = (/ (1 + r / IZR f)) ^ i /\
      nth (i - 1) (_rates c) 0 = IZR f * ln (1 + r / IZR f).
Proof.
  intros N Hdf Hflat Hf HN Hpos.
  destruct (bootstrap_nodes df nm f Hdf Hf HN)
    as [c [D [HOk [HD [_ [Hlt [Hlr [HlD [H1 Hi]]]]]]]]].
  fold N in Hlt, Hlr, HlD, Hi.
  assert (HF : 0 < IZR f) by (apply (IZR_lt 0), Hf).
  assert (Hr : forall x,
            np_interp x (map tenor_years (sorted_by tenor_years df))
                        (map quote_rate (sorted_by tenor_years df)) = r).
  { intros x. apply np_interp_const.
    - intros E. apply Hdf.
      apply (sorted_by_nil_iff tenor_years), (map_eq_nil tenor_years), E.
    - rewrite !length_map. reflexivity.
    - rewrite Forall_forall in *. intros y Hy.
      apply in_map_iff in Hy. destruct Hy as [q [<- Hq]].
      apply Hflat. apply (sorted_by_In tenor_years). exact Hq. }
  set (x := r / IZR f) in *.
  assert (Hx1 : 1 + x <> 0) by lra.
  assert (HDF : forall i, (1 <= i <= Z.to_nat N)%nat ->
            nth (i - 1) D 0 = (/ (1 + x)) ^ i).
  { intros i. induction i as [i IH] using (well_founded_induction lt_wf).
    intros Hrange. destruct (Nat.eq_dec i 1) as [->|Hne].
    - simpl Nat.sub. cbv zeta in H1. simpl Nat.sub in H1. rewrite H1, Hr.
      rewrite node_accrual_uniform by lia.
      replace (r * (1 / IZR f)) with x by (unfold x; field; lra).
      simpl pow. field. exact Hx1.
    - destruct (Hi i Hrange) as [_ [_ [_ [Hrec _]]]].
      cbv zeta in Hrec. rewrite (Hrec ltac:(lia)), Hr.
      rewrite node_accrual_uniform by lia.
      rewrite (sum_to_ext (i - 1) _ (fun j => 1 / IZR f * (/ (1 + x)) ^ j)).
      + pose proof (geometric_residual x (i - 1) Hx1) as G.
        assert (Hsum : sum_to (i - 1) (fun j => 1 / IZR f * (/ (1 + x)) ^ j)
                       = 1 / IZR f * sum_to (i - 1) (fun j => (/ (1 + x)) ^ j)).
        { clear. induction (i - 1)%nat as [|k IHk].
          - unfold sum_to. simpl. ring.
          - rewrite !sum_to_S, IHk. ring. }
        rewrite Hsum.
        replace (r * (1 / IZR f * sum_to (i - 1) (fun j => (/ (1 + x)) ^ j)))
          with (x * sum_to (i - 1) (fun j => (/ (1 + x)) ^ j))
          by (unfold x; field; lra).
        rewrite G.
        replace (r * (1 / IZR f)) with x by (unfold x; field; lra).
        replace i with (S (i - 1)) at 2 by lia. simpl pow.
        field. exact Hx1.
      + intros j Hj. rewrite node_accrual_uniform by lia.
        rewrite IH by lia. reflexivity. }
  exists c, D. repeat split; try assumption.
  - apply (Hi i H).
  - apply HDF, H.
  - destruct (Hi i H) as [_ [_ [_ [_ Hz]]]]. cbv zeta in Hz.
    rewrite Hz, (HDF i H).
    assert (Hq : 0 < / (1 + x)) by (apply Rinv_0_lt_compat; lra).
    rewrite ln_pow by exact Hq. rewrite ln_Rinv by lra.
    unfold node_tenor. rewrite INR_IZR_INZ.
    assert (HiR : 0 < IZR (Z.of_nat i)) by (apply (IZR_lt 0); lia).
    field. split; lra.
Qed.

(** A curve whose nodes all carry one rate returns it at every tenor. *)
Lemma zero_rate_const (c : ZeroCurve) (k t : R) :
  _tenors c <> [] -> List.length (_tenors c) = List.length (_rates c) ->
  Forall (fun z => z = k) (_rates c) -> zero_rate c t = k.
Proof.
  intros Hne Hlen Hall. rewrite Forall_forall in Hall.
  assert (Hr : _rates c <> []).
  { intros E. rewrite E in Hlen. destruct (_tenors c); [auto | discriminate]. }
  unfold zero_rate.
  destruct (Rle_dec t 0).
  - apply Hall. destruct (_rates c); [contradiction | left; reflexivity].
  - destruct (Rle_dec (last (_tenors c) 0) t).
    + apply Hall, last_In, Hr.
    + apply np_interp_const; auto. apply Forall_forall, Hall.
Qed.

(** C2 (as amended).  Bootstrapping one par rate [r] quoted at every
    tenor, with [1 + r/f > 0], gives the same zero rate at every grid
    node, namely [f * ln(1 + r/f)], the continuously compounded
    equivalent of [r] paid [f] times a year; it is at most [r] and
    strictly below [r] unless [r = 0]. *)
Theorem flat_bootstrap_zero_rates (df : list Quote) (nm : label) (f : Z)
    (r : R) :
  let N := round_half_even
             (last (map tenor_years (sorted_by tenor_years df)) 0 * IZR f) in
  df <> [] -> Forall (fun q => quote_rate q = r) df ->
  (0 < f)%Z -> (1 <= N)%Z -> 0 < 1 + r / IZR f ->
  exists c,
    from_par_swap_dataframe df nm f = Ok c /\
    List.length (zero_rates c) = Z.to_nat N /\
    (forall i, (1 <= i <= Z.to_nat N)%nat ->
       nth (i - 1) (tenors c) 0 = node_tenor f i /\
       nth (i - 1) (zero_rates c) 0 = IZR f * ln (1 + r / IZR f) /\
       zero_rate c (node_tenor f i) = IZR f * ln (1 + r / IZR f)) /\
    IZR f * ln (1 + r / IZR f) <= r /\
    (r <> 0 -> IZR f * ln (1 + r / IZR f) < r).
Proof.
  intros N Hdf Hflat Hf HN Hpos.
  destruct (flat_bootstrap df nm f r Hdf Hflat Hf HN Hpos)
    as [c [D [HOk [_ [Hlt [Hlr [_ Hi]]]]]]].
  fold N in Hlt, Hlr, Hi.
  assert (HF : 0 < IZR f) by (apply (IZR_lt 0), Hf).
  exists c. unfold zero_rates, tenors.
  split; [exact HOk|]. split; [exact Hlr|].
  split; [|apply compounding_gap; assumption].
  intros i Hrange. destruct (Hi i Hrange) as [Ht [_ Hz]].
  repeat split; try assumption.
  apply zero_rate_const.
  - intros E. rewrite E in Hlt. simpl in Hlt. lia.
  - lia.
  - rewrite Forall_forall. intros z Hz'.
    destruct (In_nth _ _ 0 Hz') as [k [Hk <-]].
    destruct (Hi (S k) ltac:(lia)) as [_ [_ Hzk]].
    replace (S k - 1)%nat with k in Hzk by lia. exact Hzk.
Qed.

Lemma flat_quotes_steps :
  round_half_even
    (last (map tenor_years (sorted_by tenor_years flat_quotes)) 0 * IZR 4)
  = 4%Z.
Proof.
  assert (E : sorted_by tenor_years flat_quotes = flat_quotes).
  { apply sorted_by_ascending_id. unfold ascending, flat_quotes.
    repeat constructor; simpl; lra. }
  rewrite E. simpl.
  replace (1 * 4) with (IZR 4) by lra. apply round_half_even_IZR.
Qed.

Lemma flat_quotes_flat :
  Forall (fun q => quote_rate q = 5 / 100) flat_quotes.
Proof. repeat constructor. Qed.

Lemma flat_bootstrap_zero_rates_witness :
  exists c,
    from_par_swap_dataframe flat_quotes (Named "flat") 4 = Ok c /\
    nth 0 (zero_rates c) 0 = IZR 4 * ln (1 + 5 / 100 / IZR 4).
Proof.
  destruct (flat_bootstrap_zero_rates flat_quotes (Named "flat") 4 (5 / 100))
    as [c [HOk [_ [Hi _]]]].
  - discriminate.
  - exact flat_quotes_flat.
  - lia.
  - rewrite flat_quotes_steps. lia.
  - lra.
  - rewrite flat_quotes_steps in Hi.
    exists c. split; [exact HOk|].
    apply (Hi 1%nat). simpl. lia.
Defined.

(** C2 as stated fails: the flat par rate 5% quoted from three months
    to one year and bootstrapped quarterly gives, at the first node, a
    zero rate more than [1e-9] away from 5% (it is 4 ln 1.0125, about
    4.969%). *)
Lemma flat_bootstrap_not_par_rate :
  exists c,
    from_par_swap_dataframe flat_quotes (Named "flat") 4 = Ok c /\
    1 / 1000000000 < Rabs (nth 0 (zero_rates c) 0 - 5 / 100).
Proof.
  destruct (flat_bootstrap flat_quotes (Named "flat") 4 (5 / 100))
    as [c [D [HOk [_ [_ [_ [_ Hi]]]]]]].
  - discriminate.
  - exact flat_quotes_flat.
  - lia.
  - rewrite flat_quotes_steps. lia.
  - lra.
  - rewrite flat_quotes_steps in Hi.
    destruct (Hi 1%nat ltac:(simpl; lia)) as [_ [_ Hz]].
    simpl Nat.sub in Hz.
    exists c. split; [exact HOk|]. unfold zero_rates. rewrite Hz.
    set (y := 125 / 10000 - 1 / 4000000000).
    assert (Hln : ln (1 + 5 / 100 / 4) < y).
    { apply ln_lt_of_lt_exp; [lra|].
      replace y with (y / 2 + y / 2) by lra. rewrite exp_plus.
      pose proof (exp_ineq1_le (y / 2)) as He.
      assert (Hy : 0 < 1 + y / 2) by (unfold y; lra).
      apply Rlt_le_trans with ((1 + y / 2) * (1 + y / 2)).
      - unfold y. lra.
      - apply Rmult_le_compat; lra. }
    rewrite Rabs_left; unfold y in Hln; lra.
Qed.

(** ** Monotone interpolation *)

Lemma chord_bounds (x x0 x1 y0 y1 : R) :
  x0 <= x < x1 -> y0 <= y1 ->
  y0 <= (y1 - y0) / (x1 - x0) * (x - x0) + y0 <= y1.
Proof.
  intros Hx Hy.
  assert (Hd : 0 < x1 - x0) by lra.
  set (u := (x - x0) / (x1 - x0)).
  assert (Hu : 0 <= u < 1).
  { unfold u. split.
    - apply Rmult_le_pos; [lra | left; apply Rinv_0_lt_compat, Hd].
    - apply Rmult_lt_reg_r with (x1 - x0); [exact Hd|].
      unfold Rdiv. rewrite Rmult_assoc, Rinv_l by lra. lra. }
  replace ((y1 - y0) / (x1 - x0) * (x - x0)) with ((y1 - y0) * u)
    by (unfold u; field; lra).
  split; nra.
Qed.

Lemma chord_mono (x x' x0 x1 y0 y1 : R) :
  x0 <= x -> x <= x' -> x' < x1 -> y0 <= y1 ->
  (y1 - y0) / (x1 - x0) * (x - x0) + y0
  <= (y1 - y0) / (x1 - x0) * (x' - x0) + y0.
Proof.
  intros H0 Hxx H1 Hy.
  assert (Hs : 0 <= (y1 - y0) / (x1 - x0)).
  { apply Rmult_le_pos; [lra | left; apply Rinv_0_lt_compat; lra]. }
  apply Rplus_le_compat_r, Rmult_le_compat_l; lra.
Qed.

Lemma ascending_cons_inv (y0 y1 : R) (fp : list R) :
  ascending (fun t => t) (y0 :: y1 :: fp) ->
  y0 <= y1 /\ ascending (fun t => t) (y1 :: fp).
Proof.
  intros H. inversion H as [|? ? Hs Hall]; subst.
  inversion Hall; subst. split; assumption.
Qed.

Lemma interp_from_bounds (x : R) (xp fp : list R) (x0 y0 : R) :
  x0 <= x -> ascending (fun t => t) (y0 :: fp) ->
  y0 <= interp_from x x0 y0 xp fp <= last (y0 :: fp) 0.
Proof.
  revert fp x0 y0. induction xp as [|x1 xp IH]; intros fp x0 y0 Hx Hasc.
  - simpl interp_from.
    split; [lra | apply ascending_le_last; [exact Hasc | left; reflexivity]].
  - destruct fp as [|y1 fp].
    + simpl. lra.
    + destruct (ascending_cons_inv y0 y1 fp Hasc) as [Hy Hasc'].
      assert (Hl : y1 <= last (y1 :: fp) 0)
        by (apply ascending_le_last; [exact Hasc' | left; reflexivity]).
      change (last (y0 :: y1 :: fp) 0) with (last (y1 :: fp) 0).
      simpl interp_from. destruct (Rle_dec x1 x) as [H1|H1].
      * destruct (IH fp x1 y1 H1 Hasc'). lra.
      * destruct (chord_bounds x x0 x1 y0 y1); lra.
Qed.

Lemma interp_from_mono (x x' : R) (xp fp : list R) (x0 y0 : R) :
  x0 <= x -> x <= x' -> ascending (fun t => t) (y0 :: fp) ->
  interp_from x x0 y0 xp fp <= interp_from x' x0 y0 xp fp.
Proof.
  revert fp x0 y0. induction xp as [|x1 xp IH]; intros fp x0 y0 H0 Hxx Hasc.
  - simpl. lra.
  - destruct fp as [|y1 fp]; [simpl; lra|].
    destruct (ascending_cons_inv y0 y1 fp Hasc) as [Hy Hasc'].
    simpl interp_from.
    destruct (Rle_dec x1 x) as [H1|H1]; destruct (Rle_dec x1 x') as [H2|H2].
    + apply IH; assumption.
    + lra.
    + destruct (chord_bounds x x0 x1 y0 y1); try lra.
      destruct (interp_from_bounds x' xp fp x1 y1 H2 Hasc'). lra.
    + apply chord_mono; lra.
Qed.

(** Interpolating non-decreasing values gives a non-decreasing
    function that stays between the first and the last value. *)
Lemma np_interp_mono (x x' : R) (xp fp : list R) :
  x <= x' -> ascending (fun t => t) fp ->
  np_interp x xp fp <= np_interp x' xp fp.
Proof.
  intros Hxx Hasc. destruct xp as [|x0 xp]; [simpl; lra|].
  destruct fp as [|y0 fp]; [simpl; lra|].
  simpl np_interp.
  destruct (Rlt_dec x x0) as [H1|H1]; destruct (Rlt_dec x' x0) as [H2|H2].
  - lra.
  - destruct (interp_from_bounds x' xp fp x0 y0); [lra | assumption | lra].
  - lra.
  - apply interp_from_mono; [lra | assumption | assumption].
Qed.

Lemma np_interp_bounds (x : R) (xp fp : list R) :
  xp <> [] -> fp <> [] -> ascending (fun t => t) fp ->
  hd 0 fp <= np_interp x xp fp <= last fp 0.
Proof.
  intros Hx Hf Hasc. destruct xp as [|x0 xp]; [contradiction|].
  destruct fp as [|y0 fp]; [contradiction|].
  simpl hd. simpl np_interp. destruct (Rlt_dec x x0).
  - split; [lra | apply ascending_le_last; [exact Hasc | left; reflexivity]].
  - apply interp_from_bounds; [lra | assumption].
Qed.

Lemma interp_from_opp (x : R) (xp fp : list R) (x0 y0 : R) :
  interp_from x x0 (- y0) xp (map Ropp fp) = - interp_from x x0 y0 xp fp.
Proof.
  revert fp x0 y0. induction xp as [|x1 xp IH]; intros [|y1 fp] x0 y0;
    simpl; try reflexivity.
  destruct (Rle_dec x1 x); [apply IH|]. unfold Rdiv. ring.
Qed.

Lemma np_interp_opp (x : R) (xp fp : list R) :
  np_interp x xp (map Ropp fp) = - np_interp x xp fp.
Proof.
  destruct xp as [|x0 xp]; [simpl; lra|].
  destruct fp as [|y0 fp]; [simpl; lra|].
  simpl. destruct (Rlt_dec x x0); [reflexivity | apply interp_from_opp].
Qed.

Lemma descending_opp (l : list R) :
  descending l -> ascending (fun t => t) (map Ropp l).
Proof.
  unfold descending, ascending.
  induction 1 as [|x l Hs IH Hall]; simpl; constructor; auto.
  rewrite Forall_forall in *. intros y Hy.
  apply in_map_iff in Hy. destruct Hy as [z [<- Hz]].
  specialize (Hall z Hz). lra.
Qed.

(** Interpolating non-increasing values gives a non-increasing
    function that stays between the last and the first value. *)
Lemma np_interp_antitone (x x' : R) (xp fp : list R) :
  x <= x' -> descending fp -> np_interp x' xp fp <= np_interp x xp fp.
Proof.
  intros Hxx Hd.
  pose proof (np_interp_mono x x' xp (map Ropp fp) Hxx (descending_opp fp Hd))
    as H.
  rewrite !np_interp_opp in H. lra.
Qed.

Lemma np_interp_bounds_desc (x : R) (xp fp : list R) :
  xp <> [] -> fp <> [] -> descending fp ->
  last fp 0 <= np_interp x xp fp <= hd 0 fp.
Proof.
  intros Hx Hf Hd.
  assert (Hf' : map Ropp fp <> [])
    by (destruct fp; [contradiction | discriminate]).
  pose proof (np_interp_bounds x xp (map Ropp fp) Hx Hf' (descending_opp fp Hd))
    as H.
  rewrite np_interp_opp in H.
  assert (Hh : hd 0 (map Ropp fp) = - hd 0 fp)
    by (destruct fp; [contradiction | reflexivity]).
  assert (Hl : last (map Ropp fp) 0 = - last fp 0).
  { clear -Hf. induction fp as [|y fp IH]; [contradiction|].
    destruct fp as [|z fp]; [reflexivity|].
    change (last (map Ropp (y :: z :: fp)) 0)
      with (last (map Ropp (z :: fp)) 0).
    rewrite IH by discriminate. reflexivity. }
  rewrite Hh, Hl in H. lra.
Qed.

(** ** [ZeroCurve.discount_factor] *)

Lemma exp_le_mono (x y : R) : x <= y -> exp x <= exp y.
Proof.
  intros [H|H]; [left; apply exp_increasing, H | right; rewrite H; reflexivity].
Qed.

Lemma ln_le_mono (x y : R) : 0 < x -> x <= y -> ln x <= ln y.
Proof.
  intros Hx [H|H]; [left; apply ln_increasing; assumption |
                    right; rewrite H; reflexivity].
Qed.

Lemma discount_factor_nonpositive (c : ZeroCurve) (t : R) :
  t <= 0 -> discount_factor c t = 1.
Proof.
  intros H. unfold discount_factor.
  destruct (Rle_dec t 0); [reflexivity | contradiction].
Qed.

(** On a well-formed curve [zero_rate] is the interpolation of the
    nodes at every tenor: the two early returns agree with it. *)
Lemma zero_rate_interp (c : ZeroCurve) (t : R) :
  wf_curve c -> zero_rate c t = np_interp t (_tenors c) (_rates c).
Proof.
  intros [Hne [Hlen [Hasc [Hpos _]]]]. unfold zero_rate.
  destruct (Rle_dec t 0) as [H0|H0].
  - destruct (_tenors c) as [|x0 xp]; [contradiction|].
    destruct (_rates c) as [|y0 fp]; [discriminate|].
    inversion Hpos; subst. simpl. destruct (Rlt_dec t x0); [reflexivity | lra].
  - destruct (Rle_dec (last (_tenors c) 0) t) as [H1|H1]; [|reflexivity].
    symmetry. apply np_interp_right; auto.
Qed.

(** Without cached discount factors: rates that are non-negative and
    do not fall with the tenor give non-increasing discount factors. *)
Lemma discount_factor_antitone_uncached (c : ZeroCurve) (t1 t2 : R) :
  wf_curve c -> _discount_factors c = None ->
  Forall (fun r => 0 <= r) (_rates c) ->
  ascending (fun r => r) (_rates c) ->
  t1 <= t2 -> discount_factor c t2 <= discount_factor c t1.
Proof.
  intros Hwf Hnone Hnn Hasc Ht.
  assert (Hz : forall t, 0 <= zero_rate c t).
  { intros t. rewrite zero_rate_interp by exact Hwf.
    destruct Hwf as [Hne [Hlen _]].
    assert (Hr : _rates c <> []).
    { intros E. rewrite E in Hlen. destruct (_tenors c); [auto|discriminate]. }
    destruct (np_interp_bounds t (_tenors c) (_rates c) Hne Hr Hasc) as [Hlo _].
    assert (0 <= hd 0 (_rates c)).
    { destruct (_rates c) as [|y0 fp]; [contradiction|].
      inversion Hnn; subst. assumption. }
    lra. }
  assert (Hm : zero_rate c t1 <= zero_rate c t2).
  { rewrite !zero_rate_interp by exact Hwf. apply np_interp_mono; assumption. }
  unfold discount_factor. rewrite Hnone.
  destruct (Rle_dec t1 0) as [H1|H1]; destruct (Rle_dec t2 0) as [H2|H2].
  - lra.
  - rewrite <- exp_0. apply exp_le_mono.
    pose proof (Hz t2). nra.
  - lra.
  - apply exp_le_mono. pose proof (Hz t1). nra.
Qed.

Lemma descending_hd_ge (l : list R) (y : R) :
  descending l -> In y l -> y <= hd 0 l.
Proof.
  intros Hd Hy. destruct l as [|x l]; [contradiction|].
  inversion Hd as [|? ? _ Hall]; subst. simpl.
  destruct Hy as [->|Hy]; [lra|].
  rewrite Forall_forall in Hall. auto.
Qed.

Lemma descending_map_ln (l : list R) :
  Forall (fun d => 0 < d) l -> descending l -> descending (map ln l).
Proof.
  unfold descending. intros Hpos Hd.
  induction Hd as [|x l Hs IH Hall]; simpl; constructor.
  - apply IH. inversion Hpos; assumption.
  - inversion Hpos as [|? ? Hx Hl]; subst.
    rewrite Forall_forall in *. intros y Hy.
    apply in_map_iff in Hy. destruct Hy as [z [<- Hz]].
    apply ln_le_mono; auto.
Qed.

Lemma last_map_ln (l : list R) :
  l <> [] -> last (map ln l) 0 = ln (last l 0).
Proof.
  induction l as [|x l IH]; intros H; [contradiction|].
  destruct l as [|y l]; [reflexivity|].
  change (last (map ln (x :: y :: l)) 0) with (last (map ln (y :: l)) 0).
  rewrite IH by discriminate. reflexivity.
Qed.

(** With cached discount factors: when the cache is positive and
    non-increasing, starts at or below [exp(-r_0 t_0)], and the first
    and the last rate are non-negative, the discount factor does not
    increase with the tenor. *)
Lemma discount_factor_antitone_cached (c : ZeroCurve) (dfs : list R)
    (t1 t2 : R) :
  wf_curve c -> _discount_factors c = Some dfs ->
  0 <= hd 0 (_rates c) -> 0 <= last (_rates c) 0 ->
  Forall (fun d => 0 < d) dfs -> descending dfs ->
  hd 0 dfs <= exp (- hd 0 (_rates c) * hd 0 (_tenors c)) ->
  t1 <= t2 -> discount_factor c t2 <= discount_factor c t1.
Proof.
  intros [Hne [Hlen [Hasc [Hpos Hcache]]]] Hsome Hr0 Hrl Hdpos Hdesc Hd0 Ht.
  specialize (Hcache dfs Hsome).
  assert (Hdne : dfs <> []).
  { intros E. rewrite E in Hcache. destruct (_tenors c); [auto|discriminate]. }
  assert (Ht0 : 0 < hd 0 (_tenors c)).
  { destruct (_tenors c); [contradiction|]. inversion Hpos; assumption. }
  rewrite Forall_forall in Hdpos.
  assert (Hdl : 0 < last dfs 0) by (apply Hdpos, last_In, Hdne).
  assert (Hdh : 0 < hd 0 dfs).
  { apply Hdpos. destruct dfs; [contradiction | left; reflexivity]. }
  assert (Hlh : last dfs 0 <= hd 0 dfs)
    by (apply descending_hd_ge; [assumption | apply last_In, Hdne]).
  assert (Hln : descending (map ln dfs))
    by (apply descending_map_ln; [apply Forall_forall, Hdpos | assumption]).
  assert (Hlnne : map ln dfs <> [])
    by (destruct dfs; [contradiction | discriminate]).
  assert (HC : forall t,
            last dfs 0 <= exp (np_interp t (_tenors c) (map ln dfs))
            <= hd 0 dfs).
  { intros t.
    destruct (np_interp_bounds_desc t (_tenors c) (map ln dfs) Hne Hlnne Hln)
      as [Hlo Hhi].
    rewrite last_map_ln in Hlo by exact Hdne.
    assert (Hh : hd 0 (map ln dfs) = ln (hd 0 dfs))
      by (destruct dfs; [contradiction | reflexivity]).
    rewrite Hh in Hhi.
    apply exp_le_mono in Hlo. apply exp_le_mono in Hhi.
    rewrite exp_ln in Hlo, Hhi by assumption. lra. }
  assert (HCm : forall t t', t <= t' ->
            exp (np_interp t' (_tenors c) (map ln dfs))
            <= exp (np_interp t (_tenors c) (map ln dfs))).
  { intros t t' Htt. apply exp_le_mono, np_interp_antitone; assumption. }
  assert (HBm : forall t t', t <= t' ->
            exp (- hd 0 (_rates c) * t') <= exp (- hd 0 (_rates c) * t)).
  { intros t t' Htt. apply exp_le_mono. nra. }
  assert (HB1 : forall t, 0 <= t -> exp (- hd 0 (_rates c) * t) <= 1).
  { intros t H0. rewrite <- exp_0. apply exp_le_mono. nra. }
  assert (HDm : forall t t', t <= t' ->
            last dfs 0 * exp (- last (_rates c) 0 * (t' - last (_tenors c) 0))
            <= last dfs 0
               * exp (- last (_rates c) 0 * (t - last (_tenors c) 0))).
  { intros t t' Htt. apply Rmult_le_compat_l; [lra|].
    apply exp_le_mono. nra. }
  assert (HD1 : forall t, last (_tenors c) 0 <= t ->
            last dfs 0 * exp (- last (_rates c) 0 * (t - last (_tenors c) 0))
            <= last dfs 0).
  { intros t Htl.
    assert (exp (- last (_rates c) 0 * (t - last (_tenors c) 0)) <= 1)
      by (rewrite <- exp_0; apply exp_le_mono; nra).
    nra. }
  unfold discount_factor. rewrite Hsome. cbv zeta.
  pose proof (HC t1) as C1. pose proof (HC t2) as C2.
  pose proof (HCm t1 t2 Ht) as Cm.
  pose proof (HBm t1 t2 Ht) as Bm.
  pose proof (HDm t1 t2 Ht) as Dm.
  pose proof (HB1 (hd 0 (_tenors c)) ltac:(lra)) as B0.
  destruct (Rle_dec t1 0) as [A1|A1]; destruct (Rle_dec t2 0) as [A2|A2];
    try lra;
    destruct (Rle_dec t1 (hd 0 (_tenors c))) as [B1|B1];
    destruct (Rle_dec t2 (hd 0 (_tenors c))) as [B2|B2];
    try lra;
    destruct (Rle_dec (last (_tenors c) 0) t1) as [D1|D1];
    destruct (Rle_dec (last (_tenors c) 0) t2) as [D2|D2];
    try lra;
    try (pose proof (HB1 t2 ltac:(lra)));
    try (pose proof (HBm t1 (hd 0 (_tenors c)) ltac:(lra)));
    try (pose proof (HD1 t2 ltac:(lra)));
    lra.
Qed.

Lemma Forall_hd_last (P : R -> Prop) (l : list R) :
  l <> [] -> Forall P l -> P (hd 0 l) /\ P (last l 0).
Proof.
  intros Hne Hall. rewrite Forall_forall in Hall. split.
  - apply Hall. destruct l; [contradiction | left; reflexivity].
  - apply Hall, last_In, Hne.
Qed.

(** C4 (as amended).  [discount_factor(0)] is 1 on every curve.  The
    discount factor is non-increasing in the tenor on a curve with
    non-negative zero rates provided that, without cached discount
    factors, the rates do not fall with the tenor, and that, with
    cached discount factors, the cache is positive, non-increasing and
    starts at or below [exp(-r_0 t_0)]. *)
Theorem discount_factor_monotone (c : ZeroCurve) :
  discount_factor c 0 = 1 /\
  (wf_curve c -> _discount_factors c = None ->
   Forall (fun r => 0 <= r) (zero_rates c) ->
   ascending (fun r => r) (zero_rates c) ->
   forall t1 t2, t1 <= t2 -> discount_factor c t2 <= discount_factor c t1) /\
  (wf_curve c -> forall dfs, _discount_factors c = Some dfs ->
   Forall (fun r => 0 <= r) (zero_rates c) ->
   Forall (fun d => 0 < d) dfs -> descending dfs ->
   hd 0 dfs <= exp (- hd 0 (zero_rates c) * hd 0 (tenors c)) ->
   forall t1 t2, t1 <= t2 -> discount_factor c t2 <= discount_factor c t1).
Proof.
  unfold zero_rates, tenors. split; [|split].
  - apply discount_factor_nonpositive. lra.
  - intros Hwf Hnone Hnn Hasc t1 t2 Ht.
    apply discount_factor_antitone_uncached; assumption.
  - intros Hwf dfs Hsome Hnn Hdpos Hdesc Hd0 t1 t2 Ht.
    assert (Hr : _rates c <> []).
    { destruct Hwf as [Hne [Hlen _]]. intros E. rewrite E in Hlen.
      destruct (_tenors c); [auto | discriminate]. }
    destruct (Forall_hd_last _ _ Hr Hnn) as [Hh Hl].
    apply (discount_factor_antitone_cached c dfs); assumption.
Qed.

Lemma flat_curve_wf : wf_curve flat_curve.
Proof.
  unfold wf_curve, flat_curve, ascending; simpl.
  repeat split; try discriminate; repeat constructor; lra.
Qed.

Lemma flat_cached_curve_wf : wf_curve flat_cached_curve.
Proof.
  unfold wf_curve, flat_cached_curve, ascending; simpl.
  repeat split; try discriminate; repeat constructor; try lra.
  intros dfs H. inversion H; subst. reflexivity.
Qed.

Lemma flat_curve_positive : positive_cache flat_curve.
Proof. intros dfs H. discriminate. Qed.

Lemma flat_curve_df_one : 0 < discount_factor flat_curve 1.
Proof.
  apply discount_factor_positive;
    [exact flat_curve_wf | exact flat_curve_positive].
Qed.

Lemma discount_factor_monotone_witness :
  discount_factor flat_curve 2 <= discount_factor flat_curve 1 /\
  discount_factor flat_cached_curve 2 <= discount_factor flat_cached_curve 1.
Proof.
  split.
  - apply (proj1 (proj2 (discount_factor_monotone flat_curve))).
    + exact flat_curve_wf.
    + reflexivity.
    + simpl. repeat constructor; lra.
    + unfold ascending. simpl. repeat constructor; lra.
    + lra.
  - apply (proj2 (proj2 (discount_factor_monotone flat_cached_curve))
             flat_cached_curve_wf
             [exp (- (5 / 100) * 1); exp (- (5 / 100) * 2)]).
    + reflexivity.
    + simpl. repeat constructor; lra.
    + repeat constructor; apply exp_pos.
    + unfold descending.
      constructor; [constructor; constructor|].
      constructor; [apply exp_le_mono; lra | constructor].
    + simpl. right. reflexivity.
    + lra.
Defined.

Lemma steep_curve_init :
  ZeroCurve_init steep_points (Named "steep") None = Ok steep_curve.
Proof.
  assert (E : sorted_by tenor steep_points = steep_points).
  { apply sorted_by_ascending_id. unfold ascending, steep_points.
    repeat constructor; simpl; lra. }
  rewrite ZeroCurve_init_positive.
  - rewrite E. reflexivity.
  - discriminate.
  - intros p [<-|[<-|[]]]; simpl; lra.
Qed.

(** C4 as stated fails: the curve with the nodes (1y, 10%) and
    (2y, 1%) has non-negative zero rates, and its discount factor at two
    years, [exp(-0.02)], is larger than the one at one year,
    [exp(-0.10)]. *)
Lemma steep_curve_discount_factor_increases :
  ZeroCurve_init steep_points (Named "steep") None = Ok steep_curve /\
  Forall (fun r => 0 <= r) (zero_rates steep_curve) /\
  1 <= 2 /\
  discount_factor steep_curve 1 < discount_factor steep_curve 2.
Proof.
  split; [exact steep_curve_init|].
  split; [simpl; repeat constructor; lra|].
  split; [lra|].
  unfold discount_factor, zero_rate, steep_curve; simpl.
  destruct (Rle_dec 1 0); [lra|].
  destruct (Rle_dec 2 0); [lra|].
  destruct (Rle_dec 2 1); [lra|].
  destruct (Rle_dec 2 2); [|lra].
  destruct (Rlt_dec 1 1); [lra|].
  apply exp_increasing.
  replace ((1 / 100 - 10 / 100) / (2 - 1) * (1 - 1) + 10 / 100)
    with (10 / 100) by field.
  lra.
Qed.

(** ** The calendar *)

Local Open Scope Z_scope.

Lemma days_in_month_bounds (y m : Z) : 28 <= days_in_month y m <= 31.
Proof.
  unfold days_in_month.
  destruct (m =? 2); [destruct (is_leap y); lia|].
  destruct ((m =? 4) || (m =? 6) || (m =? 9) || (m =? 11))%bool; lia.
Qed.

Lemma valid_month_day_inv (d : date) :
  valid_month_day d = true ->
  1 <= month d <= 12 /\ 1 <= day d <= days_in_month (year d) (month d).
Proof.
  unfold valid_month_day. rewrite !andb_true_iff, !Z.leb_le. tauto.
Qed.

(** Adding months moves the month index by that much, keeps the month
    in range and lowers the day by at most what the shortest month
    forces. *)
Lemma add_months_index (d : date) (k : Z) :
  1 <= month d <= 12 ->
  month_index (add_months d k) = month_index d + k /\
  1 <= month (add_months d k) <= 12 /\
  Z.min (day d) 28 <= day (add_months d k) <= day d.
Proof.
  intros Hm. unfold month_index, add_months. cbn [year month day].
  set (idx := year d * 12 + (month d - 1) + k).
  pose proof (Z.div_mod idx 12 ltac:(lia)) as Hdm.
  pose proof (Z.mod_pos_bound idx 12 ltac:(lia)) as Hb.
  pose proof (days_in_month_bounds (idx / 12) (idx mod 12 + 1)) as Hd.
  repeat split; lia.
Qed.

Lemma add_months_valid (d : date) (k : Z) :
  valid_month_day d = true -> valid_month_day (add_months d k) = true.
Proof.
  intros Hv. destruct (valid_month_day_inv d Hv) as [Hm Hd].
  destruct (add_months_index d k Hm) as [_ [Hm' Hd']].
  unfold valid_month_day. rewrite !andb_true_iff, !Z.leb_le.
  repeat split; try lia.
  unfold add_months. cbn [year month day]. lia.
Qed.

(** A date is determined by its month index, when the month is in
    range, and its day. *)
Lemma date_of_index (d : date) :
  1 <= month d <= 12 ->
  year d = month_index d / 12 /\ month d = month_index d mod 12 + 1.
Proof.
  intros Hm. unfold month_index.
  pose proof (Z.div_mod (year d * 12 + (month d - 1)) 12 ltac:(lia)) as Hdm.
  pose proof (Z.mod_pos_bound (year d * 12 + (month d - 1)) 12 ltac:(lia)).
  lia.
Qed.

Lemma add_months_0 (d : date) :
  valid_month_day d = true -> add_months d 0 = d.
Proof.
  intros Hv. destruct (valid_month_day_inv d Hv) as [Hm Hd].
  destruct (date_of_index d Hm) as [Hy Hmo].
  unfold add_months. rewrite Z.add_0_r. fold (month_index d).
  rewrite <- Hy, <- Hmo. destruct d as [y m dd]; cbn [year month day] in *.
  f_equal. lia.
Qed.

(** Without capping, months add up. *)
Lemma add_months_add (d : date) (a b : Z) :
  1 <= month d <= 12 -> day d <= 28 ->
  add_months (add_months d a) b = add_months d (a + b).
Proof.
  intros Hm Hd.
  destruct (add_months_index d a Hm) as [Hi [Hm' Hd']].
  unfold add_months at 1 3.
  fold (month_index (add_months d a)). rewrite Hi.
  replace (month_index d + a + b) with (year d * 12 + (month d - 1) + (a + b))
    by (unfold month_index; lia).
  set (idx := year d * 12 + (month d - 1) + (a + b)).
  pose proof (days_in_month_bounds (idx / 12) (idx mod 12 + 1)).
  f_equal. lia.
Qed.

Lemma iter_add_months_mul (n : nat) (d : date) (step : Z) :
  valid_month_day d = true -> day d <= 28 ->
  iter_add_months n d step = add_months d (Z.of_nat n * step).
Proof.
  revert d. induction n as [|n IH]; intros d Hv Hd.
  - simpl. symmetry. apply add_months_0, Hv.
  - destruct (valid_month_day_inv d Hv) as [Hm _].
    destruct (add_months_index d step Hm) as [_ [_ Hd']].
    cbn [iter_add_months]. rewrite IH.
    + rewrite add_months_add by assumption. f_equal. lia.
    + apply add_months_valid, Hv.
    + lia.
Qed.

Lemma iter_add_months_index (n : nat) (d : date) (step : Z) :
  1 <= month d <= 12 ->
  month_index (iter_add_months n d step) = month_index d + Z.of_nat n * step /\
  1 <= month (iter_add_months n d step) <= 12 /\
  Z.min (day d) 28 <= day (iter_add_months n d step) <= day d.
Proof.
  revert d. induction n as [|n IH]; intros d Hm.
  - simpl. lia.
  - destruct (add_months_index d step Hm) as [Hi [Hm' Hd']].
    destruct (IH (add_months d step) Hm') as [Hi2 [Hm2 Hd2]].
    cbn [iter_add_months]. lia.
Qed.

(** A later month is a later date, whatever the days. *)
Lemma add_months_later (d : date) (k : Z) :
  1 <= month d <= 12 -> 1 <= k -> date_ltb d (add_months d k) = true.
Proof.
  intros Hm Hk.
  destruct (add_months_index d k Hm) as [Hi [Hm' _]].
  unfold month_index in Hi. unfold date_ltb.
  rewrite !orb_true_iff, !andb_true_iff, !Z.ltb_lt, !Z.eqb_eq. lia.
Qed.

Lemma is_leap_spec (y : Z) :
  days_before_year (y + 1) - days_before_year y
  = 365 + (if is_leap y then 1 else 0).
Proof.
  unfold days_before_year, is_leap.
  replace (y + 1 - 1) with y by lia.
  destruct (Z.eqb_spec (y mod 4) 0); destruct (Z.eqb_spec (y mod 100) 0);
    destruct (Z.eqb_spec (y mod 400) 0); cbn [negb andb orb];
    Z.div_mod_to_equations; lia.
Qed.

Lemma div_step4 (p : Z) : 1 <= (p + 5) / 4 - p / 4 <= 2.
Proof. Z.div_mod_to_equations; lia. Qed.

Lemma div_step100 (p : Z) : 0 <= (p + 5) / 100 - p / 100 <= 1.
Proof. Z.div_mod_to_equations; lia. Qed.

Lemma div_step400 (p : Z) :
  0 <= (p + 5) / 400 - p / 400 <= (p + 5) / 100 - p / 100.
Proof. Z.div_mod_to_equations; lia. Qed.

(** Five calendar years hold 1825 days and at most two leap days. *)
Lemma five_years (y : Z) :
  1825 <= days_before_year (y + 5) - days_before_year y <= 1827.
Proof.
  unfold days_before_year. replace (y + 5 - 1) with (y - 1 + 5) by lia.
  pose proof (div_step4 (y - 1)). pose proof (div_step100 (y - 1)).
  pose proof (div_step400 (y - 1)). lia.
Qed.

Lemma days_before_month_leap (y m : Z) :
  1 <= m <= 12 ->
  days_before_month y m
  = days_before_month 1 m
    + (if m <=? 2 then 0 else if is_leap y then 1 else 0).
Proof.
  intros Hm.
  assert (H : m = 1 \/ m = 2 \/ m = 3 \/ m = 4 \/ m = 5 \/ m = 6 \/ m = 7 \/
              m = 8 \/ m = 9 \/ m = 10 \/ m = 11 \/ m = 12) by lia.
  repeat (destruct H as [->|H];
          [unfold days_before_month; simpl; destruct (is_leap y); reflexivity|]).
  subst. unfold days_before_month; simpl. destruct (is_leap y); reflexivity.
Qed.

(** The same month five years on starts between 1825 and 1827 days
    later. *)
Lemma month_start_5y (y m : Z) :
  1 <= m <= 12 ->
  1825 <= (days_before_year (y + 5) + days_before_month (y + 5) m)
          - (days_before_year y + days_before_month y m) <= 1827.
Proof.
  intros Hm.
  rewrite (days_before_month_leap y m Hm),
          (days_before_month_leap (y + 5) m Hm).
  pose proof (five_years y) as H0.
  pose proof (five_years (y + 1)) as H1.
  pose proof (is_leap_spec y) as L0.
  pose proof (is_leap_spec (y + 5)) as L5.
  replace (y + 1 + 5) with (y + 5 + 1) in H1 by lia.
  destruct (m <=? 2); destruct (is_leap y); destruct (is_leap (y + 5)); lia.
Qed.

(** A date in the same month five years on, with the day lowered by
    at most three, lies between 1822 and 1827 days later. *)
Lemma span_5y (s e : date) :
  valid_month_day s = true ->
  month_index e = month_index s + 60 -> 1 <= month e <= 12 ->
  Z.min (day s) 28 <= day e <= day s ->
  1822 <= days_between s e <= 1827.
Proof.
  intros Hv Hi Hm' Hd'. destruct (valid_month_day_inv s Hv) as [Hm Hd].
  pose proof (days_in_month_bounds (year s) (month s)) as Hdim.
  assert (He : year e = year s + 5 /\ month e = month s).
  { unfold month_index in Hi. lia. }
  destruct He as [Hy Hmo].
  unfold days_between, toordinal. rewrite Hy, Hmo.
  pose proof (month_start_5y (year s) (month s) Hm). lia.
Qed.

(** Twenty quarterly steps from a valid date lead to such a date. *)
Lemma quarterly_5y_days (s : date) :
  valid_month_day s = true ->
  1822 <= days_between s (iter_add_months 20 s 3) <= 1827.
Proof.
  intros Hv. destruct (valid_month_day_inv s Hv) as [Hm Hd].
  destruct (iter_add_months_index 20 s 3 Hm) as [Hi [Hm' Hd']].
  apply span_5y; assumption.
Qed.

(** The days of consecutive periods add up to the days between the
    first start and the last end. *)
Lemma total_days_telescope (n : nat) (s : date) (step : Z) :
  total_days (period_dates n s step)
  = days_between s (iter_add_months n s step).
Proof.
  revert s. induction n as [|n IH]; intros s.
  - unfold total_days, days_between. simpl. lia.
  - unfold total_days in *. cbn [period_dates iter_add_months map fold_right fst snd].
    rewrite IH. unfold days_between. lia.
Qed.

Lemma period_dates_length (n : nat) (s : date) (step : Z) :
  List.length (period_dates n s step) = n.
Proof. revert s; induction n; intros s; simpl; auto. Qed.

Lemma period_dates_increasing (n : nat) (s : date) (step : Z) :
  1 <= month s <= 12 -> 1 <= step ->
  increasing_dates (map snd (period_dates n s step)) = true.
Proof.
  intros Hm Hstep. revert s Hm. induction n as [|n IH]; intros s Hm.
  - reflexivity.
  - destruct (add_months_index s step Hm) as [_ [Hm' _]].
    specialize (IH (add_months s step) Hm').
    destruct n as [|n]; [reflexivity|].
    cbn [period_dates map snd] in *. cbn [increasing_dates].
    rewrite (add_months_later _ step Hm' Hstep). exact IH.
Qed.

Local Close Scope Z_scope.

(** ** [generate_schedule] *)

Lemma year_fraction_act (a b : date) :
  year_fraction a b "ACT/365" = Ok (actual_365 a b).
Proof. reflexivity. Qed.

Lemma year_fraction_supported (a b : date) (dc : string)
    (func : date -> date -> R) :
  DAYCOUNT_FUNCTIONS (upper dc) = Some func ->
  year_fraction a b dc = Ok (func a b).
Proof. intros H. unfold year_fraction. rewrite H. reflexivity. Qed.

(** With a supported convention the loop returns the periods over the
    dates of [period_dates]. *)
Lemma schedule_loop_Ok (n : nat) (s : date) (step : Z) (dc : string)
    (func : date -> date -> R) :
  DAYCOUNT_FUNCTIONS (upper dc) = Some func ->
  schedule_loop n s step dc
  = Ok (map (period_of func) (period_dates n s step)).
Proof.
  intros H. revert s. induction n as [|n IH]; intros s; [reflexivity|].
  cbn [schedule_loop period_dates map].
  rewrite (year_fraction_supported _ _ dc func H). cbn [bind].
  rewrite IH. reflexivity.
Qed.

Lemma schedule_loop_unsupported (n : nat) (s : date) (step : Z)
    (dc : string) :
  DAYCOUNT_FUNCTIONS (upper dc) = None ->
  schedule_loop (S n) s step dc
  = Err (ValueError ("Unsupported day count convention: " ++ dc)).
Proof.
  intros H. cbn [schedule_loop]. unfold year_fraction. rewrite H. reflexivity.
Qed.

Lemma periods_contiguous (func : date -> date -> R) (n : nat) (s : date)
    (step : Z) :
  contiguous s (map (period_of func) (period_dates n s step)).
Proof.
  revert s. induction n as [|n IH]; intros s; simpl; auto.
Qed.

Lemma periods_last (func : date -> date -> R) (n : nat) (s d : date)
    (step : Z) :
  last (map end_ (map (period_of func) (period_dates n s step))) d
  = match n with O => d | S _ => iter_add_months n s step end.
Proof.
  revert s. induction n as [|n IH]; intros s; [reflexivity|].
  specialize (IH (add_months s step)).
  cbn [period_dates map iter_add_months].
  destruct n as [|n]; [reflexivity|].
  cbn [period_dates map] in *. exact IH.
Qed.

Lemma periods_end (func : date -> date -> R) (n : nat) (s : date)
    (step : Z) :
  schedule_end s (map (period_of func) (period_dates n s step))
  = iter_add_months n s step.
Proof.
  unfold schedule_end. rewrite periods_last. destruct n; reflexivity.
Qed.

Lemma periods_step (func : date -> date -> R) (n : nat) (s : date)
    (step : Z) (p : CashflowPeriod) :
  In p (map (period_of func) (period_dates n s step)) ->
  end_ p = add_months (start p) step /\
  accrual_factor p = func (start p) (end_ p).
Proof.
  revert s. induction n as [|n IH]; intros s; simpl; [contradiction|].
  intros [<-|H]; [split; reflexivity | apply (IH _ H)].
Qed.

Lemma periods_ends (func : date -> date -> R) (ds : list (date * date)) :
  map end_ (map (period_of func) ds) = map snd ds.
Proof. rewrite map_map. reflexivity. Qed.

(** Under ACT/365 the accrual factors add up to the days covered over
    365. *)
Lemma actual_365_sum (ds : list (date * date)) :
  np_sum (map accrual_factor (map (period_of actual_365) ds))
  = IZR (total_days ds) / 365.
Proof.
  unfold total_days, np_sum. induction ds as [|[a b] ds IH].
  - simpl. lra.
  - cbn [map fold_right period_of accrual_factor fst snd].
    rewrite IH, plus_IZR. unfold actual_365. lra.
Qed.

Lemma generate_schedule_Ok (s : date) (tenor : R) (f : Z) (dc : string)
    (func : date -> date -> R) :
  (0 < f)%Z -> round_half_even (tenor * IZR f) <> 0%Z ->
  DAYCOUNT_FUNCTIONS (upper dc) = Some func ->
  generate_schedule s tenor f dc
  = Ok (map (period_of func)
            (period_dates (Z.to_nat (round_half_even (tenor * IZR f))) s
                          (round_half_even (12 / IZR f)))).
Proof.
  intros Hf HN Hdc. unfold generate_schedule.
  destruct (Z.leb_spec f 0); [lia|].
  destruct (Z.eqb_spec (round_half_even (tenor * IZR f)) 0); [contradiction|].
  apply schedule_loop_Ok, Hdc.
Qed.

(** When the frequency divides twelve the month step is exact. *)
Lemma step_months_exact (f : Z) :
  (0 < f)%Z -> (12 mod f = 0)%Z -> round_half_even (12 / IZR f) = (12 / f)%Z.
Proof.
  intros Hf Hmod.
  assert (E : 12%Z = (f * (12 / f))%Z)
    by (rewrite (Z.div_mod 12 f) at 1 by lia; lia).
  assert (HF : IZR f <> 0) by (apply not_0_IZR; lia).
  replace (12 / IZR f) with (IZR (12 / f)).
  - apply round_half_even_IZR.
  - apply (f_equal IZR) in E. rewrite mult_IZR in E.
    apply Rmult_eq_reg_l with (IZR f); [|exact HF].
    rewrite <- E. field. exact HF.
Qed.

Lemma quarterly_5y_steps :
  round_half_even (5 * IZR 4) = 20%Z /\ round_half_even (12 / IZR 4) = 3%Z.
Proof.
  split.
  - replace (5 * IZR 4) with (IZR 20) by lra. apply round_half_even_IZR.
  - rewrite step_months_exact; [reflexivity | lia | reflexivity].
Qed.

(** A five-year quarterly schedule under ACT/365 from any valid date:
    twenty periods, contiguous, with strictly increasing ends, covering
    between 1822 and 1827 days. *)
Lemma quarterly_5y_schedule (s : date) :
  valid_month_day s = true ->
  exists ps,
    generate_schedule s 5 4 "ACT/365" = Ok ps /\
    List.length ps = 20%nat /\ contiguous s ps /\
    increasing_dates (map end_ ps) = true /\
    Rabs (np_sum (map accrual_factor ps) - 5) <= 3 / 365.
Proof.
  intros Hv. destruct quarterly_5y_steps as [HN Hstep].
  destruct (valid_month_day_inv s Hv) as [Hm _].
  exists (map (period_of actual_365) (period_dates 20 s 3)).
  split; [|split; [|split; [|split]]].
  - rewrite (generate_schedule_Ok s 5 4 "ACT/365" actual_365);
      [| lia | rewrite HN; lia | reflexivity].
    rewrite HN, Hstep. reflexivity.
  - rewrite length_map. apply period_dates_length.
  - apply periods_contiguous.
  - rewrite periods_ends. apply period_dates_increasing; [exact Hm | lia].
  - rewrite actual_365_sum, total_days_telescope.
    pose proof (quarterly_5y_days s Hv) as [Hlo Hhi].
    apply IZR_le in Hlo. apply IZR_le in Hhi.
    apply Rabs_le. lra.
Qed.

(** C6 (as amended).  For a frequency [f > 0] with
    [N = round(tenor_years * f) >= 1] and a supported day count,
    [generate_schedule] returns exactly [N] periods; they are
    contiguous from the schedule start, each ends [round(12 / f)] months
    after it starts (the day capped at the end of the month reached),
    and their ends strictly increase when that step is at least one
    month.  The last end is the start moved [N] times by the step; from
    a start on day 28 or earlier that is the start plus
    [N * round(12 / f)] months, which is the maturity date
    (12 * tenor_years months on) when [f] divides 12 and
    [tenor_years * f] is whole.  For five years and [f = 4] under
    ACT/365 there are 20 periods with strictly increasing ends whose
    accrual factors add up to 5 within 3/365. *)
Theorem generate_schedule_periods (s : date) (tenor : R) (f : Z)
    (dc : string) (func : date -> date -> R) :
  let N := round_half_even (tenor * IZR f) in
  let step := round_half_even (12 / IZR f) in
  ((0 < f)%Z -> (1 <= N)%Z -> DAYCOUNT_FUNCTIONS (upper dc) = Some func ->
   exists ps,
     generate_schedule s tenor f dc = Ok ps /\
     List.length ps = Z.to_nat N /\ contiguous s ps /\
     (forall p, In p ps ->
        end_ p = add_months (start p) step /\
        accrual_factor p = func (start p) (end_ p)) /\
     schedule_end s ps = iter_add_months (Z.to_nat N) s step /\
     (valid_month_day s = true -> (day s <= 28)%Z ->
      schedule_end s ps = add_months s (N * step)) /\
     (valid_month_day s = true -> (1 <= step)%Z ->
      increasing_dates (map end_ ps) = true)) /\
  ((0 < f)%Z -> (12 mod f = 0)%Z -> tenor * IZR f = IZR N ->
   step = (12 / f)%Z /\ IZR (N * step) = 12 * tenor) /\
  (valid_month_day s = true ->
   exists ps,
     generate_schedule s 5 4 "ACT/365" = Ok ps /\
     List.length ps = 20%nat /\ contiguous s ps /\
     increasing_dates (map end_ ps) = true /\
     Rabs (np_sum (map accrual_factor ps) - 5) <= 3 / 365).
Proof.
  intros N step. split; [|split].
  - intros Hf HN Hdc.
    exists (map (period_of func) (period_dates (Z.to_nat N) s step)).
    split; [apply generate_schedule_Ok; [exact Hf | fold N; lia | exact Hdc]|].
    split; [rewrite length_map; apply period_dates_length|].
    split; [apply periods_contiguous|].
    split; [intros p Hp; apply (periods_step func _ _ _ p Hp)|].
    split; [apply periods_end|].
    split.
    + intros Hv Hd. rewrite periods_end, iter_add_months_mul by assumption.
      rewrite Z2Nat.id by lia. reflexivity.
    + intros Hv Hstep. rewrite periods_ends.
      destruct (valid_month_day_inv s Hv) as [Hm _].
      apply period_dates_increasing; assumption.
  - intros Hf Hmod Hwhole.
    assert (Hs : step = (12 / f)%Z) by (apply step_months_exact; assumption).
    split; [exact Hs|].
    rewrite Hs, mult_IZR, <- Hwhole.
    assert (E : 12%Z = (f * (12 / f))%Z)
      by (rewrite (Z.div_mod 12 f) at 1 by lia; lia).
    apply (f_equal IZR) in E. rewrite mult_IZR in E.
    rewrite (Rmult_comm tenor), Rmult_assoc, (Rmult_comm tenor),
            <- Rmult_assoc, <- E. reflexivity.
  - apply quarterly_5y_schedule.
Qed.

Lemma generate_schedule_periods_witness :
  (exists ps,
     generate_schedule sample_effective 5 4 "ACT/365" = Ok ps /\
     List.length ps = 20%nat /\ contiguous sample_effective ps) /\
  (exists ps,
     generate_schedule sample_effective 5 4 "ACT/365" = Ok ps /\
     Rabs (np_sum (map accrual_factor ps) - 5) <= 3 / 365).
Proof.
  destruct quarterly_5y_steps as [HN Hstep].
  split.
  - destruct (proj1 (generate_schedule_periods sample_effective 5 4
                       "ACT/365" actual_365))
      as [ps [H1 [H2 [H3 _]]]].
    + lia.
    + rewrite HN. lia.
    + reflexivity.
    + exists ps. rewrite HN in H2. repeat split; assumption.
  - destruct (proj2 (proj2 (generate_schedule_periods sample_effective 5 4
                              "ACT/365" actual_365)))
      as [ps [H1 [_ [_ [_ H5]]]]].
    + reflexivity.
    + exists ps. split; assumption.
Defined.

(** C6 as stated fails: one year at five payments a year from
    2025-01-01 gives five periods of [round(12 / 5) = 2] months, which
    end on 2025-11-01, two months short of the maturity 2026-01-01, and
    cover 304 days. *)
Lemma five_payments_fall_short :
  (0 < 5)%Z /\ round_half_even (1 * IZR 5) = 5%Z /\
  exists ps,
    generate_schedule jan_first 1 5 "ACT/365" = Ok ps /\
    List.length ps = 5%nat /\
    schedule_end jan_first ps = mkDate 2025 11 1 /\
    add_months jan_first 12 = mkDate 2026 1 1 /\
    schedule_end jan_first ps <> add_months jan_first 12 /\
    np_sum (map accrual_factor ps) = 304 / 365.
Proof.
  assert (HN : round_half_even (1 * IZR 5) = 5%Z).
  { replace (1 * IZR 5) with (IZR 5) by lra. apply round_half_even_IZR. }
  assert (Hstep : round_half_even (12 / IZR 5) = 2%Z)
    by (apply round_half_even_near; lra).
  split; [lia|]. split; [exact HN|].
  exists (map (period_of actual_365) (period_dates 5 jan_first 2)).
  split; [|split; [|split; [|split; [|split]]]].
  - rewrite (generate_schedule_Ok jan_first 1 5 "ACT/365" actual_365);
      [| lia | rewrite HN; lia | reflexivity].
    rewrite HN, Hstep. reflexivity.
  - reflexivity.
  - rewrite periods_end. vm_compute. reflexivity.
  - vm_compute. reflexivity.
  - rewrite periods_end.
    assert (E1 : iter_add_months 5 jan_first 2 = mkDate 2025 11 1)
      by (vm_compute; reflexivity).
    assert (E2 : add_months jan_first 12 = mkDate 2026 1 1)
      by (vm_compute; reflexivity).
    rewrite E1, E2. discriminate.
  - rewrite actual_365_sum.
    assert (E : total_days (period_dates 5 jan_first 2) = 304%Z)
      by (vm_compute; reflexivity).
    rewrite E. reflexivity.
Qed.

(** ** Cashflow rows *)

Lemma fixed_row_eq (self : SwapPricer) (swap : SwapDefinition)
    (period : CashflowPeriod) :
  fixed_row self swap period =
    let t_pay := actual_365 (valuation_date swap) (end_ period) in
    let discount := discount_factor (discount_curve self) t_pay in
    let cashflow := notional swap * fixed_rate swap * accrual_factor period in
    let direction := if String.eqb (payer swap) "fixed" then -1 else 1 in
    Ok (mkCashflowRow (start period) (end_ period) (accrual_factor period)
          (fixed_rate swap) None (direction * cashflow) discount
          (direction * cashflow * discount) t_pay "fixed" (fixed_rate swap)).
Proof. reflexivity. Qed.

Lemma floating_row_eq (self : SwapPricer) (swap : SwapDefinition)
    (period : CashflowPeriod) :
  floating_row self swap period =
    let t_start := actual_365 (valuation_date swap) (start period) in
    let t_end := actual_365 (valuation_date swap) (end_ period) in
    forward <- forward_rate (forward_curve self) t_start t_end ;;
    let effective_rate := forward + spread swap in
    let cashflow := notional swap * effective_rate * accrual_factor period in
    let discount := discount_factor (discount_curve self) t_end in
    let direction := if String.eqb (payer swap) "fixed" then 1 else -1 in
    Ok (mkCashflowRow (start period) (end_ period) (accrual_factor period)
          effective_rate (Some forward) (direction * cashflow) discount
          (direction * cashflow * discount) t_end "floating" forward).
Proof. reflexivity. Qed.

Lemma build_rows_In (row : CashflowPeriod -> result CashflowRow)
    (schedule : list CashflowPeriod) (rows : list CashflowRow) :
  build_rows row schedule = Ok rows ->
  forall r, In r rows -> exists p, In p schedule /\ row p = Ok r.
Proof.
  revert rows. induction schedule as [|p schedule IH]; intros rows H r Hr.
  - inversion H; subst. contradiction.
  - cbn [build_rows] in H.
    apply bind_Ok in H. destruct H as [r0 [Hr0 H]].
    apply bind_Ok in H. destruct H as [rest [Hrest H]].
    inversion H; subst.
    destruct Hr as [<-|Hr].
    + exists p. split; [left; reflexivity | exact Hr0].
    + destruct (IH rest Hrest r Hr) as [q [Hq Hrow]].
      exists q. split; [right; exact Hq | exact Hrow].
Qed.

Lemma build_rows_length (row : CashflowPeriod -> result CashflowRow)
    (schedule : list CashflowPeriod) (rows : list CashflowRow) :
  build_rows row schedule = Ok rows ->
  List.length rows = List.length schedule.
Proof.
  revert rows. induction schedule as [|p schedule IH]; intros rows H.
  - inversion H; reflexivity.
  - cbn [build_rows] in H.
    apply bind_Ok in H. destruct H as [r0 [Hr0 H]].
    apply bind_Ok in H. destruct H as [rest [Hrest H]].
    inversion H; subst. simpl. rewrite (IH rest Hrest). reflexivity.
Qed.

Lemma build_rows_Ok (row : CashflowPeriod -> result CashflowRow)
    (schedule : list CashflowPeriod) :
  (forall p, In p schedule -> exists r, row p = Ok r) ->
  exists rows, build_rows row schedule = Ok rows.
Proof.
  induction schedule as [|p schedule IH]; intros H.
  - exists []. reflexivity.
  - destruct (H p (or_introl eq_refl)) as [r Hr].
    destruct IH as [rest Hrest]; [intros q Hq; apply H; right; exact Hq|].
    exists (r :: rest). cbn [build_rows]. rewrite Hr. cbn [bind].
    rewrite Hrest. reflexivity.
Qed.

(** The shape of a row of the fixed leg. *)
Lemma fixed_row_shape (self : SwapPricer) (swap : SwapDefinition)
    (p : CashflowPeriod) (r : CashflowRow) :
  fixed_row self swap p = Ok r ->
  cf_leg r = "fixed"%string /\
  cf_coupon_rate r = fixed_rate swap /\
  cf_accrual_factor r = accrual_factor p /\
  cf_forward_rate r = None /\
  cf_time_to_payment r = actual_365 (valuation_date swap) (end_ p) /\
  cf_discount_factor r
  = discount_factor (discount_curve self) (cf_time_to_payment r) /\
  cf_cashflow r
  = leg_sign swap "fixed"
    * (notional swap * cf_coupon_rate r * cf_accrual_factor r) /\
  cf_present_value r
  = leg_sign swap "fixed"
    * (notional swap * cf_coupon_rate r * cf_accrual_factor r)
    * cf_discount_factor r.
Proof.
  rewrite fixed_row_eq. cbv zeta. intros H. inversion H; subst; clear H.
  cbn [cf_leg cf_coupon_rate cf_accrual_factor cf_forward_rate
       cf_time_to_payment cf_discount_factor cf_cashflow cf_present_value].
  unfold leg_sign, pays_leg. cbn [String.eqb Ascii.eqb Bool.eqb].
  repeat split; reflexivity.
Qed.

(** The shape of a row of the floating leg. *)
Lemma floating_row_shape (self : SwapPricer) (swap : SwapDefinition)
    (p : CashflowPeriod) (r : CashflowRow) :
  floating_row self swap p = Ok r ->
  cf_leg r = "floating"%string /\
  cf_accrual_factor r = accrual_factor p /\
  cf_time_to_payment r = actual_365 (valuation_date swap) (end_ p) /\
  forward_rate (forward_curve self)
    (actual_365 (valuation_date swap) (start p))
    (actual_365 (valuation_date swap) (end_ p))
  = Ok (cf_projection_rate r) /\
  cf_forward_rate r = Some (cf_projection_rate r) /\
  cf_coupon_rate r = cf_projection_rate r + spread swap /\
  cf_discount_factor r
  = discount_factor (discount_curve self) (cf_time_to_payment r) /\
  cf_cashflow r
  = leg_sign swap "floating"
    * (notional swap * cf_coupon_rate r * cf_accrual_factor r) /\
  cf_present_value r
  = leg_sign swap "floating"
    * (notional swap * cf_coupon_rate r * cf_accrual_factor r)
    * cf_discount_factor r.
Proof.
  rewrite floating_row_eq. cbv zeta. intros H.
  apply bind_Ok in H. destruct H as [fwd [Hf H]].
  inversion H; subst; clear H.
  cbn [cf_leg cf_coupon_rate cf_accrual_factor cf_forward_rate
       cf_time_to_payment cf_discount_factor cf_cashflow cf_present_value
       cf_projection_rate].
  unfold leg_sign, pays_leg. cbn [String.eqb Ascii.eqb Bool.eqb].
  assert (E : (if negb (String.eqb (payer swap) "fixed") then -1 else 1)
              = (if String.eqb (payer swap) "fixed" then 1 else -1))
    by (destruct (String.eqb (payer swap) "fixed"); reflexivity).
  rewrite E. repeat split; try reflexivity. exact Hf.
Qed.

(** ** [SwapPricer.price] *)

Lemma price_inv (self : SwapPricer) (swap : SwapDefinition)
    (res : PricingResult) :
  price self swap = Ok res ->
  exists fixed_leg float_leg,
    _build_fixed_cashflows self swap = Ok fixed_leg /\
    _build_floating_cashflows self swap = Ok float_leg /\
    fixed_leg ++ float_leg <> [] /\
    pr_cashflows res
    = sorted_by (fun r => IZR (toordinal (cf_period_end r)))
                (fixed_leg ++ float_leg) /\
    fixed_leg_pv res = leg_pv "fixed" (fixed_leg ++ float_leg) /\
    floating_leg_pv res = leg_pv "floating" (fixed_leg ++ float_leg) /\
    npv res = fixed_leg_pv res + floating_leg_pv res.
Proof.
  unfold price, build_cashflows. intros H.
  apply bind_Ok in H. destruct H as [rows [Hrows H]].
  apply bind_Ok in Hrows. destruct Hrows as [fl [Hfl Hrows]].
  apply bind_Ok in Hrows. destruct Hrows as [ll [Hll Hrows]].
  inversion Hrows; subst; clear Hrows.
  exists fl, ll.
  destruct (fl ++ ll) as [|r0 rest] eqn:E; [discriminate|].
  inversion H; subst; clear H. cbn [pr_cashflows fixed_leg_pv floating_leg_pv npv].
  repeat split; try assumption; try reflexivity. discriminate.
Qed.

Lemma price_Ok (self : SwapPricer) (swap : SwapDefinition)
    (fixed_leg float_leg : list CashflowRow) :
  _build_fixed_cashflows self swap = Ok fixed_leg ->
  _build_floating_cashflows self swap = Ok float_leg ->
  fixed_leg ++ float_leg <> [] ->
  price self swap =
    Ok (mkPricingResult
          (sorted_by (fun r => IZR (toordinal (cf_period_end r)))
                     (fixed_leg ++ float_leg))
          (leg_pv "fixed" (fixed_leg ++ float_leg))
          (leg_pv "floating" (fixed_leg ++ float_leg))
          (leg_pv "fixed" (fixed_leg ++ float_leg)
           + leg_pv "floating" (fixed_leg ++ float_leg))).
Proof.
  intros Hf Hl Hne. unfold price, build_cashflows.
  rewrite Hf, Hl. cbn [bind].
  destruct (fixed_leg ++ float_leg); [contradiction | reflexivity].
Qed.

(** Every row of the priced table was built by one of the two legs. *)
Lemma price_row_cases (self : SwapPricer) (swap : SwapDefinition)
    (res : PricingResult) (r : CashflowRow) :
  price self swap = Ok res -> In r (pr_cashflows res) ->
  (exists p, fixed_row self swap p = Ok r) \/
  (exists p, floating_row self swap p = Ok r).
Proof.
  intros H Hr.
  destruct (price_inv self swap res H)
    as [fl [ll [Hfl [Hll [_ [Hcf _]]]]]].
  rewrite Hcf in Hr. apply sorted_by_In in Hr. apply in_app_or in Hr.
  unfold _build_fixed_cashflows in Hfl.
  unfold _build_floating_cashflows in Hll.
  apply bind_Ok in Hfl. destruct Hfl as [sf [_ Hfl]].
  apply bind_Ok in Hll. destruct Hll as [sl [_ Hll]].
  destruct Hr as [Hr|Hr].
  - left. destruct (build_rows_In _ _ _ Hfl r Hr) as [p [_ Hp]].
    exists p. exact Hp.
  - right. destruct (build_rows_In _ _ _ Hll r Hr) as [p [_ Hp]].
    exists p. exact Hp.
Qed.

(** The signs of a priced row: the cashflow and the present value are
    the sign of the leg times the unsigned coupon amount. *)
Lemma priced_row_signs (self : SwapPricer) (swap : SwapDefinition)
    (res : PricingResult) (r : CashflowRow) :
  price self swap = Ok res -> In r (pr_cashflows res) ->
  (cf_leg r = "fixed"%string \/ cf_leg r = "floating"%string) /\
  cf_cashflow r
  = leg_sign swap (cf_leg r)
    * (notional swap * cf_coupon_rate r * cf_accrual_factor r) /\
  cf_present_value r
  = leg_sign swap (cf_leg r)
    * (notional swap * cf_coupon_rate r * cf_accrual_factor r)
    * cf_discount_factor r.
Proof.
  intros H Hr.
  destruct (price_row_cases self swap res r H Hr) as [[p Hp]|[p Hp]].
  - destruct (fixed_row_shape self swap p r Hp)
      as [Hleg [_ [_ [_ [_ [_ [Hcf Hpv]]]]]]].
    rewrite Hleg. auto.
  - destruct (floating_row_shape self swap p r Hp)
      as [Hleg [_ [_ [_ [_ [_ [_ [Hcf Hpv]]]]]]]].
    rewrite Hleg. auto.
Qed.

Lemma leg_sign_opposite (swap : SwapDefinition) :
  leg_sign swap "fixed" = - leg_sign swap "floating" /\
  (payer swap = "fixed"%string ->
   leg_sign swap "fixed" = -1 /\ leg_sign swap "floating" = 1) /\
  (payer swap <> "fixed"%string ->
   leg_sign swap "fixed" = 1 /\ leg_sign swap "floating" = -1).
Proof.
  unfold leg_sign, pays_leg. cbn [String.eqb Ascii.eqb Bool.eqb].
  destruct (String.eqb_spec (payer swap) "fixed") as [E|E]; cbn [negb].
  - repeat split; try lra; intros; contradiction.
  - repeat split; try lra; intros; contradiction.
Qed.

(** ** The annual sample swap *)

Lemma annual_schedule :
  generate_schedule jan_first 1 1 "ACT/365" = Ok [annual_period].
Proof.
  assert (HN : round_half_even (1 * IZR 1) = 1%Z).
  { replace (1 * IZR 1) with (IZR 1) by lra. apply round_half_even_IZR. }
  assert (Hstep : round_half_even (12 / IZR 1) = 12%Z)
    by (rewrite step_months_exact; [reflexivity | lia | reflexivity]).
  rewrite (generate_schedule_Ok jan_first 1 1 "ACT/365" actual_365);
    [| lia | rewrite HN; lia | reflexivity].
  rewrite HN, Hstep.
  assert (E : period_dates (Z.to_nat 1) jan_first 12
              = [(jan_first, mkDate 2026 1 1)]) by (vm_compute; reflexivity).
  rewrite E. reflexivity.
Qed.

Lemma annual_times :
  actual_365 jan_first jan_first = 0 /\
  actual_365 jan_first (mkDate 2026 1 1) = 1.
Proof.
  unfold actual_365.
  assert (E0 : days_between jan_first jan_first = 0%Z)
    by (vm_compute; reflexivity).
  assert (E1 : days_between jan_first (mkDate 2026 1 1) = 365%Z)
    by (vm_compute; reflexivity).
  rewrite E0, E1. split; lra.
Qed.

(** The annual swap prices on every pair of curves: one row per leg. *)
Lemma annual_swap_price (self : SwapPricer) (k : R) :
  0 < discount_factor (forward_curve self) 1 ->
  exists rF rL res,
    fixed_row self (annual_swap k) annual_period = Ok rF /\
    floating_row self (annual_swap k) annual_period = Ok rL /\
    price self (annual_swap k) = Ok res /\
    In rF (pr_cashflows res) /\ In rL (pr_cashflows res) /\
    npv res = cf_present_value rF + cf_present_value rL.
Proof.
  intros Hdf. destruct annual_times as [T0 T1].
  assert (HF : exists rF, fixed_row self (annual_swap k) annual_period = Ok rF)
    by (rewrite fixed_row_eq; eexists; reflexivity).
  destruct HF as [rF HrF].
  assert (HL : exists rL,
            floating_row self (annual_swap k) annual_period = Ok rL).
  { rewrite floating_row_eq. cbv zeta.
    cbn [annual_swap valuation_date annual_period period_of start end_
         fst snd].
    rewrite T0, T1. rewrite forward_rate_Ok by lra.
    cbn [bind]. eexists; reflexivity. }
  destruct HL as [rL HrL].
  assert (Hfl : _build_fixed_cashflows self (annual_swap k) = Ok [rF]).
  { unfold _build_fixed_cashflows.
    cbn [annual_swap effective_date maturity_years fixed_leg_frequency
         fixed_leg_daycount].
    rewrite annual_schedule. cbn [bind build_rows].
    fold (annual_swap k). rewrite HrF. reflexivity. }
  assert (Hll : _build_floating_cashflows self (annual_swap k) = Ok [rL]).
  { unfold _build_floating_cashflows.
    cbn [annual_swap effective_date maturity_years floating_leg_frequency
         floating_leg_daycount].
    rewrite annual_schedule. cbn [bind build_rows].
    fold (annual_swap k). rewrite HrL. reflexivity. }
  exists rF, rL. eexists.
  split; [exact HrF|]. split; [exact HrL|].
  split; [apply (price_Ok self _ [rF] [rL] Hfl Hll); discriminate|].
  cbn [pr_cashflows npv app].
  split; [apply sorted_by_In; left; reflexivity|].
  split; [apply sorted_by_In; right; left; reflexivity|].
  destruct (fixed_row_shape _ _ _ _ HrF) as [HlegF _].
  destruct (floating_row_shape _ _ _ _ HrL) as [HlegL _].
  unfold leg_pv. cbn [filter]. rewrite HlegF, HlegL.
  cbn. lra.
Qed.

(** C9 (as amended).  In every row of a priced cashflow table the
    cashflow and the present value are the sign of the row's leg, -1
    for the leg the holder pays and +1 for the leg received, times the
    unsigned coupon amount [notional * coupon_rate * accrual_factor]
    (times the discount factor for the present value); the two legs
    carry opposite sign factors (fixed payer: fixed -1, floating +1;
    otherwise the reverse).  The row itself is negative on the paid leg
    and positive on the received leg whenever its coupon amount and its
    discount factor are positive. *)
Theorem cashflow_signs (self : SwapPricer) (swap : SwapDefinition)
    (res : PricingResult) (r : CashflowRow) :
  price self swap = Ok res -> In r (pr_cashflows res) ->
  let amount := notional swap * cf_coupon_rate r * cf_accrual_factor r in
  (cf_leg r = "fixed"%string \/ cf_leg r = "floating"%string) /\
  cf_cashflow r = leg_sign swap (cf_leg r) * amount /\
  cf_present_value r
  = leg_sign swap (cf_leg r) * amount * cf_discount_factor r /\
  leg_sign swap "fixed" = - leg_sign swap "floating" /\
  (payer swap = "fixed"%string ->
   leg_sign swap "fixed" = -1 /\ leg_sign swap "floating" = 1) /\
  (payer swap <> "fixed"%string ->
   leg_sign swap "fixed" = 1 /\ leg_sign swap "floating" = -1) /\
  (0 < amount -> 0 < cf_discount_factor r ->
   (pays_leg swap (cf_leg r) = true ->
    cf_cashflow r < 0 /\ cf_present_value r < 0) /\
   (pays_leg swap (cf_leg r) = false ->
    0 < cf_cashflow r /\ 0 < cf_present_value r)).
Proof.
  intros H Hr amount.
  destruct (priced_row_signs self swap res r H Hr) as [Hleg [Hcf Hpv]].
  destruct (leg_sign_opposite swap) as [Hopp [Hfix Hflt]].
  fold amount in Hcf, Hpv.
  split; [exact Hleg|]. split; [exact Hcf|]. split; [exact Hpv|].
  split; [exact Hopp|]. split; [exact Hfix|]. split; [exact Hflt|].
  intros Ha Hd. rewrite Hcf, Hpv. unfold leg_sign.
  split; intros Hp; rewrite Hp; split; nra.
Qed.

Lemma cashflow_signs_witness :
  exists res r,
    price (mkSwapPricer flat_curve flat_curve) (annual_swap (3 / 100))
    = Ok res /\
    In r (pr_cashflows res) /\
    cf_cashflow r
    = leg_sign (annual_swap (3 / 100)) (cf_leg r)
      * (notional (annual_swap (3 / 100)) * cf_coupon_rate r
         * cf_accrual_factor r).
Proof.
  destruct (annual_swap_price (mkSwapPricer flat_curve flat_curve) (3 / 100)
              flat_curve_df_one)
    as [rF [rL [res [_ [_ [Hp [HinF _]]]]]]].
  exists res, rF. split; [exact Hp|]. split; [exact HinF|].
  apply (proj1 (proj2 (cashflow_signs _ _ res rF Hp HinF))).
Defined.

(** C9 as stated fails: with a fixed rate of -1% the holder who pays
    the fixed leg has a positive fixed-leg row (the coupon of 1 is
    received), although the leg is the paid one. *)
Lemma negative_rate_fixed_row_positive :
  exists res r,
    price (mkSwapPricer flat_curve flat_curve) (annual_swap (- 1 / 100))
    = Ok res /\
    In r (pr_cashflows res) /\
    cf_leg r = "fixed"%string /\
    pays_leg (annual_swap (- 1 / 100)) (cf_leg r) = true /\
    cf_cashflow r = 1 /\ 0 < cf_cashflow r.
Proof.
  destruct (annual_swap_price (mkSwapPricer flat_curve flat_curve)
              (- 1 / 100) flat_curve_df_one)
    as [rF [rL [res [HrF [_ [Hp [HinF _]]]]]]].
  destruct (fixed_row_shape _ _ _ _ HrF)
    as [Hleg [Hrate [Hacc [_ [_ [_ [Hcf _]]]]]]].
  destruct annual_times as [_ T1].
  assert (E : cf_cashflow rF = 1).
  { rewrite Hcf, Hrate, Hacc.
    cbn [annual_swap notional fixed_rate annual_period period_of
         accrual_factor fst snd].
    rewrite T1. unfold leg_sign, pays_leg. cbn. lra. }
  exists res, rF. rewrite Hleg, E.
  repeat split; try assumption; try reflexivity. lra.
Qed.

(** ** [bump_curve] and [price_with_risk] *)

Lemma decay_length (x : R) (a ts : list R) :
  List.length a = List.length ts ->
  List.length (decay x a ts) = List.length ts.
Proof.
  revert ts; induction a as [|d a IH]; intros [|t ts] H; simpl in *;
    try discriminate; auto.
Qed.

Lemma decay_nth (x : R) (a ts : list R) (k : nat) :
  List.length a = List.length ts -> (k < List.length ts)%nat ->
  nth k (decay x a ts) 0 = nth k a 0 * exp (- x * nth k ts 0).
Proof.
  revert ts k; induction a as [|d a IH]; intros [|t ts] k H Hk;
    simpl in *; try discriminate; try lia.
  destruct k; [reflexivity | apply IH; lia].
Qed.

Lemma map_nth_default (g : R -> R) (l : list R) (k : nat) :
  (k < List.length l)%nat -> nth k (map g l) 0 = g (nth k l 0).
Proof.
  intros Hk. rewrite (nth_indep _ 0 (g 0)) by (rewrite length_map; exact Hk).
  apply map_nth.
Qed.

Lemma wf_curve_tenors (c : ZeroCurve) :
  wf_curve c ->
  tenors c <> [] /\ ascending (fun t => t) (tenors c) /\
  Forall (fun t => 0 < t) (tenors c) /\
  List.length (zero_rates c) = List.length (tenors c).
Proof. unfold wf_curve, tenors, zero_rates. tauto. Qed.

(** On a well-formed curve the parallel bump succeeds and gives the
    bumped nodes. *)
Lemma bump_curve_Ok (c : ZeroCurve) (bump_bp : R) :
  wf_curve c ->
  exists c', bump_curve c bump_bp = Ok c' /\ parallel_bumped c c' bump_bp.
Proof.
  intros Hwf. destruct (wf_curve_tenors c Hwf) as [Hne [Hasc [Hpos _]]].
  set (ts := tenors c) in *.
  set (dfs' := decay (bump_bp / 10000) (map (discount_factor c) ts) ts).
  assert (Hl : List.length dfs' = List.length ts)
    by (apply decay_length, length_map).
  eexists. split.
  - unfold bump_curve. fold ts. fold dfs'.
    apply ZeroCurve_init_zip; auto.
    apply implied_rates_length, Hl.
  - unfold parallel_bumped, tenors, zero_rates.
    cbn [_tenors _rates name _discount_factors]. fold (tenors c). fold ts.
    split; [reflexivity|]. split; [reflexivity|].
    exists dfs'. split; [reflexivity|]. split; [exact Hl|].
    split; [apply implied_rates_length, Hl|].
    intros k Hk. cbv zeta. split.
    + unfold dfs'. rewrite decay_nth by (rewrite ?length_map; auto).
      rewrite map_nth_default by exact Hk. reflexivity.
    + apply implied_rates_nth; assumption.
Qed.

Lemma decay_pos (x : R) (a ts : list R) :
  Forall (fun d => 0 < d) a -> Forall (fun d => 0 < d) (decay x a ts).
Proof.
  revert ts. induction a as [|d a IH]; intros [|t ts] H; simpl;
    try constructor.
  - inversion H; subst. apply Rmult_lt_0_compat; [assumption | apply exp_pos].
  - inversion H; subst. apply IH; assumption.
Qed.

Lemma ZeroCurve_init_cache (pts : list CurvePoint) (nm : label)
    (dfs : option (list R)) (c : ZeroCurve) :
  ZeroCurve_init pts nm dfs = Ok c -> _discount_factors c = dfs.
Proof.
  unfold ZeroCurve_init.
  destruct (sorted_by tenor pts) as [|p0 rest]; [discriminate|].
  destruct (Rle_dec (tenor p0) 0); [discriminate|].
  destruct dfs as [l|].
  - destruct (Nat.eqb (List.length l) (List.length (map tenor (p0 :: rest))));
      [|discriminate].
    intros H; inversion H; reflexivity.
  - intros H; inversion H; reflexivity.
Qed.

(** A bump of a curve with a positive cache, or none, has a positive
    cache. *)
Lemma bump_curve_positive (c c' : ZeroCurve) (bump_bp : R) :
  wf_curve c -> positive_cache c -> bump_curve c bump_bp = Ok c' ->
  wf_curve c' /\ positive_cache c'.
Proof.
  intros Hwf Hpos H. unfold bump_curve in H.
  split; [apply (ZeroCurve_init_wf _ _ _ _ H)|].
  apply ZeroCurve_init_cache in H.
  intros dfs Hd. rewrite H in Hd. inversion Hd; subst.
  apply decay_pos. rewrite Forall_forall. intros y Hy.
  apply in_map_iff in Hy. destruct Hy as [t [<- _]].
  apply discount_factor_positive; assumption.
Qed.

Lemma price_with_risk_inv (swap : SwapDefinition) (d f : ZeroCurve)
    (bump_bp : R) (res : RiskResult) :
  price_with_risk swap d f bump_bp = Ok res ->
  exists base bd bf bumped,
    price (mkSwapPricer d f) swap = Ok base /\
    bump_curve d bump_bp = Ok bd /\ bump_curve f bump_bp = Ok bf /\
    price (mkSwapPricer bd bf) swap = Ok bumped /\
    res = mkRiskResult base (npv base) (npv bumped - npv base)
                       (npv bumped - npv base) (pr_cashflows base).
Proof.
  unfold price_with_risk. intros H.
  apply bind_Ok in H. destruct H as [base [Hbase H]].
  apply bind_Ok in H. destruct H as [bd [Hbd H]].
  apply bind_Ok in H. destruct H as [bf [Hbf H]].
  apply bind_Ok in H. destruct H as [bumped [Hbumped H]].
  inversion H; subst. exists base, bd, bf, bumped. auto.
Qed.

Lemma price_with_risk_Ok (swap : SwapDefinition) (d f bd bf : ZeroCurve)
    (bump_bp : R) (base bumped : PricingResult) :
  price (mkSwapPricer d f) swap = Ok base ->
  bump_curve d bump_bp = Ok bd -> bump_curve f bump_bp = Ok bf ->
  price (mkSwapPricer bd bf) swap = Ok bumped ->
  price_with_risk swap d f bump_bp =
    Ok (mkRiskResult base (npv base) (npv bumped - npv base)
                     (npv bumped - npv base) (pr_cashflows base)).
Proof.
  intros H1 H2 H3 H4. unfold price_with_risk.
  rewrite H1. cbn [bind]. rewrite H2. cbn [bind]. rewrite H3. cbn [bind].
  rewrite H4. reflexivity.
Qed.

(** C3.  [price_with_risk] prices on the base curves, bumps the
    discount and the forward curve in parallel by [bump_bp] (at each
    node the new discount factor is the old one times
    [exp(-bump_decimal * t)] and the rate is [-ln(newDF) / t]),
    reprices on the bumped curves and returns
    [PV01 = DV01 = bumpedNPV - baseNPV]; it returns a result whenever
    both pricings succeed. *)
Theorem price_with_risk_parallel (swap : SwapDefinition) (d f : ZeroCurve)
    (bump_bp : R) :
  (forall res, price_with_risk swap d f bump_bp = Ok res ->
   exists base bd bf bumped,
     price (mkSwapPricer d f) swap = Ok base /\
     bump_curve d bump_bp = Ok bd /\ bump_curve f bump_bp = Ok bf /\
     price (mkSwapPricer bd bf) swap = Ok bumped /\
     rr_pricing res = base /\ rr_npv res = npv base /\
     rr_cashflows res = pr_cashflows base /\
     pv01 res = npv bumped - npv base /\
     dv01 res = npv bumped - npv base /\
     pv01 res = dv01 res) /\
  (wf_curve d -> wf_curve f ->
   exists bd bf,
     bump_curve d bump_bp = Ok bd /\ parallel_bumped d bd bump_bp /\
     bump_curve f bump_bp = Ok bf /\ parallel_bumped f bf bump_bp /\
     forall base bumped,
       price (mkSwapPricer d f) swap = Ok base ->
       price (mkSwapPricer bd bf) swap = Ok bumped ->
       exists res,
         price_with_risk swap d f bump_bp = Ok res /\
         pv01 res = npv bumped - npv base /\ dv01 res = pv01 res).
Proof.
  split.
  - intros res H.
    destruct (price_with_risk_inv swap d f bump_bp res H)
      as [base [bd [bf [bumped [H1 [H2 [H3 [H4 ->]]]]]]]].
    exists base, bd, bf, bumped.
    cbn [rr_pricing rr_npv rr_cashflows pv01 dv01].
    repeat split; try assumption; reflexivity.
  - intros Hd Hf.
    destruct (bump_curve_Ok d bump_bp Hd) as [bd [Hbd Pd]].
    destruct (bump_curve_Ok f bump_bp Hf) as [bf [Hbf Pf]].
    exists bd, bf.
    split; [exact Hbd|]. split; [exact Pd|].
    split; [exact Hbf|]. split; [exact Pf|].
    intros base bumped H1 H4. eexists.
    split; [apply (price_with_risk_Ok swap d f bd bf bump_bp base bumped);
            assumption|].
    cbn [pv01 dv01]. split; reflexivity.
Qed.

Lemma price_with_risk_parallel_witness :
  exists res,
    price_with_risk (annual_swap (3 / 100)) flat_curve flat_curve 1 = Ok res /\
    dv01 res = pv01 res.
Proof.
  destruct (proj2 (price_with_risk_parallel (annual_swap (3 / 100))
                     flat_curve flat_curve 1) flat_curve_wf flat_curve_wf)
    as [bd [bf [_ [_ [Hbf [_ H]]]]]].
  destruct (annual_swap_price (mkSwapPricer flat_curve flat_curve) (3 / 100)
              flat_curve_df_one)
    as [_ [_ [base [_ [_ [Hbase _]]]]]].
  destruct (bump_curve_positive flat_curve bf 1 flat_curve_wf
              flat_curve_positive Hbf) as [Wbf Pbf].
  destruct (annual_swap_price (mkSwapPricer bd bf) (3 / 100)
              (discount_factor_positive bf 1 Wbf Pbf))
    as [_ [_ [bumped [_ [_ [Hbumped _]]]]]].
  destruct (H base bumped Hbase Hbumped) as [res [Hres [_ Hdv]]].
  exists res. split; assumption.
Defined.

(** ** Key-rate shifts *)

Lemma tent_shift_tent (shift_bp key_tenor width t : R) :
  tent_shift (shift_bp / 10000) key_tenor width t
  = tent shift_bp key_tenor width t.
Proof.
  unfold tent_shift, tent. cbv zeta.
  destruct (Rle_dec (Rabs (t - key_tenor)) width); [|reflexivity].
  unfold Rdiv. ring.
Qed.

Lemma default_width_cases (key_tenor : R) :
  (key_tenor < 1 -> default_width key_tenor = 1) /\
  (1 <= key_tenor <= 5 -> default_width key_tenor = 2) /\
  (5 < key_tenor -> default_width key_tenor = 3).
Proof.
  unfold default_width.
  destruct (Rlt_dec key_tenor 1); destruct (Rle_dec key_tenor 5);
    repeat split; intros; try reflexivity; lra.
Qed.

Lemma np_add_length (a b : list R) :
  List.length b = List.length a -> List.length (np_add a b) = List.length a.
Proof.
  revert b; induction a as [|x a IH]; intros [|y b] H; simpl in *;
    try discriminate; auto.
Qed.

Lemma np_add_nth (a b : list R) (k : nat) :
  List.length b = List.length a -> (k < List.length a)%nat ->
  nth k (np_add a b) 0 = nth k a 0 + nth k b 0.
Proof.
  revert b k; induction a as [|x a IH]; intros [|y b] k H Hk;
    simpl in *; try discriminate; try lia.
  destruct k; [reflexivity | apply IH; lia].
Qed.

Lemma dfs_of_rates_length (rs ts : list R) :
  List.length rs = List.length ts ->
  List.length (dfs_of_rates rs ts) = List.length ts.
Proof.
  revert ts; induction rs as [|r rs IH]; intros [|t ts] H; simpl in *;
    try discriminate; auto.
Qed.

Lemma dfs_of_rates_nth (rs ts : list R) (k : nat) :
  List.length rs = List.length ts -> (k < List.length ts)%nat ->
  nth k (dfs_of_rates rs ts) 0 = exp (- nth k rs 0 * nth k ts 0).
Proof.
  revert ts k; induction rs as [|r rs IH]; intros [|t ts] k H Hk;
    simpl in *; try discriminate; try lia.
  destruct k; [reflexivity | apply IH; lia].
Qed.

(** On a well-formed curve the key-rate shift succeeds and gives the
    shifted nodes. *)
Lemma apply_key_rate_shift_Ok (c : ZeroCurve) (key_tenor shift_bp : R)
    (width : option R) :
  wf_curve c ->
  exists c',
    apply_key_rate_shift c key_tenor shift_bp width = Ok c' /\
    key_shifted c c' key_tenor shift_bp
      (match width with None => default_width key_tenor | Some w => w end).
Proof.
  intros Hwf. destruct (wf_curve_tenors c Hwf) as [Hne [Hasc [Hpos Hlr]]].
  unfold tenors, zero_rates in *.
  set (w := match width with None => default_width key_tenor | Some w => w end).
  set (shifts := map (tent_shift (shift_bp / 10000) key_tenor w) (_tenors c)).
  set (rs := np_add (_rates c) shifts).
  assert (Hls : List.length shifts = List.length (_rates c))
    by (unfold shifts; rewrite length_map; lia).
  assert (Hlrs : List.length rs = List.length (_tenors c))
    by (unfold rs; rewrite np_add_length; lia).
  exists (mkZeroCurve (_tenors c) rs (KeyRateName (name c) key_tenor)
            (Some (dfs_of_rates rs (_tenors c)))).
  split.
  - unfold apply_key_rate_shift, tenors, zero_rates.
    fold w. fold shifts. fold rs.
    apply ZeroCurve_init_zip; auto.
    apply dfs_of_rates_length, Hlrs.
  - unfold key_shifted, tenors, zero_rates.
    cbn [_tenors _rates name _discount_factors].
    split; [reflexivity|]. split; [reflexivity|]. split; [exact Hlrs|].
    exists (dfs_of_rates rs (_tenors c)).
    split; [reflexivity|]. split; [apply dfs_of_rates_length, Hlrs|].
    intros k Hk. cbv zeta. split.
    + unfold rs. rewrite np_add_nth by lia.
      unfold shifts. rewrite map_nth_default by exact Hk.
      rewrite tent_shift_tent. reflexivity.
    + apply dfs_of_rates_nth; assumption.
Qed.

Lemma dfs_of_rates_pos (rs ts : list R) :
  Forall (fun d => 0 < d) (dfs_of_rates rs ts).
Proof.
  revert ts. induction rs as [|r rs IH]; intros [|t ts]; simpl;
    constructor; [apply exp_pos | apply IH].
Qed.

(** A key-rate shift returns a curve with a positive cache. *)
Lemma apply_key_rate_shift_positive (c c' : ZeroCurve)
    (key_tenor shift_bp : R) (width : option R) :
  apply_key_rate_shift c key_tenor shift_bp width = Ok c' ->
  wf_curve c' /\ positive_cache c'.
Proof.
  intros H. unfold apply_key_rate_shift in H.
  split; [apply (ZeroCurve_init_wf _ _ _ _ H)|].
  apply ZeroCurve_init_cache in H.
  intros dfs Hd. rewrite H in Hd. inversion Hd; subst.
  apply dfs_of_rates_pos.
Qed.

(** ** Dictionaries *)

Lemma dict_get_set_same (d : dict) (k v : R) :
  dict_get (dict_set d k v) k = Ok v.
Proof.
  induction d as [|[k' v'] d IH]; simpl.
  - destruct (Req_dec_T k k); [reflexivity | contradiction].
  - destruct (Req_dec_T k k') as [E|E]; simpl.
    + destruct (Req_dec_T k k'); [reflexivity | contradiction].
    + destruct (Req_dec_T k k'); [contradiction | exact IH].
Qed.

Lemma dict_get_set_other (d : dict) (k k' v : R) :
  k' <> k -> dict_get (dict_set d k v) k' = dict_get d k'.
Proof.
  intros Hne. induction d as [|[k0 v0] d IH]; simpl.
  - destruct (Req_dec_T k' k); [contradiction | reflexivity].
  - destruct (Req_dec_T k k0) as [E|E]; simpl.
    + subst. destruct (Req_dec_T k' k0); [contradiction | reflexivity].
    + destruct (Req_dec_T k' k0); [reflexivity | exact IH].
Qed.

(** ** [calculate_key_rate_dv01] *)

Lemma key_rate_loop_step (swap : SwapDefinition) (d f : ZeroCurve)
    (base_npv bump_bp k : R) (kts : list R) (acc : dict) :
  key_rate_loop swap d f base_npv bump_bp (k :: kts) acc =
    (v <- key_rate_value swap d f base_npv bump_bp k ;;
     key_rate_loop swap d f base_npv bump_bp kts (dict_set acc k v)).
Proof.
  cbn [key_rate_loop]. unfold key_rate_value.
  destruct (apply_key_rate_shift d k bump_bp None) as [sd|e];
    [cbn [bind] | reflexivity].
  destruct (apply_key_rate_shift f k bump_bp None) as [sf|e];
    [cbn [bind] | reflexivity].
  destruct (price (mkSwapPricer sd sf) swap) as [sp|e]; reflexivity.
Qed.

(** The dictionary the loop returns holds, for each key tenor, the
    value of its pass, and is otherwise the dictionary it started
    from. *)
Lemma key_rate_loop_spec (swap : SwapDefinition) (d f : ZeroCurve)
    (base_npv bump_bp : R) (kts : list R) (acc m : dict) :
  key_rate_loop swap d f base_npv bump_bp kts acc = Ok m ->
  forall k,
    (In k kts ->
     exists v, key_rate_value swap d f base_npv bump_bp k = Ok v /\
               dict_get m k = Ok v) /\
    (~ In k kts -> dict_get m k = dict_get acc k).
Proof.
  revert acc. induction kts as [|k0 kts IH]; intros acc H k.
  - cbn [key_rate_loop] in H. inversion H; subst.
    split; [intros [] | reflexivity].
  - rewrite key_rate_loop_step in H.
    apply bind_Ok in H. destruct H as [v0 [Hv0 H]].
    destruct (IH _ H k) as [Hin Hout].
    destruct (in_dec Req_dec_T k kts) as [Hk|Hk].
    + split; [intros _; apply Hin, Hk | intros Hn; exfalso; apply Hn; right; exact Hk].
    + split.
      * intros [<-|Hk']; [|contradiction].
        exists v0. split; [exact Hv0|].
        rewrite (Hout Hk). apply dict_get_set_same.
      * intros Hn. rewrite (Hout Hk). apply dict_get_set_other.
        intros E. apply Hn. left. symmetry. exact E.
Qed.

Lemma key_rate_loop_Ok (swap : SwapDefinition) (d f : ZeroCurve)
    (base_npv bump_bp : R) (kts : list R) (acc : dict) :
  (forall k, In k kts ->
     exists v, key_rate_value swap d f base_npv bump_bp k = Ok v) ->
  exists m, key_rate_loop swap d f base_npv bump_bp kts acc = Ok m.
Proof.
  revert acc. induction kts as [|k0 kts IH]; intros acc H.
  - exists acc. reflexivity.
  - destruct (H k0 (or_introl eq_refl)) as [v0 Hv0].
    destruct (IH (dict_set acc k0 v0)) as [m Hm];
      [intros k Hk; apply H; right; exact Hk|].
    exists m. rewrite key_rate_loop_step, Hv0. exact Hm.
Qed.

Lemma key_rate_value_inv (swap : SwapDefinition) (d f : ZeroCurve)
    (base_npv bump_bp k v : R) :
  key_rate_value swap d f base_npv bump_bp k = Ok v ->
  exists sd sf shifted,
    apply_key_rate_shift d k bump_bp None = Ok sd /\
    apply_key_rate_shift f k bump_bp None = Ok sf /\
    price (mkSwapPricer sd sf) swap = Ok shifted /\
    v = npv shifted - base_npv.
Proof.
  unfold key_rate_value. intros H.
  apply bind_Ok in H. destruct H as [sd [Hsd H]].
  apply bind_Ok in H. destruct H as [sf [Hsf H]].
  apply bind_Ok in H. destruct H as [sp [Hsp H]].
  inversion H; subst. exists sd, sf, sp. auto.
Qed.

Lemma key_rate_value_Ok (swap : SwapDefinition) (d f sd sf : ZeroCurve)
    (base_npv bump_bp k : R) (shifted : PricingResult) :
  apply_key_rate_shift d k bump_bp None = Ok sd ->
  apply_key_rate_shift f k bump_bp None = Ok sf ->
  price (mkSwapPricer sd sf) swap = Ok shifted ->
  key_rate_value swap d f base_npv bump_bp k = Ok (npv shifted - base_npv).
Proof.
  intros H1 H2 H3. unfold key_rate_value.
  rewrite H1. cbn [bind]. rewrite H2. cbn [bind]. rewrite H3. reflexivity.
Qed.

(** C7.  [apply_key_rate_shift] adds to the zero rate of every node the
    tent [shift_bp * (1 - |t - key_tenor| / width) / 10000] within
    [width] of the key tenor and 0 outside, the width defaulting to 1
    for a key tenor below one year, 2 from one to five years and 3
    above; [calculate_key_rate_dv01] prices once on the base curves
    and, for each key tenor, shifts both curves by the tent, reprices
    and records [shiftedNPV - baseNPV] under that tenor. *)
Theorem key_rate_dv01_tent (swap : SwapDefinition) (d f : ZeroCurve)
    (key_tenors : list R) (bump_bp : R) :
  (forall c key_tenor shift_bp width, wf_curve c ->
   exists c',
     apply_key_rate_shift c key_tenor shift_bp width = Ok c' /\
     key_shifted c c' key_tenor shift_bp
       (match width with None => default_width key_tenor | Some w => w end)) /\
  (forall key_tenor,
     (key_tenor < 1 -> default_width key_tenor = 1) /\
     (1 <= key_tenor <= 5 -> default_width key_tenor = 2) /\
     (5 < key_tenor -> default_width key_tenor = 3)) /\
  (forall m, calculate_key_rate_dv01 swap d f key_tenors bump_bp = Ok m ->
   exists base,
     price (mkSwapPricer d f) swap = Ok base /\
     (forall k, In k key_tenors ->
      exists sd sf shifted,
        apply_key_rate_shift d k bump_bp None = Ok sd /\
        apply_key_rate_shift f k bump_bp None = Ok sf /\
        price (mkSwapPricer sd sf) swap = Ok shifted /\
        dict_get m k = Ok (npv shifted - npv base)) /\
     (forall k, ~ In k key_tenors -> dict_get m k = Err KeyError)) /\
  (forall base, price (mkSwapPricer d f) swap = Ok base ->
   (forall k, In k key_tenors ->
    exists sd sf shifted,
      apply_key_rate_shift d k bump_bp None = Ok sd /\
      apply_key_rate_shift f k bump_bp None = Ok sf /\
      price (mkSwapPricer sd sf) swap = Ok shifted) ->
   exists m, calculate_key_rate_dv01 swap d f key_tenors bump_bp = Ok m).
Proof.
  split; [|split; [|split]].
  - intros c key_tenor shift_bp width Hwf.
    apply apply_key_rate_shift_Ok, Hwf.
  - apply default_width_cases.
  - intros m H. unfold calculate_key_rate_dv01 in H.
    apply bind_Ok in H. destruct H as [base [Hbase H]].
    exists base. split; [exact Hbase|].
    pose proof (key_rate_loop_spec _ _ _ _ _ _ _ _ H) as Hspec.
    split.
    + intros k Hk. destruct (proj1 (Hspec k) Hk) as [v [Hv Hget]].
      destruct (key_rate_value_inv _ _ _ _ _ _ _ Hv)
        as [sd [sf [sp [H1 [H2 [H3 ->]]]]]].
      exists sd, sf, sp. auto.
    + intros k Hk. rewrite (proj2 (Hspec k) Hk). reflexivity.
  - intros base Hbase Hall. unfold calculate_key_rate_dv01.
    rewrite Hbase. cbn [bind].
    apply key_rate_loop_Ok. intros k Hk.
    destruct (Hall k Hk) as [sd [sf [sp [H1 [H2 H3]]]]].
    eexists. apply (key_rate_value_Ok _ _ _ sd sf _ _ _ sp); assumption.
Qed.

Lemma key_rate_dv01_tent_witness :
  (exists c',
     apply_key_rate_shift flat_curve 1 1 None = Ok c' /\
     key_shifted flat_curve c' 1 1 (default_width 1)) /\
  default_width 1 = 2 /\
  exists m,
    calculate_key_rate_dv01 (annual_swap (3 / 100)) flat_curve flat_curve
      [1; 5] 1 = Ok m.
Proof.
  pose proof (key_rate_dv01_tent (annual_swap (3 / 100)) flat_curve
                flat_curve [1; 5] 1) as [H1 [H2 [_ H4]]].
  split; [apply (H1 flat_curve 1 1 None flat_curve_wf)|].
  split; [apply (proj1 (proj2 (H2 1))); lra|].
  destruct (annual_swap_price (mkSwapPricer flat_curve flat_curve) (3 / 100)
              flat_curve_df_one)
    as [_ [_ [base [_ [_ [Hbase _]]]]]].
  apply (H4 base Hbase).
  intros k _.
  destruct (H1 flat_curve k 1 None flat_curve_wf) as [sd [Hsd _]].
  destruct (apply_key_rate_shift_positive _ _ _ _ _ Hsd) as [Wsd Psd].
  destruct (annual_swap_price (mkSwapPricer sd sd) (3 / 100)
              (discount_factor_positive sd 1 Wsd Psd))
    as [_ [_ [sp [_ [_ [Hsp _]]]]]].
  exists sd, sd, sp. auto.
Defined.

(** * Further properties of the code *)

(** ** Interpolation at the nodes *)

Lemma strictly_ascending_ascending (l : list R) :
  strictly_ascending l -> ascending (fun t => t) l.
Proof.
  unfold strictly_ascending, ascending.
  induction 1 as [|x l Hs IH Hall]; constructor; auto.
  rewrite Forall_forall in *. intros y Hy. left. auto.
Qed.

Lemma strictly_ascending_nth (l : list R) (i j : nat) :
  strictly_ascending l -> (i < j < List.length l)%nat ->
  nth i l 0 < nth j l 0.
Proof.
  unfold strictly_ascending. intros Hs. revert i j.
  induction Hs as [|x l Hs IH Hall]; intros i j Hij; simpl in Hij; [lia|].
  destruct j as [|j]; [lia|]. destruct i as [|i].
  - simpl. rewrite Forall_forall in Hall. apply Hall, nth_In. lia.
  - simpl. apply IH. lia.
Qed.

Lemma last_as_nth (l : list R) :
  last l 0 = nth (List.length l - 1) l 0.
Proof.
  induction l as [|x l IH]; [reflexivity|].
  destruct l as [|y l]; [reflexivity|].
  change (last (x :: y :: l) 0) with (last (y :: l) 0). rewrite IH.
  simpl. rewrite Nat.sub_0_r. reflexivity.
Qed.

Lemma hd_as_nth (l : list R) : hd 0 l = nth 0 l 0.
Proof. destruct l; reflexivity. Qed.

(** At a sample point the interpolation returns the sample. *)
Lemma np_interp_node (xp fp : list R) (k : nat) :
  strictly_ascending xp -> List.length xp = List.length fp ->
  (k < List.length xp)%nat ->
  np_interp (nth k xp 0) xp fp = nth k fp 0.
Proof.
  intros Hs Hlen Hk.
  pose proof (strictly_ascending_ascending xp Hs) as Hasc.
  destruct (Nat.eq_dec (S k) (List.length xp)) as [E|E].
  - rewrite np_interp_right; auto.
    + rewrite last_as_nth. f_equal. lia.
    + intros E'. rewrite E' in Hk. simpl in Hk. lia.
    + rewrite last_as_nth. replace (List.length xp - 1)%nat with k by lia. lra.
  - rewrite (np_interp_chord _ xp fp k); auto; [| lia |].
    + unfold Rdiv. ring.
    + split; [lra|]. apply strictly_ascending_nth; [exact Hs | lia].
Qed.

(** ** [ZeroCurve.zero_rate] *)

(** X1.  On a curve object [zero_rate] extrapolates flat: below the
    first node tenor it returns the first rate and from the last node
    tenor on the last rate; when the tenors strictly increase it
    returns at every node tenor the rate stored there. *)
Theorem zero_rate_nodes (c : ZeroCurve) :
  wf_curve c ->
  (forall t, t < hd 0 (tenors c) -> zero_rate c t = hd 0 (zero_rates c)) /\
  (forall t, last (tenors c) 0 <= t -> zero_rate c t = last (zero_rates c) 0) /\
  (strictly_ascending (tenors c) ->
   forall k, (k < List.length (tenors c))%nat ->
     zero_rate c (nth k (tenors c) 0) = nth k (zero_rates c) 0).
Proof.
  intros Hwf. unfold tenors, zero_rates.
  pose proof Hwf as [Hne [Hlen [Hasc [Hpos _]]]].
  split; [|split].
  - intros t Ht. rewrite zero_rate_interp by exact Hwf.
    destruct (_tenors c) as [|x0 xp]; [contradiction|].
    destruct (_rates c) as [|y0 fp]; [discriminate|].
    apply np_interp_left. exact Ht.
  - intros t Ht. rewrite zero_rate_interp by exact Hwf.
    apply np_interp_right; auto.
  - intros Hs k Hk. rewrite zero_rate_interp by exact Hwf.
    apply np_interp_node; auto.
Qed.

Lemma zero_rate_nodes_witness :
  zero_rate steep_curve (nth 1 (tenors steep_curve) 0)
  = nth 1 (zero_rates steep_curve) 0.
Proof.
  assert (Hwf : wf_curve steep_curve).
  { unfold wf_curve, steep_curve, ascending; simpl.
    repeat split; try discriminate; repeat constructor; lra. }
  apply (proj2 (proj2 (zero_rate_nodes steep_curve Hwf))).
  - unfold strictly_ascending. simpl. repeat constructor. lra.
  - simpl. lia.
Defined.

(** ** Discount factors at the nodes *)

Lemma exp_neg_implied (d t : R) : 0 < d -> t <> 0 -> exp (- (- ln d / t) * t) = d.
Proof.
  intros Hd Ht. replace (- (- ln d / t) * t) with (ln d) by (field; exact Ht).
  apply exp_ln, Hd.
Qed.

(** On a curve whose rates are implied by its cache, the discount
    factor at a node tenor is the cached one. *)
Lemma discount_factor_node (c : ZeroCurve) (dfs : list R) (k : nat) :
  wf_curve c -> strictly_ascending (_tenors c) -> cache_consistent c dfs ->
  (k < List.length (_tenors c))%nat ->
  discount_factor c (nth k (_tenors c) 0) = nth k dfs 0.
Proof.
  intros [Hne [Hlen [Hasc [Hpos Hcache]]]] Hs [Hsome [Hdpos Hrates]] Hk.
  specialize (Hcache dfs Hsome).
  rewrite Forall_forall in Hpos, Hdpos.
  assert (Htk : 0 < nth k (_tenors c) 0) by (apply Hpos, nth_In, Hk).
  assert (Hdk : forall j, (j < List.length (_tenors c))%nat -> 0 < nth j dfs 0)
    by (intros j Hj; apply Hdpos, nth_In; lia).
  unfold discount_factor.
  destruct (Rle_dec (nth k (_tenors c) 0) 0); [lra|].
  rewrite Hsome. cbv zeta. rewrite !hd_as_nth.
  destruct (Rle_dec (nth k (_tenors c) 0) (nth 0 (_tenors c) 0)) as [H0|H0].
  - assert (k = 0%nat).
    { destruct k; [reflexivity|].
      pose proof (strictly_ascending_nth (_tenors c) 0 (S k) Hs ltac:(lia)).
      lra. }
    subst k. rewrite Hrates, implied_rates_nth by lia.
    apply exp_neg_implied; [apply Hdk; lia | lra].
  - rewrite !last_as_nth.
    destruct (Rle_dec (nth (List.length (_tenors c) - 1) (_tenors c) 0)
                      (nth k (_tenors c) 0)) as [H1|H1].
    + assert (k = (List.length (_tenors c) - 1)%nat).
      { destruct (Nat.eq_dec k (List.length (_tenors c) - 1)); [assumption|].
        pose proof (strictly_ascending_nth (_tenors c) k
                      (List.length (_tenors c) - 1) Hs ltac:(lia)).
        lra. }
      rewrite Hcache. rewrite <- H.
      replace (nth k (_tenors c) 0 - nth k (_tenors c) 0) with 0 by ring.
      rewrite Rmult_0_r, exp_0. ring.
    + rewrite np_interp_node; auto; [|rewrite length_map; lia].
      rewrite map_nth_default by lia. apply exp_ln, Hdk, Hk.
Qed.

Lemma node_discount_factors (c : ZeroCurve) (dfs : list R) :
  wf_curve c -> strictly_ascending (_tenors c) -> cache_consistent c dfs ->
  map (discount_factor c) (_tenors c) = dfs.
Proof.
  intros Hwf Hs Hc.
  assert (Hlen : List.length dfs = List.length (_tenors c)).
  { destruct Hwf as [_ [_ [_ [_ Hcache]]]]. apply Hcache, (proj1 Hc). }
  apply (nth_ext _ _ 0 0); [rewrite length_map; lia|].
  intros k Hk. rewrite length_map in Hk.
  rewrite map_nth_default by exact Hk.
  apply discount_factor_node; assumption.
Qed.

Lemma curve_rows_length (ts rs ds : list R) :
  List.length rs = List.length ts -> List.length ds = List.length ts ->
  List.length (curve_rows ts rs ds) = List.length ts.
Proof.
  revert rs ds. induction ts as [|t ts IH]; intros [|r rs] [|d ds] H1 H2;
    simpl in *; try discriminate; auto.
Qed.

(** X2.  On a curve with strictly increasing tenors whose rates are the
    ones implied by its positive cached discount factors (as the
    bootstrap and [bump_curve] build it), [discount_factor] at every
    node tenor is the cached discount factor, and [as_dataframe] lists
    each node with its stored rate and its cached discount factor. *)
Theorem as_dataframe_cache (c : ZeroCurve) (dfs : list R) :
  wf_curve c -> strictly_ascending (tenors c) -> cache_consistent c dfs ->
  (forall k, (k < List.length (tenors c))%nat ->
     discount_factor c (nth k (tenors c) 0) = nth k dfs 0) /\
  as_dataframe c = curve_rows (tenors c) (zero_rates c) dfs /\
  List.length (as_dataframe c) = List.length (tenors c).
Proof.
  unfold tenors, zero_rates. intros Hwf Hs Hc.
  assert (E : as_dataframe c = curve_rows (_tenors c) (_rates c) dfs)
    by (unfold as_dataframe; rewrite (node_discount_factors c dfs);
        auto).
  split; [intros k Hk; apply discount_factor_node; assumption|].
  split; [exact E|].
  rewrite E. destruct Hwf as [_ [Hlen [_ [_ Hcache]]]].
  apply curve_rows_length; [exact Hlen | apply Hcache, (proj1 Hc)].
Qed.

Lemma flat_cached_curve_consistent :
  cache_consistent flat_cached_curve
    [exp (- (5 / 100) * 1); exp (- (5 / 100) * 2)].
Proof.
  unfold cache_consistent, flat_cached_curve. simpl.
  split; [reflexivity|].
  split; [repeat constructor; apply exp_pos|].
  rewrite !ln_exp. f_equal; [field | f_equal; field].
Qed.

Lemma flat_cached_curve_strict :
  strictly_ascending (tenors flat_cached_curve).
Proof. unfold strictly_ascending. simpl. repeat constructor. lra. Qed.

Lemma as_dataframe_cache_witness :
  as_dataframe flat_cached_curve
  = curve_rows (tenors flat_cached_curve) (zero_rates flat_cached_curve)
      [exp (- (5 / 100) * 1); exp (- (5 / 100) * 2)].
Proof.
  apply (proj1 (proj2 (as_dataframe_cache flat_cached_curve _
                         flat_cached_curve_wf flat_cached_curve_strict
                         flat_cached_curve_consistent))).
Defined.

(** ** Composing parallel bumps *)

Lemma bump_curve_eq (c : ZeroCurve) (bump_bp : R) :
  wf_curve c ->
  let dfs' := decay (bump_bp / 10000)
                    (map (discount_factor c) (_tenors c)) (_tenors c) in
  bump_curve c bump_bp =
    Ok (mkZeroCurve (_tenors c) (implied_rates dfs' (_tenors c))
          (BumpedName (name c) bump_bp) (Some dfs')) /\
  List.length dfs' = List.length (_tenors c).
Proof.
  intros Hwf dfs'.
  destruct (wf_curve_tenors c Hwf) as [Hne [Hasc [Hpos _]]].
  unfold tenors in *.
  assert (Hl : List.length dfs' = List.length (_tenors c))
    by (apply decay_length, length_map).
  split; [|exact Hl].
  unfold bump_curve, tenors. fold dfs'.
  apply ZeroCurve_init_zip; auto.
  apply implied_rates_length, Hl.
Qed.

Lemma decay_decay (x y : R) (a ts : list R) :
  decay y (decay x a ts) ts = decay (x + y) a ts.
Proof.
  revert ts. induction a as [|d a IH]; intros [|t ts]; simpl; auto.
  rewrite IH. f_equal.
  replace (- (x + y) * t) with (- x * t + - y * t) by ring.
  rewrite exp_plus. ring.
Qed.

Lemma decay_zero (a ts : list R) :
  List.length a = List.length ts -> decay 0 a ts = a.
Proof.
  revert ts. induction a as [|d a IH]; intros [|t ts] H; simpl in *;
    try discriminate; auto.
  rewrite IH by lia. f_equal.
  replace (- 0 * t) with 0 by ring. rewrite exp_0. ring.
Qed.

(** The curve a bump returns is well formed, keeps the tenors, and its
    rates are implied by its cache. *)
Lemma bump_curve_consistent (c c' : ZeroCurve) (bump_bp : R) :
  wf_curve c ->
  (forall dfs, _discount_factors c = Some dfs -> 0 < last dfs 0) ->
  bump_curve c bump_bp = Ok c' ->
  wf_curve c' /\ _tenors c' = _tenors c /\
  cache_consistent c'
    (decay (bump_bp / 10000) (map (discount_factor c) (_tenors c))
           (_tenors c)).
Proof.
  intros Hwf Hlast H.
  destruct (bump_curve_eq c bump_bp Hwf) as [E Hl].
  cbv zeta in E. rewrite E in H. inversion H; subst; clear H.
  split; [|split; [reflexivity|]].
  - destruct (wf_curve_tenors c Hwf) as [Hne [Hasc [Hpos _]]].
    unfold tenors in *. unfold wf_curve. cbn [_tenors _rates _discount_factors].
    repeat split; auto.
    + apply implied_rates_length, Hl.
    + intros dfs Hd. inversion Hd; subst. exact Hl.
  - unfold cache_consistent. cbn [_tenors _rates _discount_factors].
    split; [reflexivity|]. split; [|reflexivity].
    apply decay_pos. rewrite Forall_forall. intros y Hy.
    apply in_map_iff in Hy. destruct Hy as [t [<- _]].
    apply discount_factor_pos, Hlast.
Qed.

(** Two bumps in a row give the nodes of one bump by the sum. *)
Lemma bump_curve_twice (c : ZeroCurve) (a b : R) :
  wf_curve c -> strictly_ascending (_tenors c) ->
  (forall dfs, _discount_factors c = Some dfs -> 0 < last dfs 0) ->
  exists c1 c2 c12,
    bump_curve c a = Ok c1 /\ bump_curve c1 b = Ok c2 /\
    bump_curve c (a + b) = Ok c12 /\
    _tenors c2 = _tenors c12 /\ _rates c2 = _rates c12 /\
    _discount_factors c2 = _discount_factors c12.
Proof.
  intros Hwf Hs Hlast.
  destruct (bump_curve_Ok c a Hwf) as [c1 [E1 _]].
  destruct (bump_curve_eq c (a + b) Hwf) as [E12 _]. cbv zeta in E12.
  destruct (bump_curve_consistent c c1 a Hwf Hlast E1) as [Hwf1 [Ht1 Hc1]].
  destruct (bump_curve_eq c1 b Hwf1) as [E2 _]. cbv zeta in E2.
  assert (Hs1 : strictly_ascending (_tenors c1)) by (rewrite Ht1; exact Hs).
  rewrite (node_discount_factors c1 _ Hwf1 Hs1 Hc1) in E2.
  rewrite Ht1, decay_decay in E2.
  replace (a / 10000 + b / 10000) with ((a + b) / 10000) in E2 by field.
  exists c1. eexists; eexists.
  split; [exact E1|]. split; [exact E2|]. split; [exact E12|].
  cbn [_tenors _rates _discount_factors]. auto.
Qed.

(** X3.  Bumping a curve by [a] and the result by [b] gives the same
    node tenors, zero rates and cached discount factors as bumping it
    once by [a + b] (the tenors strictly increasing, and a cache, if
    the curve has one, ending in a positive discount factor). *)
Theorem bump_curve_compose (c : ZeroCurve) (a b : R) :
  wf_curve c -> strictly_ascending (tenors c) ->
  (forall dfs, _discount_factors c = Some dfs -> 0 < last dfs 0) ->
  exists c1 c2 c12,
    bump_curve c a = Ok c1 /\ bump_curve c1 b = Ok c2 /\
    bump_curve c (a + b) = Ok c12 /\
    tenors c2 = tenors c12 /\ zero_rates c2 = zero_rates c12 /\
    _discount_factors c2 = _discount_factors c12.
Proof. unfold tenors, zero_rates. apply bump_curve_twice. Qed.

Lemma flat_curve_strict : strictly_ascending (tenors flat_curve).
Proof. unfold strictly_ascending. simpl. repeat constructor. lra. Qed.

Lemma bump_curve_compose_witness :
  exists c1 c2 c12,
    bump_curve flat_curve 1 = Ok c1 /\ bump_curve c1 50 = Ok c2 /\
    bump_curve flat_curve (1 + 50) = Ok c12 /\
    zero_rates c2 = zero_rates c12.
Proof.
  destruct (bump_curve_compose flat_curve 1 50 flat_curve_wf flat_curve_strict)
    as [c1 [c2 [c12 [H1 [H2 [H3 [_ [H4 _]]]]]]]].
  - intros dfs H. discriminate.
  - exists c1, c2, c12. auto.
Defined.

Lemma implied_rates_of_rates (rs ts : list R) :
  List.length rs = List.length ts -> Forall (fun t => 0 < t) ts ->
  implied_rates (dfs_of_rates rs ts) ts = rs.
Proof.
  revert ts. induction rs as [|r rs IH]; intros [|t ts] Hlen Hpos;
    simpl in *; try discriminate; auto.
  inversion Hpos; subst. rewrite IH by (auto; lia). f_equal.
  rewrite ln_exp. field. lra.
Qed.

(** The node discount factors of a curve without cache. *)
Lemma uncached_node_discount_factors (c : ZeroCurve) :
  wf_curve c -> strictly_ascending (_tenors c) -> _discount_factors c = None ->
  map (discount_factor c) (_tenors c) = dfs_of_rates (_rates c) (_tenors c).
Proof.
  intros Hwf Hs Hnone.
  pose proof Hwf as [Hne [Hlen [Hasc [Hpos _]]]].
  apply (nth_ext _ _ 0 0);
    [rewrite length_map, dfs_of_rates_length; auto|].
  intros k Hk. rewrite length_map in Hk.
  rewrite map_nth_default, dfs_of_rates_nth by auto.
  rewrite Forall_forall in Hpos.
  assert (Ht : 0 < nth k (_tenors c) 0) by (apply Hpos, nth_In, Hk).
  unfold discount_factor. rewrite Hnone.
  destruct (Rle_dec (nth k (_tenors c) 0) 0); [lra|].
  rewrite zero_rate_interp, np_interp_node by auto. reflexivity.
Qed.

(** A bump by zero returns the nodes it was given. *)
Lemma bump_curve_zero_nodes (c : ZeroCurve) :
  wf_curve c -> strictly_ascending (_tenors c) ->
  (_discount_factors c = None \/ exists dfs, cache_consistent c dfs) ->
  exists c',
    bump_curve c 0 = Ok c' /\ _tenors c' = _tenors c /\ _rates c' = _rates c /\
    _discount_factors c' = Some (map (discount_factor c) (_tenors c)).
Proof.
  intros Hwf Hs Hcase.
  destruct (bump_curve_eq c 0 Hwf) as [E _]. cbv zeta in E.
  replace (0 / 10000) with 0 in E by field.
  rewrite decay_zero in E by apply length_map.
  eexists. split; [exact E|]. cbn [_tenors _rates _discount_factors].
  split; [reflexivity|]. split; [|reflexivity].
  pose proof Hwf as [_ [Hlen [_ [Hpos _]]]].
  destruct Hcase as [Hnone|[dfs Hc]].
  - rewrite uncached_node_discount_factors by assumption.
    apply implied_rates_of_rates; assumption.
  - rewrite (node_discount_factors c dfs) by assumption.
    symmetry. apply Hc.
Qed.

(** X4.  A parallel bump by zero basis points gives back the node
    tenors and zero rates of the curve, with the discount factors of
    the curve at its nodes as cache, when the tenors strictly increase
    and the curve has no cache or one that its rates are implied by. *)
Theorem bump_curve_zero (c : ZeroCurve) :
  wf_curve c -> strictly_ascending (tenors c) ->
  (_discount_factors c = None \/ exists dfs, cache_consistent c dfs) ->
  exists c',
    bump_curve c 0 = Ok c' /\
    tenors c' = tenors c /\ zero_rates c' = zero_rates c /\
    _discount_factors c' = Some (map (discount_factor c) (tenors c)).
Proof. unfold tenors, zero_rates. apply bump_curve_zero_nodes. Qed.

Lemma bump_curve_zero_witness :
  exists c',
    bump_curve flat_curve 0 = Ok c' /\ zero_rates c' = zero_rates flat_curve.
Proof.
  destruct (bump_curve_zero flat_curve flat_curve_wf flat_curve_strict)
    as [c' [H1 [_ [H2 _]]]].
  - left. reflexivity.
  - exists c'. auto.
Defined.

(** ** [ZeroCurve.from_dataframe] *)

Lemma zip_points_map (df : list Quote) :
  map (fun row => mkCurvePoint (tenor_years row) (quote_rate row)) df
  = zip_points (map tenor_years df) (map quote_rate df).
Proof. induction df as [|q df IH]; simpl; [|rewrite IH]; reflexivity. Qed.

Lemma dfs_of_rates_map (df : list Quote) :
  map (fun row => exp (- quote_rate row * tenor_years row)) df
  = dfs_of_rates (map quote_rate df) (map tenor_years df).
Proof. induction df as [|q df IH]; simpl; [|rewrite IH]; reflexivity. Qed.

(** A frame in strictly increasing order of positive tenors becomes the
    curve over its rows. *)
Lemma from_dataframe_sorted (df : list Quote) (nm : label) :
  df <> [] -> strictly_ascending (map tenor_years df) ->
  Forall (fun t => 0 < t) (map tenor_years df) ->
  let c := mkZeroCurve (map tenor_years df) (map quote_rate df) nm
             (Some (dfs_of_rates (map quote_rate df) (map tenor_years df))) in
  from_dataframe df nm = Ok c /\ wf_curve c /\
  cache_consistent c (dfs_of_rates (map quote_rate df) (map tenor_years df)).
Proof.
  intros Hne Hs Hpos c.
  assert (Hl : List.length (map quote_rate df)
               = List.length (map tenor_years df))
    by (rewrite !length_map; reflexivity).
  assert (E : from_dataframe df nm = Ok c).
  { unfold from_dataframe. rewrite zip_points_map, dfs_of_rates_map.
    apply ZeroCurve_init_zip; auto.
    - intros E. apply map_eq_nil in E. contradiction.
    - apply dfs_of_rates_length, Hl.
    - apply strictly_ascending_ascending, Hs. }
  split; [exact E|]. split.
  - unfold from_dataframe in E. apply (ZeroCurve_init_wf _ _ _ _ E).
  - unfold cache_consistent, c. cbn [_tenors _rates _discount_factors].
    split; [reflexivity|]. split.
    + rewrite <- dfs_of_rates_map. rewrite Forall_forall. intros y Hy.
      apply in_map_iff in Hy. destruct Hy as [q [<- _]]. apply exp_pos.
    + symmetry. apply implied_rates_of_rates; assumption.
Qed.

(** X5.  [from_dataframe] fails with [IndexError] on a frame without
    rows and with the validation error when a tenor is not positive;
    on any other frame it returns a curve.  On a frame in strictly
    increasing order of tenor the curve gives every quote back:
    [zero_rate] at a quoted tenor is the quoted rate and
    [discount_factor] there is [exp(-rate * tenor)]. *)
Theorem from_dataframe_round_trip (df : list Quote) (nm : label) :
  (df = [] -> from_dataframe df nm = Err IndexError) /\
  ((exists q, In q df /\ tenor_years q <= 0) ->
   from_dataframe df nm = Err (ValueError tenors_positive_msg)) /\
  (df <> [] -> (forall q, In q df -> 0 < tenor_years q) ->
   exists c, from_dataframe df nm = Ok c /\ wf_curve c /\
             List.length (tenors c) = List.length df) /\
  (df <> [] -> (forall q, In q df -> 0 < tenor_years q) ->
   strictly_ascending (map tenor_years df) ->
   exists c, from_dataframe df nm = Ok c /\
     forall q, In q df ->
       zero_rate c (tenor_years q) = quote_rate q /\
       discount_factor c (tenor_years q)
       = exp (- quote_rate q * tenor_years q)).
Proof.
  split; [|split; [|split]].
  - intros ->. reflexivity.
  - intros [q [Hq Ht]]. unfold from_dataframe.
    apply ZeroCurve_init_nonpositive.
    exists (mkCurvePoint (tenor_years q) (quote_rate q)).
    split; [|exact Ht].
    apply (in_map (fun row => mkCurvePoint (tenor_years row) (quote_rate row))),
      Hq.
  - intros Hne Hpos. unfold from_dataframe.
    set (pts := map (fun row => mkCurvePoint (tenor_years row) (quote_rate row))
                    df).
    assert (E := ZeroCurve_init_positive pts nm
                   (Some (map (fun row => exp (- quote_rate row * tenor_years row))
                              df))).
    rewrite E.
    + unfold pts. rewrite !length_map, Nat.eqb_refl.
      eexists. split; [reflexivity|]. split.
      * apply (ZeroCurve_init_wf pts nm
                 (Some (map (fun row => exp (- quote_rate row * tenor_years row))
                            df))).
        rewrite E.
        -- unfold pts. rewrite !length_map, Nat.eqb_refl. reflexivity.
        -- intros E'. apply map_eq_nil in E'. contradiction.
        -- intros p Hp. apply in_map_iff in Hp.
           destruct Hp as [q [<- Hq]]. apply Hpos, Hq.
      * unfold tenors. cbn [_tenors].
        rewrite length_map, sorted_by_length, length_map. reflexivity.
    + intros E'. apply map_eq_nil in E'. contradiction.
    + intros p Hp. apply in_map_iff in Hp.
      destruct Hp as [q [<- Hq]]. apply Hpos, Hq.
  - intros Hne Hpos Hs.
    assert (HposF : Forall (fun t => 0 < t) (map tenor_years df)).
    { rewrite Forall_forall. intros t Ht. apply in_map_iff in Ht.
      destruct Ht as [q [<- Hq]]. apply Hpos, Hq. }
    destruct (from_dataframe_sorted df nm Hne Hs HposF) as [E [Hwf Hc]].
    cbv zeta in E, Hwf, Hc.
    eexists. split; [exact E|].
    intros q Hq. destruct (In_nth _ _ q Hq) as [k [Hk Hnth]].
    assert (Ht : tenor_years q = nth k (map tenor_years df) 0).
    { rewrite (nth_indep _ 0 (tenor_years q)) by (rewrite length_map; exact Hk).
      rewrite map_nth, Hnth. reflexivity. }
    assert (Hr : quote_rate q = nth k (map quote_rate df) 0).
    { rewrite (nth_indep _ 0 (quote_rate q)) by (rewrite length_map; exact Hk).
      rewrite map_nth, Hnth. reflexivity. }
    split.
    + rewrite zero_rate_interp by exact Hwf. cbn [_tenors _rates].
      rewrite Ht, Hr. apply np_interp_node;
        [exact Hs | rewrite !length_map; reflexivity
         | rewrite length_map; exact Hk].
    + pose proof (discount_factor_node _ _ k Hwf Hs Hc) as Hd.
      cbn [_tenors] in Hd. rewrite length_map in Hd.
      rewrite Ht, Hr, (Hd Hk).
      apply dfs_of_rates_nth; rewrite ?length_map; auto.
Qed.

Lemma from_dataframe_round_trip_witness :
  exists c,
    from_dataframe sample_quotes (Named "zero") = Ok c /\
    zero_rate c 1 = 4 / 100.
Proof.
  destruct (proj2 (proj2 (proj2 (from_dataframe_round_trip sample_quotes
                                   (Named "zero")))))
    as [c [H1 H2]].
  - discriminate.
  - intros q [<-|[<-|[]]]; simpl; lra.
  - unfold strictly_ascending. simpl. repeat constructor. lra.
  - exists c. split; [exact H1|].
    apply (H2 (mkQuote 1 (4 / 100))). right. left. reflexivity.
Defined.

(** ** [apply_non_parallel_shift] as an interpolation *)

Lemma sorted_by_map_fst (d : dict) :
  sorted_by (fun k => k) (map fst d) = map fst (sorted_by fst d).
Proof.
  induction d as [|[k v] d IH]; [reflexivity|].
  cbn [map sorted_by fold_right fst]. fold (sorted_by (fun k : R => k) (map fst d)).
  fold (sorted_by (@fst R R) d). rewrite IH.
  generalize (sorted_by (@fst R R) d). intros l.
  induction l as [|[k' v'] l IHl]; [reflexivity|].
  cbn [map insert_by fst].
  destruct (Rlt_dec k' k); cbn [map fst]; [rewrite IHl|]; reflexivity.
Qed.

Lemma insert_by_NoDup (x : R) (l : list R) :
  ~ In x l -> NoDup l -> NoDup (insert_by (fun k => k) x l).
Proof.
  induction l as [|y l IH]; intros Hx Hnd; simpl.
  - constructor; [intros [] | constructor].
  - inversion Hnd as [|? ? Hy Hl]; subst.
    destruct (Rlt_dec y x).
    + constructor.
      * intros Hin. apply insert_by_In in Hin.
        destruct Hin as [->|Hin]; [apply Hx; left; reflexivity | contradiction].
      * apply IH; [intros Hin; apply Hx; right; exact Hin | exact Hl].
    + constructor; assumption.
Qed.

Lemma sorted_by_NoDup (l : list R) :
  NoDup l -> NoDup (sorted_by (fun k => k) l).
Proof.
  induction 1 as [|x l Hx Hl IH]; simpl; [constructor|].
  apply insert_by_NoDup; [|exact IH].
  intros Hin. apply sorted_by_In in Hin. contradiction.
Qed.

Lemma ascending_NoDup_strict (l : list R) :
  ascending (fun t => t) l -> NoDup l -> strictly_ascending l.
Proof.
  unfold ascending, strictly_ascending.
  induction 1 as [|x l Hs IH Hall]; intros Hnd; constructor.
  - apply IH. inversion Hnd; assumption.
  - inversion Hnd as [|? ? Hx Hl]; subst.
    rewrite Forall_forall in *. intros y Hy.
    specialize (Hall y Hy). destruct Hall as [Hlt|Heq]; [exact Hlt|].
    subst. contradiction.
Qed.

Lemma sorted_keys_strict (d : dict) :
  NoDup (dict_keys d) -> strictly_ascending (map fst (sorted_items d)).
Proof.
  intros Hnd. unfold sorted_items. rewrite <- sorted_by_map_fst.
  apply ascending_NoDup_strict.
  - apply (sorted_by_ascending (fun k : R => k)).
  - apply sorted_by_NoDup, Hnd.
Qed.

Lemma dict_mem_In (d : dict) (k : R) :
  dict_mem k d = true <-> In k (dict_keys d).
Proof.
  induction d as [|[k' v] d IH]; simpl.
  - split; [discriminate | intros []].
  - destruct (Req_dec_T k k') as [E|E].
    + split; [intros _; left; symmetry; exact E | reflexivity].
    + rewrite IH. split; [intros H; right; exact H|].
      intros [H|H]; [exfalso; apply E; symmetry; exact H | exact H].
Qed.

(** Look-up finds the value stored under a key. *)
Lemma dict_get_In (d : dict) (k v : R) :
  NoDup (dict_keys d) -> In (k, v) d -> dict_get d k = Ok v.
Proof.
  induction d as [|[k' v'] d IH]; intros Hnd Hin; [contradiction|].
  simpl in Hnd. inversion Hnd as [|? ? Hk' Hd]; subst.
  simpl. destruct Hin as [E|Hin].
  - inversion E; subst. destruct (Req_dec_T k k); [reflexivity | contradiction].
  - destruct (Req_dec_T k k') as [E|E]; [|apply IH; assumption].
    subst. exfalso. apply Hk'.
    apply (in_map fst) in Hin. exact Hin.
Qed.

Lemma dict_get_missing (d : dict) (k : R) :
  ~ In k (dict_keys d) -> dict_get d k = Err KeyError.
Proof.
  induction d as [|[k' v] d IH]; intros H; [reflexivity|].
  simpl. destruct (Req_dec_T k k') as [E|E].
  - exfalso. apply H. left. symmetry. exact E.
  - apply IH. intros Hin. apply H. right. exact Hin.
Qed.

Lemma bracket_shift_step (d : dict) (t t1 t2 : R) (rest : list R) :
  bracket_shift d t (t1 :: t2 :: rest) =
    if Rle_dec t1 t then
      if Rle_dec t t2 then
        v1 <- dict_get d t1 ;;
        v2 <- dict_get d t2 ;;
        Ok (Some (v1 / 10000
                  + (if Req_dec_T t2 t1 then 0 else (t - t1) / (t2 - t1))
                    * (v2 / 10000 - v1 / 10000)))
      else bracket_shift d t (t2 :: rest)
    else bracket_shift d t (t2 :: rest).
Proof. reflexivity. Qed.

(** Between the smallest and the largest key the search loop returns
    the chord that [np.interp] returns. *)
Lemma bracket_shift_interp (d : dict) (t : R) (items : list (R * R))
    (x0 y0 : R) :
  (forall k v, In (k, v) ((x0, y0) :: items) -> dict_get d k = Ok v) ->
  strictly_ascending (x0 :: map fst items) ->
  x0 <= t -> ~ In t (x0 :: map fst items) ->
  t < last (x0 :: map fst items) 0 ->
  bracket_shift d t (x0 :: map fst items)
  = Ok (Some (interp_from t x0 y0 (map fst items) (map snd items) / 10000)).
Proof.
  revert x0 y0. induction items as [|[x1 y1] items IH];
    intros x0 y0 Hget Hs H0 Hnin Hlast.
  - simpl in Hlast. lra.
  - assert (Hx01 : x0 < x1).
    { inversion Hs as [|? ? _ Hall]; subst. inversion Hall; assumption. }
    assert (Htx1 : t <> x1).
    { intros E. apply Hnin. right. left. symmetry. exact E. }
    cbn [map fst snd interp_from]. rewrite bracket_shift_step.
    destruct (Rle_dec x0 t) as [_|]; [|contradiction].
    destruct (Rle_dec t x1) as [H1|H1]; destruct (Rle_dec x1 t) as [H2|H2];
      try lra.
    + rewrite (Hget x0 y0) by (left; reflexivity).
      rewrite (Hget x1 y1) by (right; left; reflexivity).
      cbn [bind]. destruct (Req_dec_T x1 x0); [lra|].
      do 2 f_equal. field. lra.
    + apply IH.
      * intros k v Hin. apply Hget. right. exact Hin.
      * inversion Hs; assumption.
      * exact H2.
      * intros Hin. apply Hnin. right. exact Hin.
      * exact Hlast.
Qed.

(** The shift of a node is the interpolation of the sorted shift map
    at its tenor, in basis points. *)
Lemma node_shift_interp (d : dict) (t : R) :
  d <> [] -> NoDup (dict_keys d) ->
  node_shift d t
  = Ok (np_interp t (map fst (sorted_items d)) (map snd (sorted_items d))
        / 10000).
Proof.
  intros Hne Hnd.
  pose proof (sorted_keys_strict d Hnd) as Hs.
  assert (Hget : forall k v, In (k, v) (sorted_items d) -> dict_get d k = Ok v).
  { intros k v Hin. apply dict_get_In; [exact Hnd|].
    apply (sorted_by_In fst). exact Hin. }
  assert (Hlen : List.length (map fst (sorted_items d))
                 = List.length (map snd (sorted_items d)))
    by (rewrite !length_map; reflexivity).
  unfold node_shift. rewrite sorted_by_map_fst. fold (sorted_items d).
  destruct (dict_mem t d) eqn:Hmem.
  - apply dict_mem_In in Hmem. unfold dict_keys in Hmem.
    assert (Hin : In t (map fst (sorted_items d))).
    { unfold sorted_items. rewrite <- sorted_by_map_fst.
      apply sorted_by_In. exact Hmem. }
    destruct (In_nth _ _ 0 Hin) as [k [Hk Hnth]].
    rewrite <- Hnth, np_interp_node by assumption.
    rewrite length_map in Hk.
    rewrite (Hget (nth k (map fst (sorted_items d)) 0)
                  (nth k (map snd (sorted_items d)) 0)); [reflexivity|].
    rewrite <- (combine_nth _ _ k 0 0 Hlen).
    assert (E : combine (map fst (sorted_items d)) (map snd (sorted_items d))
                = sorted_items d).
    { generalize (sorted_items d). intros l.
      induction l as [|[a b] l IHl]; simpl; [|rewrite IHl]; reflexivity. }
    rewrite E. apply nth_In. exact Hk.
  - assert (Hnin : ~ In t (map fst (sorted_items d))).
    { intros Hin. unfold sorted_items in Hin.
      rewrite <- sorted_by_map_fst in Hin. apply sorted_by_In in Hin.
      apply dict_mem_In in Hin. congruence. }
    destruct (sorted_items d) as [|[x0 y0] items] eqn:Eitems.
    { exfalso. apply Hne. apply (sorted_by_nil_iff fst). exact Eitems. }
    cbn [map fst snd] in *.
    change (hd 0 (x0 :: map fst items)) with x0.
    destruct (Rlt_dec t x0) as [Hl|Hl].
    + rewrite (Hget x0 y0) by (left; reflexivity). cbn [bind].
      rewrite np_interp_left by exact Hl. reflexivity.
    + destruct (Rlt_dec (last (x0 :: map fst items) 0) t) as [Hr|Hr].
      * assert (Hin : In (last (x0 :: map fst items) 0,
                          last (y0 :: map snd items) 0)
                         ((x0, y0) :: items)).
        { clear. revert x0 y0. induction items as [|[x1 y1] items IH];
            intros x0 y0; [left; reflexivity|].
          right. apply (IH x1 y1). }
        rewrite (Hget _ _ Hin). cbn [bind].
        rewrite np_interp_right; auto; try discriminate.
        -- apply strictly_ascending_ascending, Hs.
        -- lra.
      * rewrite (bracket_shift_interp d t items x0 y0); auto; try lra.
        -- cbn [bind np_interp].
           destruct (Rlt_dec t x0); [contradiction | reflexivity].
        -- destruct (Rle_lt_or_eq_dec t _ (Rnot_lt_le _ _ Hr)) as [H|H];
             [exact H|].
           exfalso. apply Hnin. rewrite H.
           apply last_In. discriminate.
Qed.

Lemma node_shifts_interp (d : dict) (ts : list R) :
  d <> [] -> NoDup (dict_keys d) ->
  node_shifts d ts
  = Ok (map (fun t => np_interp t (map fst (sorted_items d))
                                  (map snd (sorted_items d)) / 10000) ts).
Proof.
  intros Hne Hnd. induction ts as [|t ts IH]; [reflexivity|].
  cbn [node_shifts map]. rewrite node_shift_interp by assumption.
  cbn [bind]. rewrite IH. reflexivity.
Qed.

(** With a non-empty shift map the shifted curve is returned, node by
    node. *)
Lemma apply_non_parallel_shift_nodes (c : ZeroCurve) (d : dict) :
  wf_curve c -> d <> [] -> NoDup (dict_keys d) ->
  let shifts := map (fun t => np_interp t (map fst (sorted_items d))
                                        (map snd (sorted_items d)) / 10000)
                    (_tenors c) in
  let rs := np_add (_rates c) shifts in
  apply_non_parallel_shift c d
  = Ok (mkZeroCurve (_tenors c) rs (NonParallelName (name c))
          (Some (dfs_of_rates rs (_tenors c)))) /\
  List.length rs = List.length (_tenors c).
Proof.
  intros Hwf Hne Hnd shifts rs.
  destruct (wf_curve_tenors c Hwf) as [Hne' [Hasc [Hpos Hlr]]].
  unfold tenors, zero_rates in *.
  assert (Hlrs : List.length rs = List.length (_tenors c)).
  { unfold rs. rewrite np_add_length; [exact Hlr|].
    unfold shifts. rewrite length_map. lia. }
  split; [|exact Hlrs].
  unfold apply_non_parallel_shift, tenors, zero_rates.
  rewrite node_shifts_interp by assumption. cbn [bind].
  fold shifts. fold rs.
  apply ZeroCurve_init_zip; auto.
  apply dfs_of_rates_length, Hlrs.
Qed.

(** X6.  For a shift map with at least one entry, [apply_non_parallel_shift]
    returns a curve with the same tenors in which the zero rate of
    every node is raised by the linear interpolation of the map at the
    node's tenor (flat beyond the smallest and the largest key, the
    value of [np.interp] over the map sorted by tenor), in basis points,
    and the discount factors are [exp(-rate * tenor)] of the new
    rates. *)
Theorem apply_non_parallel_shift_interp (c : ZeroCurve) (d : dict) :
  wf_curve c -> d <> [] -> NoDup (dict_keys d) ->
  exists c' dfs',
    apply_non_parallel_shift c d = Ok c' /\
    tenors c' = tenors c /\ name c' = NonParallelName (name c) /\
    _discount_factors c' = Some dfs' /\
    List.length (zero_rates c') = List.length (tenors c) /\
    List.length dfs' = List.length (tenors c) /\
    forall k, (k < List.length (tenors c))%nat ->
      let t := nth k (tenors c) 0 in
      nth k (zero_rates c') 0
      = nth k (zero_rates c) 0
        + np_interp t (map fst (sorted_items d)) (map snd (sorted_items d))
          / 10000 /\
      nth k dfs' 0 = exp (- nth k (zero_rates c') 0 * t).
Proof.
  intros Hwf Hne Hnd.
  destruct (apply_non_parallel_shift_nodes c d Hwf Hne Hnd) as [E Hl].
  cbv zeta in E, Hl.
  destruct (wf_curve_tenors c Hwf) as [_ [_ [_ Hlr]]].
  unfold tenors, zero_rates in *.
  eexists; eexists. split; [exact E|].
  cbn [_tenors _rates name _discount_factors].
  split; [reflexivity|]. split; [reflexivity|]. split; [reflexivity|].
  split; [exact Hl|]. split; [apply dfs_of_rates_length, Hl|].
  intros k Hk. cbv zeta. split.
  - rewrite np_add_nth by (rewrite ?length_map; lia).
    rewrite map_nth_default by exact Hk. reflexivity.
  - apply dfs_of_rates_nth; assumption.
Qed.

Lemma apply_non_parallel_shift_interp_witness :
  exists c',
    apply_non_parallel_shift flat_curve [(1, 10); (2, 20)] = Ok c' /\
    tenors c' = tenors flat_curve.
Proof.
  destruct (apply_non_parallel_shift_interp flat_curve [(1, 10); (2, 20)]
              flat_curve_wf)
    as [c' [dfs' [H1 [H2 _]]]].
  - discriminate.
  - simpl. constructor.
    + intros [H|[]]. lra.
    + constructor; [intros [] | constructor].
  - exists c'. auto.
Defined.

(** X7.  A shift map with a single entry shifts the zero rate of every
    node by that entry, whatever the tenor it is given for: a parallel
    shift of the rates. *)
Theorem apply_non_parallel_shift_single (c : ZeroCurve) (key shift_bp : R) :
  wf_curve c ->
  exists c',
    apply_non_parallel_shift c [(key, shift_bp)] = Ok c' /\
    tenors c' = tenors c /\
    List.length (zero_rates c') = List.length (tenors c) /\
    forall k, (k < List.length (tenors c))%nat ->
      nth k (zero_rates c') 0 = nth k (zero_rates c) 0 + shift_bp / 10000.
Proof.
  intros Hwf.
  assert (Hnd : NoDup (dict_keys [(key, shift_bp)])).
  { simpl. constructor; [intros [] | constructor]. }
  destruct (apply_non_parallel_shift_nodes c [(key, shift_bp)] Hwf
              ltac:(discriminate) Hnd) as [E Hl].
  cbv zeta in E, Hl.
  destruct (wf_curve_tenors c Hwf) as [_ [_ [_ Hlr]]].
  unfold tenors, zero_rates in *.
  eexists. split; [exact E|]. cbn [_tenors _rates].
  split; [reflexivity|]. split; [exact Hl|].
  intros k Hk.
  rewrite np_add_nth by (rewrite ?length_map; lia).
  rewrite map_nth_default by exact Hk.
  rewrite (np_interp_const _ shift_bp); [reflexivity | | | ].
  - discriminate.
  - reflexivity.
  - unfold sorted_items. simpl. repeat constructor.
Qed.

Lemma apply_non_parallel_shift_single_witness :
  exists c',
    apply_non_parallel_shift flat_curve [(5, 25)] = Ok c' /\
    nth 0 (zero_rates c') 0 = nth 0 (zero_rates flat_curve) 0 + 25 / 10000.
Proof.
  destruct (apply_non_parallel_shift_single flat_curve 5 25 flat_curve_wf)
    as [c' [H1 [_ [_ H2]]]].
  exists c'. split; [exact H1|]. apply H2. simpl. lia.
Defined.

(** ** [stress_curves] *)

Lemma bump_curve_wf (c c' : ZeroCurve) (bump_bp : R) :
  bump_curve c bump_bp = Ok c' -> wf_curve c'.
Proof. unfold bump_curve. apply ZeroCurve_init_wf. Qed.

Lemma apply_non_parallel_shift_wf (c c' : ZeroCurve) (d : dict) :
  apply_non_parallel_shift c d = Ok c' -> wf_curve c'.
Proof.
  unfold apply_non_parallel_shift. intros H.
  apply bind_Ok in H. destruct H as [shifts [_ H]].
  apply ZeroCurve_init_wf in H. exact H.
Qed.

Lemma apply_non_parallel_shift_positive (c c' : ZeroCurve) (d : dict) :
  apply_non_parallel_shift c d = Ok c' -> positive_cache c'.
Proof.
  unfold apply_non_parallel_shift. intros H.
  apply bind_Ok in H. destruct H as [shifts [_ H]].
  apply ZeroCurve_init_cache in H.
  intros dfs Hd. rewrite H in Hd. inversion Hd; subst.
  apply dfs_of_rates_pos.
Qed.

(** A bump that does not lower the rates does not raise a node discount
    factor. *)
Lemma parallel_bumped_lower (c c' : ZeroCurve) (bump_bp : R)
    (dfs' : list R) (k : nat) :
  wf_curve c -> parallel_bumped c c' bump_bp -> 0 <= bump_bp ->
  positive_cache c ->
  _discount_factors c' = Some dfs' -> (k < List.length (tenors c))%nat ->
  0 < nth k dfs' 0 <= discount_factor c (nth k (tenors c) 0).
Proof.
  intros Hwf [_ [_ [l [Hl [_ [_ Hn]]]]]] Hb Hpc Hd Hk.
  rewrite Hl in Hd. inversion Hd; subst l; clear Hd.
  destruct (Hn k Hk) as [E _]. cbv zeta in E. rewrite E.
  destruct (wf_curve_tenors c Hwf) as [_ [_ [Hpos _]]].
  rewrite Forall_forall in Hpos.
  assert (Ht : 0 < nth k (tenors c) 0) by (apply Hpos, nth_In, Hk).
  pose proof (discount_factor_positive c (nth k (tenors c) 0) Hwf Hpc) as HD.
  pose proof (exp_pos (- (bump_bp / 10000) * nth k (tenors c) 0)) as He.
  assert (He1 : exp (- (bump_bp / 10000) * nth k (tenors c) 0) <= 1).
  { rewrite <- exp_0. apply exp_le_mono.
    assert (0 <= bump_bp / 10000 * nth k (tenors c) 0)
      by (apply Rmult_le_pos; lra).
    lra. }
  split; [apply Rmult_lt_0_compat; assumption|].
  rewrite <- (Rmult_1_r (discount_factor c (nth k (tenors c) 0))) at 2.
  apply Rmult_le_compat_l; lra.
Qed.

(** X8.  On curve objects [stress_curves] returns the pair of curves
    bumped in parallel by [shift_bp], both well formed and on the
    tenors of their base curves.  When the base discount curve has no
    cached discount factors, or only positive ones, the stressed
    discount curve has a positive cache too, and under a shift that is
    not negative none of its node discount factors is above the base
    discount factor at that tenor. *)
Theorem stress_curves_parallel (d f : ZeroCurve) (shift_bp : R) :
  wf_curve d -> wf_curve f ->
  exists sd sf,
    stress_curves d f shift_bp = Ok (sd, sf) /\
    wf_curve sd /\ wf_curve sf /\
    parallel_bumped d sd shift_bp /\ parallel_bumped f sf shift_bp /\
    (positive_cache d ->
     positive_cache sd /\
     (0 <= shift_bp ->
      forall dfs' k,
        _discount_factors sd = Some dfs' ->
        (k < List.length (tenors d))%nat ->
        0 < nth k dfs' 0 <= discount_factor d (nth k (tenors d) 0))).
Proof.
  intros Hd Hf.
  destruct (bump_curve_Ok d shift_bp Hd) as [sd [Ed Pd]].
  destruct (bump_curve_Ok f shift_bp Hf) as [sf [Ef Pf]].
  exists sd, sf.
  split; [unfold stress_curves; rewrite Ed, Ef; reflexivity|].
  split; [apply (bump_curve_wf d sd shift_bp Ed)|].
  split; [apply (bump_curve_wf f sf shift_bp Ef)|].
  split; [exact Pd|]. split; [exact Pf|].
  intros Hpc.
  split; [apply (bump_curve_positive d sd shift_bp Hd Hpc Ed)|].
  intros Hs dfs' k Hc Hk.
  apply (parallel_bumped_lower d sd shift_bp); assumption.
Qed.

Lemma stress_curves_parallel_witness :
  exists sd sf,
    stress_curves flat_curve flat_cached_curve 25 = Ok (sd, sf) /\
    wf_curve sd /\ wf_curve sf /\ positive_cache sd.
Proof.
  destruct (stress_curves_parallel flat_curve flat_cached_curve 25
              flat_curve_wf flat_cached_curve_wf)
    as [sd [sf [H1 [H2 [H3 [_ [_ H4]]]]]]].
  exists sd, sf. split; [exact H1|]. split; [exact H2|]. split; [exact H3|].
  apply (proj1 (H4 flat_curve_positive)).
Defined.

(** ** [price_with_non_parallel_shift] *)

Lemma price_with_non_parallel_shift_inv (swap : SwapDefinition)
    (d f : ZeroCurve) (ds fs : dict) (res : ShiftResult) :
  price_with_non_parallel_shift swap d f ds fs = Ok res ->
  exists base sd sf shifted bd bf bumped,
    price (mkSwapPricer d f) swap = Ok base /\
    apply_non_parallel_shift d ds = Ok sd /\
    apply_non_parallel_shift f fs = Ok sf /\
    price (mkSwapPricer sd sf) swap = Ok shifted /\
    bump_curve sd 1 = Ok bd /\ bump_curve sf 1 = Ok bf /\
    price (mkSwapPricer bd bf) swap = Ok bumped /\
    res = mkShiftResult (npv shifted) (npv shifted - npv base)
            (npv bumped - npv shifted) (npv bumped - npv shifted)
            (pr_cashflows shifted).
Proof.
  unfold price_with_non_parallel_shift. intros H.
  apply bind_Ok in H. destruct H as [base [H1 H]].
  apply bind_Ok in H. destruct H as [sd [H2 H]].
  apply bind_Ok in H. destruct H as [sf [H3 H]].
  apply bind_Ok in H. destruct H as [shifted [H4 H]].
  apply bind_Ok in H. destruct H as [bd [H5 H]].
  apply bind_Ok in H. destruct H as [bf [H6 H]].
  apply bind_Ok in H. destruct H as [bumped [H7 H]].
  inversion H; subst.
  exists base, sd, sf, shifted, bd, bf, bumped. repeat split; assumption.
Qed.

Lemma price_with_non_parallel_shift_Ok (swap : SwapDefinition)
    (d f sd sf bd bf : ZeroCurve) (ds fs : dict)
    (base shifted bumped : PricingResult) :
  price (mkSwapPricer d f) swap = Ok base ->
  apply_non_parallel_shift d ds = Ok sd ->
  apply_non_parallel_shift f fs = Ok sf ->
  price (mkSwapPricer sd sf) swap = Ok shifted ->
  bump_curve sd 1 = Ok bd -> bump_curve sf 1 = Ok bf ->
  price (mkSwapPricer bd bf) swap = Ok bumped ->
  price_with_non_parallel_shift swap d f ds fs
  = Ok (mkShiftResult (npv shifted) (npv shifted - npv base)
          (npv bumped - npv shifted) (npv bumped - npv shifted)
          (pr_cashflows shifted)).
Proof.
  intros H1 H2 H3 H4 H5 H6 H7. unfold price_with_non_parallel_shift.
  rewrite H1. cbn [bind]. rewrite H2. cbn [bind]. rewrite H3. cbn [bind].
  rewrite H4. cbn [bind]. rewrite H5. cbn [bind]. rewrite H6. cbn [bind].
  rewrite H7. reflexivity.
Qed.

Lemma apply_non_parallel_shift_empty (c : ZeroCurve) :
  apply_non_parallel_shift c [] = Err IndexError.
Proof.
  unfold apply_non_parallel_shift.
  destruct (tenors c) as [|t ts]; reflexivity.
Qed.

Lemma price_with_non_parallel_shift_empty (swap : SwapDefinition)
    (d f : ZeroCurve) (ds fs : dict) (res : ShiftResult) :
  ds = [] \/ fs = [] ->
  price_with_non_parallel_shift swap d f ds fs <> Ok res.
Proof.
  intros Hcase H.
  destruct (price_with_non_parallel_shift_inv swap d f ds fs res H)
    as [base [sd [sf [shifted [bd [bf [bumped [_ [H2 [H3 _]]]]]]]]]].
  destruct Hcase as [->| ->].
  - rewrite apply_non_parallel_shift_empty in H2. discriminate.
  - rewrite apply_non_parallel_shift_empty in H3. discriminate.
Qed.

(** X9.  [price_with_non_parallel_shift] never returns when one of the
    two shift maps is empty, and with an empty discount map and a swap
    that prices on the base curves the failure is the [IndexError] of
    the shift.  On curve objects and maps with at least one entry each
    the two curves are shifted and then bumped by one basis point, and
    whenever the swap prices on the base, the shifted and the bumped
    pair the result is returned: the NPV is the one on the shifted
    curves, [npv_change] is that NPV less the base NPV, and [pv01] and
    [dv01] are both the bumped NPV less the shifted NPV. *)
Theorem price_with_non_parallel_shift_impact (swap : SwapDefinition)
    (d f : ZeroCurve) (ds fs : dict) :
  (ds = [] \/ fs = [] ->
   forall res, price_with_non_parallel_shift swap d f ds fs <> Ok res) /\
  (forall base, price (mkSwapPricer d f) swap = Ok base ->
     price_with_non_parallel_shift swap d f [] fs = Err IndexError) /\
  (wf_curve d -> wf_curve f -> ds <> [] -> fs <> [] ->
   NoDup (dict_keys ds) -> NoDup (dict_keys fs) ->
   exists sd sf bd bf,
     apply_non_parallel_shift d ds = Ok sd /\
     apply_non_parallel_shift f fs = Ok sf /\
     bump_curve sd 1 = Ok bd /\ parallel_bumped sd bd 1 /\
     bump_curve sf 1 = Ok bf /\ parallel_bumped sf bf 1 /\
     forall base shifted bumped,
       price (mkSwapPricer d f) swap = Ok base ->
       price (mkSwapPricer sd sf) swap = Ok shifted ->
       price (mkSwapPricer bd bf) swap = Ok bumped ->
       exists res,
         price_with_non_parallel_shift swap d f ds fs = Ok res /\
         sr_npv res = npv shifted /\
         sr_npv_change res = npv shifted - npv base /\
         sr_pv01 res = npv bumped - npv shifted /\
         sr_dv01 res = sr_pv01 res /\
         sr_cashflows res = pr_cashflows shifted).
Proof.
  split; [|split].
  - intros Hcase res. apply price_with_non_parallel_shift_empty, Hcase.
  - intros base Hbase. unfold price_with_non_parallel_shift.
    rewrite Hbase. cbn [bind]. rewrite apply_non_parallel_shift_empty.
    reflexivity.
  - intros Hd Hf Hds Hfs Nds Nfs.
    assert (Xd : exists sd, apply_non_parallel_shift d ds = Ok sd)
      by (eexists; apply (apply_non_parallel_shift_nodes d ds Hd Hds Nds)).
    assert (Xf : exists sf, apply_non_parallel_shift f fs = Ok sf)
      by (eexists; apply (apply_non_parallel_shift_nodes f fs Hf Hfs Nfs)).
    destruct Xd as [sd Ed]. destruct Xf as [sf Ef].
    pose proof (apply_non_parallel_shift_wf d sd ds Ed) as Wd.
    pose proof (apply_non_parallel_shift_wf f sf fs Ef) as Wf.
    destruct (bump_curve_Ok sd 1 Wd) as [bd [Ebd Pd]].
    destruct (bump_curve_Ok sf 1 Wf) as [bf [Ebf Pf]].
    exists sd, sf, bd, bf.
    split; [exact Ed|]. split; [exact Ef|].
    split; [exact Ebd|]. split; [exact Pd|].
    split; [exact Ebf|]. split; [exact Pf|].
    intros base shifted bumped H1 H4 H7. eexists.
    split; [apply (price_with_non_parallel_shift_Ok swap d f sd sf bd bf ds fs
                     base shifted bumped); assumption|].
    cbn [sr_npv sr_npv_change sr_pv01 sr_dv01 sr_cashflows].
    split; [reflexivity|]. split; [reflexivity|]. split; [reflexivity|].
    split; reflexivity.
Qed.

Lemma price_with_non_parallel_shift_impact_witness :
  exists res,
    price_with_non_parallel_shift (annual_swap (3 / 100)) flat_curve
      flat_curve [(1, 10)] [(2, 20)] = Ok res /\
    sr_dv01 res = sr_pv01 res.
Proof.
  destruct (proj2 (proj2 (price_with_non_parallel_shift_impact
                            (annual_swap (3 / 100)) flat_curve flat_curve
                            [(1, 10)] [(2, 20)]))
              flat_curve_wf flat_curve_wf)
    as [sd [sf [bd [bf [_ [Hsf [_ [_ [Hbf [_ H]]]]]]]]]].
  - discriminate.
  - discriminate.
  - simpl. constructor; [intros [] | constructor].
  - simpl. constructor; [intros [] | constructor].
  - destruct (annual_swap_price (mkSwapPricer flat_curve flat_curve)
                (3 / 100) flat_curve_df_one) as [_ [_ [base [_ [_ [Hbase _]]]]]].
    pose proof (apply_non_parallel_shift_wf _ _ _ Hsf) as Wsf.
    pose proof (apply_non_parallel_shift_positive _ _ _ Hsf) as Psf.
    destruct (bump_curve_positive sf bf 1 Wsf Psf Hbf) as [Wbf Pbf].
    destruct (annual_swap_price (mkSwapPricer sd sf) (3 / 100)
                (discount_factor_positive sf 1 Wsf Psf))
      as [_ [_ [shifted [_ [_ [Hshifted _]]]]]].
    destruct (annual_swap_price (mkSwapPricer bd bf) (3 / 100)
                (discount_factor_positive bf 1 Wbf Pbf))
      as [_ [_ [bumped [_ [_ [Hbumped _]]]]]].
    destruct (H base shifted bumped Hbase Hshifted Hbumped)
      as [res [Hres [_ [_ [_ [Hdv _]]]]]].
    exists res. split; assumption.
Defined.

(** ** Day counts over a schedule *)

Lemma daycount_thirty_360 (dc : string) :
  upper dc = "30/360"%string ->
  DAYCOUNT_FUNCTIONS (upper dc) = Some thirty_360.
Proof. intros ->. reflexivity. Qed.

Lemma daycount_actual_365 (dc : string) :
  upper dc = "ACT/365"%string ->
  DAYCOUNT_FUNCTIONS (upper dc) = Some actual_365.
Proof. intros ->. reflexivity. Qed.

Lemma add_months_day (d : date) (k : Z) :
  (day d <= 28)%Z -> day (add_months d k) = day d.
Proof.
  intros Hd. unfold add_months. cbn [day].
  set (idx := (year d * 12 + (month d - 1) + k)%Z).
  pose proof (days_in_month_bounds (idx / 12) (idx mod 12 + 1)). lia.
Qed.

(** From a day that every month has, [k] months are [k] twelfths of a
    year under 30/360. *)
Lemma thirty_360_months (s : date) (k : Z) :
  (day s <= 28)%Z -> thirty_360 s (add_months s k) = IZR k / 12.
Proof.
  intros Hd. unfold thirty_360. rewrite add_months_day by exact Hd.
  unfold add_months. cbn [year month day].
  set (idx := (year s * 12 + (month s - 1) + k)%Z).
  pose proof (Z.div_mod idx 12 ltac:(lia)) as Hdm.
  assert (E : ((idx / 12 - year s) * 360 + (idx mod 12 + 1 - month s) * 30
               + (Z.min (day s) (if (day s =? 30)%Z then 30 else day s)
                  - Z.min (day s) 30) = 30 * k)%Z).
  { destruct (Z.eqb_spec (day s) 30); unfold idx in *; lia. }
  rewrite E, mult_IZR. field.
Qed.

Lemma period_dates_start_day (n : nat) (s : date) (step : Z)
    (se : date * date) :
  (day s <= 28)%Z -> In se (period_dates n s step) ->
  day (fst se) = day s /\ snd se = add_months (fst se) step.
Proof.
  revert s. induction n as [|n IH]; intros s Hd; simpl; [contradiction|].
  intros [<-|H]; [split; reflexivity|].
  assert (Hd' : (day (add_months s step) <= 28)%Z)
    by (rewrite add_months_day; assumption).
  destruct (IH _ Hd' H) as [E1 E2].
  rewrite add_months_day in E1 by assumption. auto.
Qed.

Lemma np_sum_const (l : list R) (v : R) :
  (forall x, In x l -> x = v) -> np_sum l = INR (List.length l) * v.
Proof.
  unfold np_sum. induction l as [|x l IH]; intros H.
  - simpl. ring.
  - cbn [fold_right]. rewrite IH by (intros y Hy; apply H; right; exact Hy).
    rewrite (H x (or_introl eq_refl)).
    cbn [List.length]. rewrite S_INR. ring.
Qed.

Lemma thirty_360_periods (s : date) (tenor : R) (f : Z) (dc : string) :
  (0 < f)%Z -> (1 <= round_half_even (tenor * IZR f))%Z ->
  upper dc = "30/360"%string -> (day s <= 28)%Z ->
  let N := round_half_even (tenor * IZR f) in
  let step := round_half_even (12 / IZR f) in
  exists ps,
    generate_schedule s tenor f dc = Ok ps /\
    List.length ps = Z.to_nat N /\
    (forall p, In p ps -> accrual_factor p = IZR step / 12) /\
    np_sum (map accrual_factor ps) = IZR (N * step) / 12.
Proof.
  intros Hf HN Hdc Hd N step.
  exists (map (period_of thirty_360) (period_dates (Z.to_nat N) s step)).
  assert (Hacc : forall p,
            In p (map (period_of thirty_360)
                      (period_dates (Z.to_nat N) s step)) ->
            accrual_factor p = IZR step / 12).
  { intros p Hp. apply in_map_iff in Hp. destruct Hp as [se [<- Hse]].
    destruct (period_dates_start_day _ _ _ _ Hd Hse) as [E1 E2].
    cbn [period_of accrual_factor]. rewrite E2.
    apply thirty_360_months. lia. }
  split; [apply generate_schedule_Ok;
          [exact Hf | fold N; lia | apply daycount_thirty_360, Hdc]|].
  split; [rewrite length_map; apply period_dates_length|].
  split; [exact Hacc|].
  rewrite (np_sum_const _ (IZR step / 12)).
  - rewrite !length_map, period_dates_length, INR_IZR_INZ, Z2Nat.id by lia.
    rewrite mult_IZR. field.
  - intros x Hx. apply in_map_iff in Hx. destruct Hx as [p [<- Hp]].
    apply Hacc, Hp.
Qed.

(** X10.  Under 30/360, from a start on day 28 or earlier, every period
    of a schedule accrues exactly [round(12 / f) / 12] of a year, so
    [1 / f] when the frequency [f] divides twelve, and then the accrual
    factors add up to exactly [tenor_years] when [tenor_years * f] is
    whole. *)
Theorem generate_schedule_thirty_360 (s : date) (tenor : R) (f : Z)
    (dc : string) :
  (0 < f)%Z -> (1 <= round_half_even (tenor * IZR f))%Z ->
  upper dc = "30/360"%string -> (day s <= 28)%Z ->
  exists ps,
    generate_schedule s tenor f dc = Ok ps /\
    List.length ps = Z.to_nat (round_half_even (tenor * IZR f)) /\
    (forall p, In p ps ->
       accrual_factor p = IZR (round_half_even (12 / IZR f)) / 12) /\
    ((12 mod f = 0)%Z ->
     (forall p, In p ps -> accrual_factor p = 1 / IZR f) /\
     (tenor * IZR f = IZR (round_half_even (tenor * IZR f)) ->
      np_sum (map accrual_factor ps) = tenor)).
Proof.
  intros Hf HN Hdc Hd.
  destruct (thirty_360_periods s tenor f dc Hf HN Hdc Hd)
    as [ps [E [Hlen [Hacc Hsum]]]].
  exists ps. split; [exact E|]. split; [exact Hlen|]. split; [exact Hacc|].
  intros Hmod.
  assert (HF : IZR f <> 0) by (apply not_0_IZR; lia).
  assert (E12 : 12%Z = (f * (12 / f))%Z)
    by (rewrite (Z.div_mod 12 f) at 1 by lia; lia).
  apply (f_equal IZR) in E12. rewrite mult_IZR in E12.
  assert (Hstep : IZR (round_half_even (12 / IZR f)) / 12 = 1 / IZR f).
  { rewrite step_months_exact by assumption.
    apply Rmult_eq_reg_l with (12 * IZR f); [|lra].
    rewrite E12 at 3. field. exact HF. }
  split.
  - intros p Hp. rewrite (Hacc p Hp). exact Hstep.
  - intros Hwhole. rewrite Hsum, mult_IZR, <- Hwhole.
    replace (tenor * IZR f * IZR (round_half_even (12 / IZR f)) / 12)
      with (tenor * IZR f * (IZR (round_half_even (12 / IZR f)) / 12))
      by (unfold Rdiv; ring).
    rewrite Hstep. field. exact HF.
Qed.

Lemma generate_schedule_thirty_360_witness :
  exists ps,
    generate_schedule jan_first 2 2 "30/360" = Ok ps /\
    np_sum (map accrual_factor ps) = 2.
Proof.
  assert (HN : round_half_even (2 * IZR 2) = 4%Z).
  { replace (2 * IZR 2) with (IZR 4) by lra. apply round_half_even_IZR. }
  destruct (generate_schedule_thirty_360 jan_first 2 2 "30/360")
    as [ps [E [_ [_ H]]]].
  - lia.
  - rewrite HN. lia.
  - reflexivity.
  - simpl. lia.
  - exists ps. split; [exact E|].
    apply H; [reflexivity | rewrite HN; lra].
Defined.

(** X11.  The 30/360 fraction of a date to itself is zero up to day 30,
    but [1 / 360] on a 31st: the end day is capped at 30 only when the
    start day is exactly 30, while the start day is always capped. *)
Theorem thirty_360_same_date (s : date) :
  ((day s <= 30)%Z -> thirty_360 s s = 0) /\
  (day s = 31%Z -> thirty_360 s s = 1 / 360).
Proof.
  unfold thirty_360. split.
  - intros Hd.
    assert (E : ((year s - year s) * 360 + (month s - month s) * 30
                 + (Z.min (day s) (if (day s =? 30)%Z then 30 else day s)
                    - Z.min (day s) 30) = 0)%Z)
      by (destruct (Z.eqb_spec (day s) 30); lia).
    rewrite E. lra.
  - intros Hd. rewrite Hd. cbn [Z.eqb Z.min Z.compare Pos.compare
                                 Pos.compare_cont Pos.eqb].
    replace ((year s - year s) * 360 + (month s - month s) * 30 + (31 - 30))%Z
      with 1%Z by lia.
    reflexivity.
Qed.

Lemma thirty_360_same_date_witness :
  thirty_360 (mkDate 2025 1 31) (mkDate 2025 1 31) = 1 / 360.
Proof.
  apply (proj2 (thirty_360_same_date (mkDate 2025 1 31))). reflexivity.
Defined.

(** X12.  Under ACT/365 the accrual factors of a schedule add up to the
    ACT/365 year fraction from the schedule start to the end of its
    last period, whatever the frequency and the month ends met on the
    way; the convention is matched without regard to case. *)
Theorem generate_schedule_actual_365 (s : date) (tenor : R) (f : Z)
    (dc : string) :
  (0 < f)%Z -> (1 <= round_half_even (tenor * IZR f))%Z ->
  upper dc = "ACT/365"%string ->
  exists ps,
    generate_schedule s tenor f dc = Ok ps /\
    (forall p, In p ps ->
       accrual_factor p = IZR (days_between (start p) (end_ p)) / 365) /\
    year_fraction s (schedule_end s ps) dc
    = Ok (np_sum (map accrual_factor ps)) /\
    np_sum (map accrual_factor ps)
    = IZR (days_between s (schedule_end s ps)) / 365.
Proof.
  intros Hf HN Hdc.
  pose proof (daycount_actual_365 dc Hdc) as Hfun.
  set (N := round_half_even (tenor * IZR f)) in *.
  set (step := round_half_even (12 / IZR f)).
  exists (map (period_of actual_365) (period_dates (Z.to_nat N) s step)).
  assert (Hsum : np_sum (map accrual_factor
                   (map (period_of actual_365)
                        (period_dates (Z.to_nat N) s step)))
                 = IZR (days_between s
                     (schedule_end s
                        (map (period_of actual_365)
                             (period_dates (Z.to_nat N) s step)))) / 365).
  { rewrite actual_365_sum, total_days_telescope, periods_end. reflexivity. }
  split; [apply generate_schedule_Ok; [exact Hf | fold N; lia | exact Hfun]|].
  split.
  - intros p Hp. destruct (periods_step actual_365 _ _ _ p Hp) as [_ E].
    rewrite E. reflexivity.
  - split; [|exact Hsum].
    rewrite (year_fraction_supported _ _ dc actual_365 Hfun).
    rewrite Hsum. reflexivity.
Qed.

Lemma generate_schedule_actual_365_witness :
  exists ps,
    generate_schedule jan_first 1 1 "act/365" = Ok ps /\
    np_sum (map accrual_factor ps)
    = IZR (days_between jan_first (schedule_end jan_first ps)) / 365.
Proof.
  assert (HN : round_half_even (1 * IZR 1) = 1%Z).
  { replace (1 * IZR 1) with (IZR 1) by lra. apply round_half_even_IZR. }
  destruct (generate_schedule_actual_365 jan_first 1 1 "act/365")
    as [ps [E [_ [_ H]]]].
  - lia.
  - rewrite HN. lia.
  - reflexivity.
  - exists ps. split; assumption.
Defined.

(** ** Failures of [generate_schedule] and of [price] *)

Lemma round_half_even_half : round_half_even (1 / 2) = 0%Z.
Proof.
  unfold round_half_even.
  assert (E : 0%Z = Int_part (1 / 2)) by (apply Int_part_spec; lra).
  rewrite <- E.
  destruct (Rlt_dec (1 / 2 - 0) (1 / 2)); [lra|].
  destruct (Rlt_dec (1 / 2) (1 / 2 - 0)); [lra | reflexivity].
Qed.

Lemma round_half_even_minus_half : round_half_even (- (1 / 2)) = 0%Z.
Proof.
  unfold round_half_even.
  assert (E : (-1)%Z = Int_part (- (1 / 2))) by (apply Int_part_spec; lra).
  rewrite <- E.
  destruct (Rlt_dec (- (1 / 2) - -1) (1 / 2)); [lra|].
  destruct (Rlt_dec (1 / 2) (- (1 / 2) - -1)); [lra | reflexivity].
Qed.

(** Half a period or less rounds to no period at all. *)
Lemma round_half_even_zero (x : R) :
  - (1 / 2) <= x <= 1 / 2 -> round_half_even x = 0%Z.
Proof.
  intros [[Hlo|Hlo] [Hhi|Hhi]].
  - apply round_half_even_near. lra.
  - rewrite Hhi. apply round_half_even_half.
  - rewrite <- Hlo. apply round_half_even_minus_half.
  - lra.
Qed.

Lemma round_half_even_upper (x : R) :
  IZR (round_half_even x) <= x + 1 / 2.
Proof.
  unfold round_half_even.
  destruct (base_Int_part x) as [Hlo Hhi].
  destruct (Rlt_dec (x - IZR (Int_part x)) (1 / 2)); [lra|].
  destruct (Rlt_dec (1 / 2) (x - IZR (Int_part x))).
  - rewrite plus_IZR. lra.
  - destruct (Z.even (Int_part x)); [lra | rewrite plus_IZR; lra].
Qed.

Lemma round_half_even_negative (x : R) :
  x < - (1 / 2) -> (round_half_even x < 0)%Z.
Proof.
  intros Hx. pose proof (round_half_even_upper x) as H.
  apply lt_IZR. lra.
Qed.

Lemma generate_schedule_negative (s : date) (tenor : R) (f : Z)
    (dc : string) :
  (0 < f)%Z -> tenor * IZR f < - (1 / 2) ->
  generate_schedule s tenor f dc = Ok [].
Proof.
  intros Hf Hneg. unfold generate_schedule.
  pose proof (round_half_even_negative _ Hneg) as HN.
  destruct (Z.leb_spec f 0); [lia|].
  destruct (Z.eqb_spec (round_half_even (tenor * IZR f)) 0); [lia|].
  replace (Z.to_nat (round_half_even (tenor * IZR f))) with 0%nat by lia.
  reflexivity.
Qed.

(** X13.  [generate_schedule] fails with the payments error for a
    frequency that is not positive and with the zero-periods error when
    [tenor_years * f] is within a half of zero (a half rounds to zero);
    with one period or more and a day count it does not know it fails
    with the unsupported-convention error, which quotes the convention
    as given.  A tenor that rounds to a negative number of periods is
    no error: the schedule returned is empty, whatever the day
    count. *)
Theorem generate_schedule_failures (s : date) (tenor : R) (f : Z)
    (dc : string) :
  ((f <= 0)%Z ->
   generate_schedule s tenor f dc = Err (ValueError payments_msg)) /\
  ((0 < f)%Z -> - (1 / 2) <= tenor * IZR f <= 1 / 2 ->
   generate_schedule s tenor f dc = Err (ValueError zero_periods_msg)) /\
  ((0 < f)%Z -> (1 <= round_half_even (tenor * IZR f))%Z ->
   DAYCOUNT_FUNCTIONS (upper dc) = None ->
   generate_schedule s tenor f dc
   = Err (ValueError ("Unsupported day count convention: " ++ dc))) /\
  ((0 < f)%Z -> tenor * IZR f < - (1 / 2) ->
   generate_schedule s tenor f dc = Ok []).
Proof.
  split; [|split; [|split]].
  - intros Hf. unfold generate_schedule.
    destruct (Z.leb_spec f 0); [reflexivity | lia].
  - intros Hf Hz. unfold generate_schedule.
    destruct (Z.leb_spec f 0); [lia|].
    rewrite (round_half_even_zero _ Hz). reflexivity.
  - intros Hf HN Hdc. unfold generate_schedule.
    destruct (Z.leb_spec f 0); [lia|].
    destruct (Z.eqb_spec (round_half_even (tenor * IZR f)) 0); [lia|].
    destruct (Z.to_nat (round_half_even (tenor * IZR f))) as [|k] eqn:E;
      [lia|].
    apply schedule_loop_unsupported, Hdc.
  - apply generate_schedule_negative.
Qed.

Lemma generate_schedule_failures_witness :
  generate_schedule jan_first (1 / 8) 4 "ACT/365"
  = Err (ValueError zero_periods_msg) /\
  generate_schedule jan_first (- 1) 4 "ACT/360" = Ok [].
Proof.
  split.
  - apply (proj1 (proj2 (generate_schedule_failures jan_first (1 / 8) 4
                           "ACT/365"))); [lia | lra].
  - apply (proj2 (proj2 (proj2 (generate_schedule_failures jan_first (- 1) 4
                                  "ACT/360")))); [lia | lra].
Defined.

Lemma price_empty_legs (self : SwapPricer) (swap : SwapDefinition) :
  generate_schedule (effective_date swap) (maturity_years swap)
    (fixed_leg_frequency swap) (fixed_leg_daycount swap) = Ok [] ->
  generate_schedule (effective_date swap) (maturity_years swap)
    (floating_leg_frequency swap) (floating_leg_daycount swap) = Ok [] ->
  price self swap = Err KeyError.
Proof.
  intros H1 H2.
  unfold price, build_cashflows, _build_fixed_cashflows,
         _build_floating_cashflows.
  rewrite H1, H2. reflexivity.
Qed.

(** X14.  A swap whose maturity rounds to a negative number of periods
    on both legs is not rejected by the schedule: both legs are empty,
    and [price] fails with [KeyError] on the table without columns, on
    any pair of curves.  Whenever [price] does return, the table has at
    least one row. *)
Theorem price_negative_maturity (self : SwapPricer) (swap : SwapDefinition) :
  ((0 < fixed_leg_frequency swap)%Z -> (0 < floating_leg_frequency swap)%Z ->
   maturity_years swap * IZR (fixed_leg_frequency swap) < - (1 / 2) ->
   maturity_years swap * IZR (floating_leg_frequency swap) < - (1 / 2) ->
   price self swap = Err KeyError) /\
  (forall res, price self swap = Ok res -> pr_cashflows res <> []).
Proof.
  split.
  - intros Hf Hl Hnf Hnl. apply price_empty_legs.
    + apply generate_schedule_negative; assumption.
    + apply generate_schedule_negative; assumption.
  - intros res H.
    destruct (price_inv self swap res H)
      as [fl [ll [_ [_ [Hne [Hcf _]]]]]].
    rewrite Hcf. intros E. apply sorted_by_nil_iff in E. contradiction.
Qed.

Lemma price_negative_maturity_witness :
  price (mkSwapPricer flat_curve flat_curve)
    (mkSwapDefinition jan_first jan_first (- 1) 100 (3 / 100) "fixed" 2 4
       "30/360" "ACT/365" 0)
  = Err KeyError.
Proof.
  apply (proj1 (price_negative_maturity (mkSwapPricer flat_curve flat_curve)
                  (mkSwapDefinition jan_first jan_first (- 1) 100 (3 / 100)
                     "fixed" 2 4 "30/360" "ACT/365" 0)));
    cbn [fixed_leg_frequency floating_leg_frequency maturity_years];
    try lia; lra.
Defined.

(** ** The priced table *)

Lemma np_sum_insert_by {A : Type} (key g : A -> R) (x : A) (l : list A) :
  np_sum (map g (insert_by key x l)) = g x + np_sum (map g l).
Proof.
  unfold np_sum. induction l as [|y l IH]; [reflexivity|].
  cbn [insert_by]. destruct (Rlt_dec (key y) (key x)); [|reflexivity].
  cbn [map fold_right] in *. rewrite IH. ring.
Qed.

(** Sorting does not change a column total. *)
Lemma np_sum_sorted_by {A : Type} (key g : A -> R) (l : list A) :
  np_sum (map g (sorted_by key l)) = np_sum (map g l).
Proof.
  induction l as [|x l IH]; [reflexivity|].
  cbn [sorted_by fold_right]. fold (sorted_by key l).
  rewrite np_sum_insert_by, IH. reflexivity.
Qed.

(** The two leg totals make up the column total when every row belongs
    to one of the two legs. *)
Lemma leg_pv_split (rows : list CashflowRow) :
  (forall r, In r rows ->
     cf_leg r = "fixed"%string \/ cf_leg r = "floating"%string) ->
  leg_pv "fixed" rows + leg_pv "floating" rows
  = np_sum (map cf_present_value rows).
Proof.
  unfold leg_pv, np_sum. induction rows as [|r rows IH]; intros H.
  - simpl. ring.
  - assert (IH' := IH (fun q Hq => H q (or_intror Hq))).
    cbn [filter map fold_right].
    destruct (H r (or_introl eq_refl)) as [E|E]; rewrite E;
      cbn [String.eqb Ascii.eqb Bool.eqb map fold_right];
      rewrite <- IH'; ring.
Qed.

Lemma build_rows_legs (self : SwapPricer) (swap : SwapDefinition)
    (fl ll : list CashflowRow) :
  _build_fixed_cashflows self swap = Ok fl ->
  _build_floating_cashflows self swap = Ok ll ->
  (forall r, In r (fl ++ ll) ->
     cf_leg r = "fixed"%string \/ cf_leg r = "floating"%string) /\
  exists sf sl,
    generate_schedule (effective_date swap) (maturity_years swap)
      (fixed_leg_frequency swap) (fixed_leg_daycount swap) = Ok sf /\
    generate_schedule (effective_date swap) (maturity_years swap)
      (floating_leg_frequency swap) (floating_leg_daycount swap) = Ok sl /\
    List.length fl = List.length sf /\ List.length ll = List.length sl.
Proof.
  unfold _build_fixed_cashflows, _build_floating_cashflows. intros Hfl Hll.
  apply bind_Ok in Hfl. destruct Hfl as [sf [Hsf Hfl]].
  apply bind_Ok in Hll. destruct Hll as [sl [Hsl Hll]].
  split.
  - intros r Hr. apply in_app_or in Hr. destruct Hr as [Hr|Hr].
    + destruct (build_rows_In _ _ _ Hfl r Hr) as [p [_ Hp]].
      left. apply (fixed_row_shape self swap p r Hp).
    + destruct (build_rows_In _ _ _ Hll r Hr) as [p [_ Hp]].
      right. apply (floating_row_shape self swap p r Hp).
  - exists sf, sl. split; [exact Hsf|]. split; [exact Hsl|].
    split; [apply (build_rows_length _ _ _ Hfl)
           | apply (build_rows_length _ _ _ Hll)].
Qed.

(** X15.  Whenever [price] returns, the NPV is the total of the
    [present_value] column of the table it returns, the table is in
    ascending order of [period_end], and it has one row for each period
    of the fixed schedule and one for each period of the floating
    schedule. *)
Theorem price_npv_total (self : SwapPricer) (swap : SwapDefinition)
    (res : PricingResult) :
  price self swap = Ok res ->
  npv res = np_sum (map cf_present_value (pr_cashflows res)) /\
  ascending (fun r => IZR (toordinal (cf_period_end r))) (pr_cashflows res) /\
  exists sf sl,
    generate_schedule (effective_date swap) (maturity_years swap)
      (fixed_leg_frequency swap) (fixed_leg_daycount swap) = Ok sf /\
    generate_schedule (effective_date swap) (maturity_years swap)
      (floating_leg_frequency swap) (floating_leg_daycount swap) = Ok sl /\
    List.length (pr_cashflows res)
    = (List.length sf + List.length sl)%nat.
Proof.
  intros H.
  destruct (price_inv self swap res H)
    as [fl [ll [Hfl [Hll [_ [Hcf [Hfp [Hlp Hnpv]]]]]]]].
  destruct (build_rows_legs self swap fl ll Hfl Hll)
    as [Hlegs [sf [sl [Hsf [Hsl [Lf Ll]]]]]].
  split; [|split].
  - rewrite Hnpv, Hfp, Hlp, Hcf, np_sum_sorted_by.
    apply leg_pv_split, Hlegs.
  - rewrite Hcf. apply sorted_by_ascending.
  - exists sf, sl. split; [exact Hsf|]. split; [exact Hsl|].
    rewrite Hcf, sorted_by_length, length_app. lia.
Qed.

Lemma price_npv_total_witness :
  exists res,
    price (mkSwapPricer flat_curve flat_curve) (annual_swap (3 / 100))
    = Ok res /\
    npv res = np_sum (map cf_present_value (pr_cashflows res)).
Proof.
  destruct (annual_swap_price (mkSwapPricer flat_curve flat_curve) (3 / 100)
              flat_curve_df_one)
    as [_ [_ [res [_ [_ [Hres _]]]]]].
  exists res. split; [exact Hres|].
  apply (price_npv_total _ _ res Hres).
Defined.

(** ** Forward rates and discount factors *)

Lemma forward_rate_inv (c : ZeroCurve) (s e F : R) :
  forward_rate c s e = Ok F ->
  s < e /\ discount_factor c e <> 0 /\
  F = ln (discount_factor c s / discount_factor c e) / (e - s).
Proof.
  unfold forward_rate. destruct (Rle_dec e s); [discriminate|].
  destruct (Req_dec_T (discount_factor c e) 0); [discriminate|].
  intros H. inversion H. split; [lra|]. split; [assumption | reflexivity].
Qed.

Lemma forward_rate_compounds (c : ZeroCurve) (s e F : R) :
  wf_curve c -> positive_cache c ->
  forward_rate c s e = Ok F ->
  discount_factor c e = discount_factor c s * exp (- F * (e - s)).
Proof.
  intros Hwf Hpos H. destruct (forward_rate_inv c s e F H) as [Hse [_ ->]].
  pose proof (discount_factor_positive c s Hwf Hpos) as Hs.
  pose proof (discount_factor_positive c e Hwf Hpos) as He.
  replace (- (ln (discount_factor c s / discount_factor c e) / (e - s))
           * (e - s))
    with (- ln (discount_factor c s / discount_factor c e))
    by (field; lra).
  rewrite exp_Ropp, exp_ln.
  - field. split; lra.
  - apply Rdiv_lt_0_compat; assumption.
Qed.

(** X16.  On a curve object without cached discount factors, or with
    positive ones, the forward rate is the continuously compounded rate
    that carries the discount factor from the start to the end tenor:
    for [start < mid < end] the three forwards are returned,
    [DF(end) = DF(start) * exp(-F * (end - start))], and the forwards
    over adjacent intervals average, weighted by length, to the forward
    over their union. *)
Theorem forward_rate_discount (c : ZeroCurve) (s m e : R) :
  wf_curve c -> positive_cache c ->
  s < m -> m < e ->
  exists F1 F2 F,
    forward_rate c s m = Ok F1 /\ forward_rate c m e = Ok F2 /\
    forward_rate c s e = Ok F /\
    discount_factor c m = discount_factor c s * exp (- F1 * (m - s)) /\
    discount_factor c e = discount_factor c s * exp (- F * (e - s)) /\
    F * (e - s) = F1 * (m - s) + F2 * (e - m).
Proof.
  intros Hwf Hpos Hsm Hme.
  pose proof (discount_factor_positive c s Hwf Hpos) as Hs.
  pose proof (discount_factor_positive c m Hwf Hpos) as Hm.
  pose proof (discount_factor_positive c e Hwf Hpos) as He.
  assert (E1 : forward_rate c s m
               = Ok (ln (discount_factor c s / discount_factor c m) / (m - s)))
    by (apply forward_rate_Ok; lra).
  assert (E2 : forward_rate c m e
               = Ok (ln (discount_factor c m / discount_factor c e) / (e - m)))
    by (apply forward_rate_Ok; lra).
  assert (E : forward_rate c s e
              = Ok (ln (discount_factor c s / discount_factor c e) / (e - s)))
    by (apply forward_rate_Ok; lra).
  eexists; eexists; eexists.
  split; [exact E1|]. split; [exact E2|]. split; [exact E|].
  split; [apply (forward_rate_compounds c s m _ Hwf Hpos E1)|].
  split; [apply (forward_rate_compounds c s e _ Hwf Hpos E)|].
  assert (Hdiv : forall x y, 0 < x -> 0 < y -> ln (x / y) = ln x - ln y).
  { intros x y Hx Hy. unfold Rdiv.
    rewrite ln_mult, ln_Rinv by (try apply Rinv_0_lt_compat; assumption).
    ring. }
  rewrite !Hdiv by assumption.
  field. split; lra.
Qed.

Lemma forward_rate_discount_witness :
  exists F,
    forward_rate flat_cached_curve 1 3 = Ok F /\
    discount_factor flat_cached_curve 3
    = discount_factor flat_cached_curve 1 * exp (- F * (3 - 1)).
Proof.
  destruct (forward_rate_discount flat_cached_curve 1 2 3
              flat_cached_curve_wf)
    as [F1 [F2 [F [_ [_ [H [_ [H' _]]]]]]]].
  - intros dfs Hd. inversion Hd; subst.
    repeat constructor; apply exp_pos.
  - lra.
  - lra.
  - exists F. split; assumption.
Defined.

(** On a curve without cache whose nodes all carry the rate [r], the
    discount factor is [exp(-r t)] from zero on. *)
Lemma flat_discount_factor (c : ZeroCurve) (r t : R) :
  wf_curve c -> _discount_factors c = None ->
  Forall (fun z => z = r) (_rates c) -> 0 <= t ->
  discount_factor c t = exp (- r * t).
Proof.
  intros [Hne [Hlen _]] Hnone Hall Ht. unfold discount_factor.
  destruct (Rle_dec t 0).
  - replace t with 0 by lra. rewrite Rmult_0_r, exp_0. reflexivity.
  - rewrite Hnone, (zero_rate_const c r t); auto.
Qed.

(** X17.  On a flat curve without cached discount factors (every node
    at the rate [r]) the discount factor at [t >= 0] is [exp(-r t)] and
    the forward rate between any two tenors [0 <= start < end] is
    [r]. *)
Theorem forward_rate_flat (c : ZeroCurve) (r s e : R) :
  wf_curve c -> _discount_factors c = None ->
  Forall (fun z => z = r) (zero_rates c) -> 0 <= s -> s < e ->
  discount_factor c e = exp (- r * e) /\ forward_rate c s e = Ok r.
Proof.
  unfold zero_rates. intros Hwf Hnone Hall Hs Hse.
  assert (Ds : discount_factor c s = exp (- r * s))
    by (apply flat_discount_factor; auto).
  assert (De : discount_factor c e = exp (- r * e))
    by (apply flat_discount_factor; auto; lra).
  split; [exact De|].
  rewrite forward_rate_Ok;
    [| lra | rewrite De; pose proof (exp_pos (- r * e)); lra].
  rewrite Ds, De. f_equal.
  unfold Rdiv at 2. rewrite <- exp_Ropp, <- exp_plus, ln_exp.
  field. lra.
Qed.

Lemma forward_rate_flat_witness :
  forward_rate flat_curve (1 / 2) 3 = Ok (5 / 100).
Proof.
  apply (proj2 (forward_rate_flat flat_curve (5 / 100) (1 / 2) 3
                  flat_curve_wf eq_refl
                  ltac:(simpl; repeat constructor) ltac:(lra) ltac:(lra))).
Defined.

(** ** What the bootstrap achieves *)

Lemma sum_to_1 (g : nat -> R) : sum_to 1 g = g 1%nat.
Proof. unfold sum_to, np_sum. simpl. ring. Qed.

(** X18.  The bootstrapped discount factors reprice every grid swap at
    par: at each node [i], the par rate [r_i] paid on the accruals up to
    the node plus the notional at the node is worth one,
    [r_i * sum_(j<=i) a_j DF_j + DF_i = 1], as long as no division of
    the loop up to that node is by zero, that is [1 + r_j a_j] is not
    zero for any [j <= i]. *)
Theorem from_par_swap_dataframe_par (df : list Quote) (nm : label) (f : Z) :
  let par_tenors := map tenor_years (sorted_by tenor_years df) in
  let par_rates := map quote_rate (sorted_by tenor_years df) in
  let N := round_half_even (last par_tenors 0 * IZR f) in
  let a := node_accrual f in
  let r := fun i => np_interp (node_tenor f i) par_tenors par_rates in
  df <> [] -> (0 < f)%Z -> (1 <= N)%Z ->
  exists c D,
    from_par_swap_dataframe df nm f = Ok c /\
    _discount_factors c = Some D /\
    List.length D = Z.to_nat N /\
    let DF := fun i => nth (i - 1) D 0 in
    forall i, (1 <= i <= Z.to_nat N)%nat ->
      (forall j, (1 <= j <= i)%nat -> 1 + r j * a j <> 0) ->
      r i * sum_to i (fun j => a j * DF j) + DF i = 1.
Proof.
  intros par_tenors par_rates N a r Hdf Hf HN.
  destruct (bootstrap_nodes df nm f Hdf Hf HN)
    as [c [D [E [HD [_ [_ [_ [HlD [H1 Hi]]]]]]]]].
  exists c, D. split; [exact E|]. split; [exact HD|].
  split; [exact HlD|].
  intros DF i Hrange Hall.
  assert (Hden : 1 + r i * a i <> 0) by (apply Hall; lia).
  clear Hall.
  destruct (Nat.eq_dec i 1) as [->|Hne].
  - rewrite sum_to_1. fold (DF 1%nat).
    assert (E1 : DF 1%nat = 1 / (1 + r 1%nat * a 1%nat)) by exact H1.
    rewrite E1. field. exact Hden.
  - destruct (Hi i Hrange) as [_ [_ [_ [Hrec _]]]].
    assert (Hgt : (1 < i)%nat) by lia.
    assert (Ei : DF i
                 = (1 - r i * sum_to (i - 1) (fun j => a j * DF j))
                   / (1 + r i * a i)) by (apply Hrec; exact Hgt).
    replace i with (S (i - 1)) at 2 by lia.
    rewrite sum_to_S. replace (S (i - 1)) with i by lia.
    set (S0 := sum_to (i - 1) (fun j => a j * DF j)) in *.
    rewrite Ei. field. exact Hden.
Qed.

Lemma sample_par_rate_first :
  np_interp (node_tenor 2 1)
    (map tenor_years (sorted_by tenor_years sample_quotes))
    (map quote_rate (sorted_by tenor_years sample_quotes))
  = 3 / 100.
Proof.
  rewrite (par_rate_chord sample_quotes (node_tenor 2 1) 0).
  - rewrite sample_quotes_sorted. unfold node_tenor. simpl. field.
  - rewrite sample_quotes_sorted. simpl. lia.
  - rewrite sample_quotes_sorted. unfold node_tenor. simpl. lra.
Qed.

Lemma from_par_swap_dataframe_par_witness :
  exists c D,
    from_par_swap_dataframe sample_quotes (Named "par") 2 = Ok c /\
    _discount_factors c = Some D /\ List.length D = 2%nat /\
    np_interp (node_tenor 2 1)
      (map tenor_years (sorted_by tenor_years sample_quotes))
      (map quote_rate (sorted_by tenor_years sample_quotes))
    * sum_to 1 (fun j => node_accrual 2 j * nth (j - 1) D 0)
    + nth (1 - 1) D 0 = 1.
Proof.
  destruct (from_par_swap_dataframe_par sample_quotes (Named "par") 2)
    as [c [D [H1 [H2 [H3 H4]]]]].
  - discriminate.
  - lia.
  - rewrite sample_quotes_steps. lia.
  - exists c, D. rewrite sample_quotes_steps in H3, H4.
    split; [exact H1|]. split; [exact H2|]. split; [exact H3|].
    apply (H4 1%nat); [simpl; lia|].
    intros j Hj. assert (j = 1%nat) by lia. subst j.
    rewrite sample_par_rate_first.
    unfold node_accrual, node_tenor. simpl. lra.
Defined.

(** ** The tent of a key-rate shift *)

Lemma tent_at_key (shift_bp key_tenor width : R) :
  0 < width -> tent shift_bp key_tenor width key_tenor = shift_bp / 10000.
Proof.
  intros Hw. unfold tent.
  replace (key_tenor - key_tenor) with 0 by ring. rewrite Rabs_R0.
  destruct (Rle_dec 0 width); [|lra]. field. lra.
Qed.

Lemma tent_outside (shift_bp key_tenor width t : R) :
  0 < width -> width <= Rabs (t - key_tenor) ->
  tent shift_bp key_tenor width t = 0.
Proof.
  intros Hw Hd. unfold tent.
  destruct (Rle_dec (Rabs (t - key_tenor)) width) as [H|H]; [|reflexivity].
  replace (Rabs (t - key_tenor)) with width by lra. field. lra.
Qed.

Lemma tent_bound (shift_bp key_tenor width t : R) :
  0 < width ->
  Rabs (tent shift_bp key_tenor width t) <= Rabs shift_bp / 10000.
Proof.
  intros Hw. unfold tent.
  pose proof (Rabs_pos shift_bp) as Hs.
  destruct (Rle_dec (Rabs (t - key_tenor)) width) as [H|H].
  - pose proof (Rabs_pos (t - key_tenor)) as Hd.
    set (u := Rabs (t - key_tenor) / width).
    assert (Hu : 0 <= u <= 1).
    { unfold u. split.
      - apply Rmult_le_pos; [exact Hd | left; apply Rinv_0_lt_compat, Hw].
      - apply Rmult_le_reg_r with width; [exact Hw|].
        unfold Rdiv. rewrite Rmult_assoc, Rinv_l by lra. lra. }
    replace (shift_bp * (1 - u) / 10000) with (shift_bp * ((1 - u) / 10000))
      by (unfold Rdiv; ring).
    rewrite Rabs_mult, (Rabs_right ((1 - u) / 10000)) by lra.
    unfold Rdiv. apply Rmult_le_compat_l; [exact Hs | lra].
  - rewrite Rabs_R0. lra.
Qed.

Lemma default_width_pos (key_tenor : R) : 0 < default_width key_tenor.
Proof.
  unfold default_width.
  destruct (Rlt_dec key_tenor 1); [lra|].
  destruct (Rle_dec key_tenor 5); lra.
Qed.

(** X19.  With the default width a key-rate shift moves the zero rate of
    a node at the key tenor by the full [shift_bp / 10000], leaves the
    rate of every node at a distance of the width or more as it was,
    and moves no rate by more than [|shift_bp| / 10000]; with a shift
    of zero every rate stays. *)
Theorem apply_key_rate_shift_tent (c : ZeroCurve) (key_tenor shift_bp : R) :
  wf_curve c ->
  exists c',
    apply_key_rate_shift c key_tenor shift_bp None = Ok c' /\
    tenors c' = tenors c /\
    List.length (zero_rates c') = List.length (tenors c) /\
    forall k, (k < List.length (tenors c))%nat ->
      let t := nth k (tenors c) 0 in
      let moved := nth k (zero_rates c') 0 - nth k (zero_rates c) 0 in
      (t = key_tenor -> moved = shift_bp / 10000) /\
      (default_width key_tenor <= Rabs (t - key_tenor) -> moved = 0) /\
      Rabs moved <= Rabs shift_bp / 10000 /\
      (shift_bp = 0 -> moved = 0).
Proof.
  intros Hwf.
  destruct (apply_key_rate_shift_Ok c key_tenor shift_bp None Hwf)
    as [c' [E [Ht [_ [Hl [dfs' [_ [_ Hn]]]]]]]].
  exists c'. split; [exact E|]. split; [exact Ht|]. split; [exact Hl|].
  intros k Hk t moved.
  destruct (Hn k Hk) as [Hr _]. cbv zeta in Hr. fold t in Hr.
  pose proof (default_width_pos key_tenor) as Hw.
  assert (Hm : moved = tent shift_bp key_tenor (default_width key_tenor) t)
    by (unfold moved; rewrite Hr; ring).
  rewrite Hm. split; [|split; [|split]].
  - intros ->. apply tent_at_key, Hw.
  - intros Hd. apply tent_outside; assumption.
  - apply tent_bound, Hw.
  - intros ->. pose proof (tent_bound 0 key_tenor (default_width key_tenor) t Hw)
      as Hb.
    rewrite Rabs_R0 in Hb.
    pose proof (Rabs_pos (tent 0 key_tenor (default_width key_tenor) t)).
    destruct (Req_dec (tent 0 key_tenor (default_width key_tenor) t) 0)
      as [Hz|Hz]; [exact Hz|].
    pose proof (Rabs_pos_lt _ Hz). lra.
Qed.

Lemma apply_key_rate_shift_tent_witness :
  exists c',
    apply_key_rate_shift flat_curve 2 1 None = Ok c' /\
    nth 1 (zero_rates c') 0 - nth 1 (zero_rates flat_curve) 0 = 1 / 10000.
Proof.
  destruct (apply_key_rate_shift_tent flat_curve 2 1 flat_curve_wf)
    as [c' [E [_ [_ H]]]].
  exists c'. split; [exact E|].
  apply (H 1%nat); [simpl; lia | reflexivity].
Defined.

(** ** The range of rates and discount factors *)

Lemma chord_hull (lo hi x x0 x1 y0 y1 : R) :
  x0 <= x < x1 -> lo <= y0 <= hi -> lo <= y1 <= hi ->
  lo <= (y1 - y0) / (x1 - x0) * (x - x0) + y0 <= hi.
Proof.
  intros Hx H0 H1.
  assert (Hd : 0 < x1 - x0) by lra.
  set (u := (x - x0) / (x1 - x0)).
  assert (Hu : 0 <= u < 1).
  { unfold u. split.
    - apply Rmult_le_pos; [lra | left; apply Rinv_0_lt_compat, Hd].
    - apply Rmult_lt_reg_r with (x1 - x0); [exact Hd|].
      unfold Rdiv. rewrite Rmult_assoc, Rinv_l by lra. lra. }
  replace ((y1 - y0) / (x1 - x0) * (x - x0)) with ((y1 - y0) * u)
    by (unfold u; field; lra).
  split; nra.
Qed.

Lemma interp_from_hull (lo hi x : R) (xp fp : list R) (x0 y0 : R) :
  x0 <= x -> lo <= y0 <= hi -> Forall (fun y => lo <= y <= hi) fp ->
  lo <= interp_from x x0 y0 xp fp <= hi.
Proof.
  revert fp x0 y0. induction xp as [|x1 xp IH]; intros fp x0 y0 Hx H0 Hall.
  - simpl. exact H0.
  - destruct fp as [|y1 fp]; [simpl; exact H0|].
    inversion Hall; subst. simpl interp_from.
    destruct (Rle_dec x1 x) as [H1|H1].
    + apply IH; assumption.
    + apply chord_hull; [lra | assumption | assumption].
Qed.

(** An interpolated value lies between the smallest and the largest
    sample. *)
Lemma np_interp_hull (lo hi x : R) (xp fp : list R) :
  xp <> [] -> fp <> [] -> Forall (fun y => lo <= y <= hi) fp ->
  lo <= np_interp x xp fp <= hi.
Proof.
  intros Hx Hf Hall. destruct xp as [|x0 xp]; [contradiction|].
  destruct fp as [|y0 fp]; [contradiction|].
  inversion Hall; subst. simpl np_interp.
  destruct (Rlt_dec x x0); [assumption|].
  apply interp_from_hull; [lra | assumption | assumption].
Qed.

Lemma zero_rate_hull (c : ZeroCurve) (lo hi t : R) :
  wf_curve c -> Forall (fun y => lo <= y <= hi) (_rates c) ->
  lo <= zero_rate c t <= hi.
Proof.
  intros Hwf Hall. rewrite zero_rate_interp by exact Hwf.
  destruct Hwf as [Hne [Hlen _]].
  apply np_interp_hull; [exact Hne | | exact Hall].
  intros E. rewrite E in Hlen. destruct (_tenors c); [auto | discriminate].
Qed.

(** X20.  The zero rate of a curve object lies at every tenor between
    the smallest and the largest node rate.  Without cached discount
    factors the discount factor at [t >= 0] therefore lies between
    [exp(-hi t)] and [exp(-lo t)] for node rates in [[lo, hi]], and
    with node rates that are not negative it is in (0, 1] at every
    tenor. *)
Theorem discount_factor_range (c : ZeroCurve) (lo hi t : R) :
  wf_curve c -> Forall (fun y => lo <= y <= hi) (zero_rates c) ->
  lo <= zero_rate c t <= hi /\
  (_discount_factors c = None ->
   (0 <= t -> exp (- hi * t) <= discount_factor c t <= exp (- lo * t)) /\
   (0 <= lo -> 0 < discount_factor c t <= 1)).
Proof.
  unfold zero_rates. intros Hwf Hall.
  pose proof (zero_rate_hull c lo hi t Hwf Hall) as Hz.
  split; [exact Hz|].
  intros Hnone.
  assert (E : 0 < t -> discount_factor c t = exp (- zero_rate c t * t)).
  { intros Ht. unfold discount_factor.
    destruct (Rle_dec t 0); [lra|]. rewrite Hnone. reflexivity. }
  split.
  - intros Ht. destruct (Rle_lt_or_eq_dec 0 t Ht) as [Hpos|<-].
    + rewrite (E Hpos). split; apply exp_le_mono; nra.
    + rewrite discount_factor_nonpositive by lra.
      rewrite !Rmult_0_r, exp_0. lra.
  - intros Hlo. destruct (Rle_dec t 0) as [Ht|Ht].
    + rewrite discount_factor_nonpositive by exact Ht. lra.
    + rewrite E by lra. split; [apply exp_pos|].
      rewrite <- exp_0. apply exp_le_mono. nra.
Qed.

Lemma discount_factor_range_witness :
  0 < discount_factor flat_curve 7 <= 1.
Proof.
  apply (proj2 (discount_factor_range flat_curve (5 / 100) (5 / 100) 7
                  flat_curve_wf
                  ltac:(simpl; repeat constructor; lra))).
  - reflexivity.
  - lra.
Defined.

(** ** A floating leg paid more than 23 times a year *)

Lemma step_months_zero (f : Z) :
  (24 <= f)%Z -> round_half_even (12 / IZR f) = 0%Z.
Proof.
  intros Hf. apply round_half_even_zero.
  assert (H24 : 24 <= IZR f) by (apply IZR_le in Hf; exact Hf).
  assert (Hpos : 0 < 12 / IZR f)
    by (apply Rdiv_lt_0_compat; lra).
  split; [lra|].
  apply Rmult_le_reg_r with (IZR f); [lra|].
  unfold Rdiv. rewrite Rmult_assoc, Rinv_l by lra. lra.
Qed.

Lemma forward_rate_empty_interval (c : ZeroCurve) (t : R) :
  forward_rate c t t = Err (ValueError forward_range_msg).
Proof.
  unfold forward_rate. destruct (Rle_dec t t); [reflexivity | lra].
Qed.

Lemma floating_leg_zero_step (self : SwapPricer) (swap : SwapDefinition)
    (func : date -> date -> R) :
  (24 <= floating_leg_frequency swap)%Z ->
  (1 <= round_half_even
          (maturity_years swap * IZR (floating_leg_frequency swap)))%Z ->
  DAYCOUNT_FUNCTIONS (upper (floating_leg_daycount swap)) = Some func ->
  valid_month_day (effective_date swap) = true ->
  _build_floating_cashflows self swap = Err (ValueError forward_range_msg).
Proof.
  intros Hf HN Hdc Hv. unfold _build_floating_cashflows.
  rewrite (generate_schedule_Ok _ _ _ _ func) by (try lia; exact Hdc).
  rewrite (step_months_zero _ Hf). cbn [bind].
  destruct (Z.to_nat (round_half_even
              (maturity_years swap * IZR (floating_leg_frequency swap))))
    as [|k] eqn:E; [lia|].
  cbn [period_dates map build_rows].
  rewrite add_months_0 by exact Hv.
  rewrite floating_row_eq. cbv zeta.
  cbn [period_of start end_ fst snd].
  rewrite forward_rate_empty_interval. reflexivity.
Qed.

(** X21.  A floating frequency of 24 or more gives a month step of
    [round(12 / f) = 0], so every floating period starts and ends on
    the effective date; the first floating row then asks for a forward
    rate over an empty interval, the floating leg fails with the
    [ValueError] of [forward_rate], and [price] returns nothing, on any
    pair of curves. *)
Theorem price_floating_frequency (self : SwapPricer) (swap : SwapDefinition)
    (func : date -> date -> R) :
  (24 <= floating_leg_frequency swap)%Z ->
  (1 <= round_half_even
          (maturity_years swap * IZR (floating_leg_frequency swap)))%Z ->
  DAYCOUNT_FUNCTIONS (upper (floating_leg_daycount swap)) = Some func ->
  valid_month_day (effective_date swap) = true ->
  round_half_even (12 / IZR (floating_leg_frequency swap)) = 0%Z /\
  _build_floating_cashflows self swap = Err (ValueError forward_range_msg) /\
  (forall fixed_leg, _build_fixed_cashflows self swap = Ok fixed_leg ->
     price self swap = Err (ValueError forward_range_msg)) /\
  forall res, price self swap <> Ok res.
Proof.
  intros Hf HN Hdc Hv.
  pose proof (floating_leg_zero_step self swap func Hf HN Hdc Hv) as E.
  split; [apply step_months_zero, Hf|]. split; [exact E|]. split.
  - intros fl Hfl. unfold price, build_cashflows. rewrite Hfl, E. reflexivity.
  - intros res H.
    destruct (price_inv self swap res H) as [fl [ll [_ [Hll _]]]].
    rewrite E in Hll. discriminate.
Qed.

Lemma price_floating_frequency_witness :
  _build_floating_cashflows (mkSwapPricer flat_curve flat_curve)
    (mkSwapDefinition jan_first jan_first 1 100 (3 / 100) "fixed" 2 24
       "30/360" "ACT/365" 0)
  = Err (ValueError forward_range_msg).
Proof.
  apply (price_floating_frequency (mkSwapPricer flat_curve flat_curve)
           (mkSwapDefinition jan_first jan_first 1 100 (3 / 100) "fixed" 2 24
              "30/360" "ACT/365" 0) actual_365).
  - cbn [floating_leg_frequency]. lia.
  - cbn [floating_leg_frequency maturity_years].
    replace (1 * IZR 24) with (IZR 24) by lra.
    rewrite round_half_even_IZR. lia.
  - reflexivity.
  - reflexivity.
Defined.

(** ** Notional and payer *)

Lemma floating_direction (swap : SwapDefinition) :
  (if String.eqb (payer swap) "fixed" then 1 else -1) = - payer_sign swap.
Proof.
  unfold payer_sign. destruct (String.eqb (payer swap) "fixed"); lra.
Qed.

Lemma fixed_row_scale (self : SwapPricer) (s s' : SwapDefinition) (k : R)
    (p : CashflowPeriod) (r : CashflowRow) :
  same_terms s s' ->
  payer_sign s' * notional s' = k * (payer_sign s * notional s) ->
  fixed_row self s p = Ok r -> fixed_row self s' p = Ok (scale_row k r).
Proof.
  intros [Hv [_ [_ [Hr _]]]] Hk.
  rewrite !fixed_row_eq. cbv zeta. intros H. inversion H; subst; clear H.
  unfold scale_row.
  cbn [cf_period_start cf_period_end cf_accrual_factor cf_coupon_rate
       cf_forward_rate cf_cashflow cf_discount_factor cf_present_value
       cf_time_to_payment cf_leg cf_projection_rate].
  rewrite Hv, Hr. fold (payer_sign s) (payer_sign s').
  f_equal. f_equal.
  - transitivity (payer_sign s' * notional s'
                  * (fixed_rate s * accrual_factor p)); [ring|].
    rewrite Hk. ring.
  - transitivity (payer_sign s' * notional s'
                  * (fixed_rate s * accrual_factor p
                     * discount_factor (discount_curve self)
                         (actual_365 (valuation_date s) (end_ p)))); [ring|].
    rewrite Hk. ring.
Qed.

Lemma floating_row_scale (self : SwapPricer) (s s' : SwapDefinition) (k : R)
    (p : CashflowPeriod) (r : CashflowRow) :
  same_terms s s' ->
  payer_sign s' * notional s' = k * (payer_sign s * notional s) ->
  floating_row self s p = Ok r -> floating_row self s' p = Ok (scale_row k r).
Proof.
  intros [Hv [_ [_ [_ [_ [_ [_ [_ Hsp]]]]]]]] Hk.
  rewrite !floating_row_eq. cbv zeta. rewrite Hv, Hsp.
  rewrite !floating_direction.
  destruct (forward_rate (forward_curve self)
              (actual_365 (valuation_date s) (start p))
              (actual_365 (valuation_date s) (end_ p))) as [F|e];
    [|discriminate].
  cbn [bind]. intros H. inversion H; subst; clear H.
  unfold scale_row.
  cbn [cf_period_start cf_period_end cf_accrual_factor cf_coupon_rate
       cf_forward_rate cf_cashflow cf_discount_factor cf_present_value
       cf_time_to_payment cf_leg cf_projection_rate].
  f_equal. f_equal.
  - transitivity (- (payer_sign s' * notional s')
                  * ((F + spread s) * accrual_factor p)); [ring|].
    rewrite Hk. ring.
  - transitivity (- (payer_sign s' * notional s')
                  * ((F + spread s) * accrual_factor p
                     * discount_factor (discount_curve self)
                         (actual_365 (valuation_date s) (end_ p)))); [ring|].
    rewrite Hk. ring.
Qed.

Lemma build_rows_scale (row row' : CashflowPeriod -> result CashflowRow)
    (k : R) (schedule : list CashflowPeriod) (rows : list CashflowRow) :
  (forall p r, row p = Ok r -> row' p = Ok (scale_row k r)) ->
  build_rows row schedule = Ok rows ->
  build_rows row' schedule = Ok (map (scale_row k) rows).
Proof.
  intros Hrow. revert rows.
  induction schedule as [|p schedule IH]; intros rows H.
  - inversion H; subst. reflexivity.
  - cbn [build_rows] in *.
    apply bind_Ok in H. destruct H as [r0 [Hr0 H]].
    apply bind_Ok in H. destruct H as [rest [Hrest H]].
    inversion H; subst.
    rewrite (Hrow p r0 Hr0). cbn [bind]. rewrite (IH rest Hrest).
    reflexivity.
Qed.

Lemma leg_pv_scale (leg : string) (k : R) (rows : list CashflowRow) :
  leg_pv leg (map (scale_row k) rows) = k * leg_pv leg rows.
Proof.
  unfold leg_pv, np_sum. induction rows as [|r rows IH].
  - simpl. ring.
  - cbn [map filter]. cbn [scale_row cf_leg].
    destruct (String.eqb (cf_leg r) leg).
    + cbn [map fold_right cf_present_value scale_row]. rewrite IH. ring.
    + exact IH.
Qed.

Lemma insert_by_map {A : Type} (key : A -> R) (g : A -> A) (x : A)
    (l : list A) :
  (forall a, key (g a) = key a) ->
  insert_by key (g x) (map g l) = map g (insert_by key x l).
Proof.
  intros Hg. induction l as [|y l IH]; [reflexivity|].
  cbn [map insert_by]. rewrite !Hg.
  destruct (Rlt_dec (key y) (key x)); [|reflexivity].
  cbn [map]. rewrite IH. reflexivity.
Qed.

Lemma sorted_by_map {A : Type} (key : A -> R) (g : A -> A) (l : list A) :
  (forall a, key (g a) = key a) ->
  sorted_by key (map g l) = map g (sorted_by key l).
Proof.
  intros Hg. induction l as [|x l IH]; [reflexivity|].
  cbn [map sorted_by fold_right]. fold (sorted_by key (map g l)).
  fold (sorted_by key l). rewrite IH. apply insert_by_map, Hg.
Qed.

Lemma price_scale (self : SwapPricer) (s s' : SwapDefinition) (k : R)
    (res : PricingResult) :
  same_terms s s' ->
  payer_sign s' * notional s' = k * (payer_sign s * notional s) ->
  price self s = Ok res ->
  price self s'
  = Ok (mkPricingResult (map (scale_row k) (pr_cashflows res))
          (k * fixed_leg_pv res) (k * floating_leg_pv res) (k * npv res)).
Proof.
  intros Hsame Hk H.
  destruct (price_inv self s res H)
    as [fl [ll [Hfl [Hll [Hne [Hcf [Hfp [Hlp Hnpv]]]]]]]].
  pose proof Hsame as [_ [He [Hm [_ [Hff [Hlf [Hfd [Hld _]]]]]]]].
  assert (Hfl' : _build_fixed_cashflows self s'
                 = Ok (map (scale_row k) fl)).
  { unfold _build_fixed_cashflows in *. rewrite He, Hm, Hff, Hfd.
    apply bind_Ok in Hfl. destruct Hfl as [sf [Hsf Hfl]].
    rewrite Hsf. cbn [bind].
    apply (build_rows_scale (fixed_row self s)); [|exact Hfl].
    intros p r. apply fixed_row_scale; assumption. }
  assert (Hll' : _build_floating_cashflows self s'
                 = Ok (map (scale_row k) ll)).
  { unfold _build_floating_cashflows in *. rewrite He, Hm, Hlf, Hld.
    apply bind_Ok in Hll. destruct Hll as [sl [Hsl Hll]].
    rewrite Hsl. cbn [bind].
    apply (build_rows_scale (floating_row self s)); [|exact Hll].
    intros p r. apply floating_row_scale; assumption. }
  rewrite (price_Ok self s' _ _ Hfl' Hll').
  - rewrite <- map_app, !leg_pv_scale, sorted_by_map by reflexivity.
    rewrite Hcf, Hnpv, Hfp, Hlp. f_equal. f_equal. ring.
  - rewrite <- map_app. intros E. apply map_eq_nil in E. contradiction.
Qed.

(** X22.  The price is linear in the signed notional.  For two swaps
    that differ at most in notional and payer, with the signed notional
    of the second (the notional, negated for a fixed payer) [k] times
    that of the first, whenever the first prices so does the second,
    with every cashflow and present value of the table, both leg values
    and the NPV multiplied by [k].  So the receiver of the fixed rate
    sees the payer's table and NPV negated, and [k] times the notional
    gives [k] times the NPV. *)
Theorem price_signed_notional (self : SwapPricer) (s s' : SwapDefinition)
    (k : R) (res : PricingResult) :
  same_terms s s' ->
  payer_sign s' * notional s' = k * (payer_sign s * notional s) ->
  price self s = Ok res ->
  exists res',
    price self s' = Ok res' /\
    npv res' = k * npv res /\
    fixed_leg_pv res' = k * fixed_leg_pv res /\
    floating_leg_pv res' = k * floating_leg_pv res /\
    pr_cashflows res' = map (scale_row k) (pr_cashflows res).
Proof.
  intros Hsame Hk H. eexists.
  split; [apply (price_scale self s s' k res Hsame Hk H)|].
  cbn [npv fixed_leg_pv floating_leg_pv pr_cashflows].
  repeat split; reflexivity.
Qed.

Lemma price_signed_notional_witness :
  exists res res',
    price (mkSwapPricer flat_curve flat_curve) (annual_swap (3 / 100))
    = Ok res /\
    price (mkSwapPricer flat_curve flat_curve) (annual_receiver (3 / 100))
    = Ok res' /\
    npv res' = - 1 * npv res.
Proof.
  destruct (annual_swap_price (mkSwapPricer flat_curve flat_curve) (3 / 100)
              flat_curve_df_one)
    as [_ [_ [res [_ [_ [Hres _]]]]]].
  destruct (price_signed_notional (mkSwapPricer flat_curve flat_curve)
              (annual_swap (3 / 100)) (annual_receiver (3 / 100)) (- 1) res)
    as [res' [H1 [H2 _]]].
  - unfold same_terms. simpl. repeat split; reflexivity.
  - unfold payer_sign. simpl. lra.
  - exact Hres.
  - exists res, res'. auto.
Defined.

(** ** The value of the fixed leg *)

Lemma leg_pv_app (leg : string) (a b : list CashflowRow) :
  leg_pv leg (a ++ b) = leg_pv leg a + leg_pv leg b.
Proof.
  unfold leg_pv. rewrite filter_app, map_app. apply np_sum_app.
Qed.

Lemma leg_pv_other (leg : string) (rows : list CashflowRow) :
  (forall r, In r rows -> String.eqb (cf_leg r) leg = false) ->
  leg_pv leg rows = 0.
Proof.
  unfold leg_pv, np_sum. induction rows as [|r rows IH]; intros H.
  - reflexivity.
  - cbn [filter]. rewrite (H r (or_introl eq_refl)).
    apply IH. intros q Hq. apply H. right. exact Hq.
Qed.

Lemma fixed_rows_pv (self : SwapPricer) (swap : SwapDefinition)
    (sf : list CashflowPeriod) (fl : list CashflowRow) :
  build_rows (fixed_row self swap) sf = Ok fl ->
  leg_pv "fixed" fl
  = payer_sign swap * notional swap * fixed_rate swap
    * np_sum (map (fun p =>
                     accrual_factor p
                     * discount_factor (discount_curve self)
                         (actual_365 (valuation_date swap) (end_ p))) sf).
Proof.
  revert fl. induction sf as [|p sf IH]; intros fl H.
  - inversion H; subst. unfold leg_pv, np_sum. simpl. ring.
  - cbn [build_rows] in H.
    apply bind_Ok in H. destruct H as [r0 [Hr0 H]].
    apply bind_Ok in H. destruct H as [rest [Hrest H]].
    inversion H; subst; clear H.
    specialize (IH rest Hrest).
    rewrite fixed_row_eq in Hr0. cbv zeta in Hr0.
    inversion Hr0; subst; clear Hr0.
    unfold leg_pv in *. cbn [filter cf_leg String.eqb Ascii.eqb Bool.eqb].
    unfold np_sum in *. cbn [map fold_right cf_present_value].
    rewrite IH. fold (payer_sign swap). ring.
Qed.

(** X23.  Whenever [price] returns, the value of the fixed leg is the
    signed notional times the fixed rate times the annuity of the fixed
    schedule, the sum over its periods of the accrual factor times the
    discount factor at the ACT/365 time from the valuation date to the
    period end; no floating row enters it. *)
Theorem fixed_leg_annuity (self : SwapPricer) (swap : SwapDefinition)
    (res : PricingResult) :
  price self swap = Ok res ->
  exists sf,
    generate_schedule (effective_date swap) (maturity_years swap)
      (fixed_leg_frequency swap) (fixed_leg_daycount swap) = Ok sf /\
    fixed_leg_pv res
    = payer_sign swap * notional swap * fixed_rate swap
      * np_sum (map (fun p =>
                       accrual_factor p
                       * discount_factor (discount_curve self)
                           (actual_365 (valuation_date swap) (end_ p))) sf).
Proof.
  intros H.
  destruct (price_inv self swap res H)
    as [fl [ll [Hfl [Hll [_ [_ [Hfp _]]]]]]].
  unfold _build_fixed_cashflows in Hfl.
  apply bind_Ok in Hfl. destruct Hfl as [sf [Hsf Hfl]].
  unfold _build_floating_cashflows in Hll.
  apply bind_Ok in Hll. destruct Hll as [sl [_ Hll]].
  exists sf. split; [exact Hsf|].
  rewrite Hfp, leg_pv_app, (fixed_rows_pv self swap sf fl Hfl).
  rewrite (leg_pv_other "fixed" ll); [ring|].
  intros r Hr. destruct (build_rows_In _ _ _ Hll r Hr) as [p [_ Hp]].
  destruct (floating_row_shape self swap p r Hp) as [-> _]. reflexivity.
Qed.

Lemma fixed_leg_annuity_witness :
  exists res sf,
    price (mkSwapPricer flat_curve flat_curve) (annual_swap (3 / 100))
    = Ok res /\
    fixed_leg_pv res
    = payer_sign (annual_swap (3 / 100)) * 100 * (3 / 100)
      * np_sum (map (fun p =>
                       accrual_factor p
                       * discount_factor flat_curve
                           (actual_365 jan_first (end_ p))) sf).
Proof.
  destruct (annual_swap_price (mkSwapPricer flat_curve flat_curve) (3 / 100)
              flat_curve_df_one)
    as [_ [_ [res [_ [_ [Hres _]]]]]].
  destruct (fixed_leg_annuity _ _ res Hres) as [sf [_ H]].
  exists res, sf. split; [exact Hres | exact H].
Defined.
